(** * Atlas-GRAG: a shallow embedding of the ingestion, graph and parsing code

    The development follows the Python sources file by file:
    - [src/ingestion/extractor.py]: entity-name normalisation, response
      parsing and [extract];
    - [src/llm/chains.py]: [ReasoningResponse.parse_from_response];
    - [src/database/vector_db.py]: the embedding function and the vector
      store manager;
    - [src/database/graph_db.py]: the Cypher queries sent to the graph
      store, with a reference semantics of MERGE and of path matching;
    - [src/ingestion/pipeline.py]: [ingest_text];
    - the retrieval step of [src/app/main.py].

    Python strings are modelled by [string]; the case and white-space tables
    are those of the 7-bit range, characters above 127 pass through
    unchanged.  Exceptions are the subclasses of [Exception]. *)

From Stdlib Require Import ZArith Lia Bool Ascii String List.
From stdpp Require Import gmap strings list fin_maps pretty sorting.

Local Open Scope Z_scope.
Local Open Scope stdpp_scope.

(** ** Python strings *)

Definition dq : string := String "034"%char EmptyString.
Definition nl : string := String "010"%char EmptyString.

(** [str.isspace] on one character: TAB..CR, FS..US and the blank. *)
Definition is_space (c : ascii) : bool :=
  let n := N_of_ascii c in
  ((9 <=? n) && (n <=? 13) || (28 <=? n) && (n <=? 32))%N.

Definition lower_char (c : ascii) : ascii :=
  let n := N_of_ascii c in
  if ((65 <=? n) && (n <=? 90))%N then ascii_of_N (n + 32) else c.

Definition upper_char (c : ascii) : ascii :=
  let n := N_of_ascii c in
  if ((97 <=? n) && (n <=? 122))%N then ascii_of_N (n - 32) else c.

Fixpoint str_map (f : ascii → ascii) (s : string) : string :=
  match s with
  | EmptyString => EmptyString
  | String c s' => String (f c) (str_map f s')
  end.

Definition py_lower : string → string := str_map lower_char.
Definition py_upper : string → string := str_map upper_char.

(** [s.replace(a, b)] for one-character [a] and [b]. *)
Definition py_replace_char (a b : ascii) : string → string :=
  str_map (λ c, if Ascii.eqb c a then b else c).

Fixpoint lstrip_chars (l : list ascii) : list ascii :=
  match l with
  | c :: l' => if is_space c then lstrip_chars l' else l
  | [] => []
  end.

Definition strip_chars (l : list ascii) : list ascii :=
  rev (lstrip_chars (rev (lstrip_chars l))).

(** [s.strip()] *)
Definition py_strip (s : string) : string :=
  string_of_list_ascii (strip_chars (list_ascii_of_string s)).

(** [s[:n]] *)
Definition py_take (n : nat) (s : string) : string := String.substring 0 n s.

(** Truth value of a string: non-empty. *)
Definition str_truthy (s : string) : bool :=
  match s with EmptyString => false | String _ _ => true end.

(** ** Regular expressions used by the normaliser *)

(** [re.sub(r"\s+", " ", s)]: every maximal run of white space becomes one
    blank.  [in_run] records that the previous character was white space. *)
Fixpoint collapse_ws (in_run : bool) (l : list ascii) : list ascii :=
  match l with
  | [] => []
  | c :: l' =>
      if is_space c
      then (if in_run then collapse_ws true l' else " "%char :: collapse_ws true l')
      else c :: collapse_ws false l'
  end.

Definition re_sub_ws (s : string) : string :=
  string_of_list_ascii (collapse_ws false (list_ascii_of_string s)).

(** A pattern [\s+LIT$] or [\s+LIT\.?$]. *)
Record SuffixPattern := { sp_lit : string; sp_dot : bool }.

(** Case-insensitive test that [p] starts [l]. *)
Fixpoint prefix_ci (p l : list ascii) : option (list ascii) :=
  match p, l with
  | [], _ => Some l
  | a :: p', c :: l' =>
      if Ascii.eqb (lower_char a) (lower_char c) then prefix_ci p' l' else None
  | _ :: _, [] => None
  end.

(** Matching [\s+LIT] backwards from a position: [r] is the reversed text
    that ends at that position.  The result is what is left of the text,
    still reversed, once the match (with all the white space before the
    literal, the match being leftmost) has been cut off. *)
Definition match_lit_back (lit : string) (r : list ascii) : option (list ascii) :=
  match prefix_ci (rev (list_ascii_of_string lit)) r with
  | Some (c :: r') => if is_space c then Some (lstrip_chars r') else None
  | _ => None
  end.

(** Matching the whole pattern backwards from a position where [$] holds;
    the optional dot is greedy. *)
Definition match_suffix_back (p : SuffixPattern) (r : list ascii) : option (list ascii) :=
  match r with
  | "."%char :: r' =>
      if sp_dot p
      then match match_lit_back (sp_lit p) r' with
           | Some x => Some x
           | None => match_lit_back (sp_lit p) r
           end
      else match_lit_back (sp_lit p) r
  | _ => match_lit_back (sp_lit p) r
  end.

(** [re.sub(pattern, "", s, flags=re.IGNORECASE)].  [$] holds at the end of
    the text and before a line feed that ends it. *)
Definition re_sub_suffix (p : SuffixPattern) (s : string) : string :=
  let r := rev (list_ascii_of_string s) in
  match r with
  | "010"%char :: r' =>
      match match_suffix_back p r' with
      | Some rest => string_of_list_ascii (rev rest ++ ["010"%char])
      | None => s
      end
  | _ =>
      match match_suffix_back p r with
      | Some rest => string_of_list_ascii (rev rest)
      | None => s
      end
  end.

(** ** src/ingestion/extractor.py: the normaliser *)

Definition COMPANY_SUFFIXES : list SuffixPattern :=
  [ {| sp_lit := "inc"; sp_dot := true |};
    {| sp_lit := "incorporated"; sp_dot := false |};
    {| sp_lit := "corp"; sp_dot := true |};
    {| sp_lit := "corporation"; sp_dot := false |};
    {| sp_lit := "ltd"; sp_dot := true |};
    {| sp_lit := "limited"; sp_dot := false |};
    {| sp_lit := "llc"; sp_dot := true |};
    {| sp_lit := "co"; sp_dot := true |};
    {| sp_lit := "company"; sp_dot := false |};
    {| sp_lit := "plc"; sp_dot := true |};
    {| sp_lit := "gmbh"; sp_dot := false |};
    {| sp_lit := "ag"; sp_dot := false |} ].

Definition normalize_entity_name (name : string) : string :=
  if negb (str_truthy name) then EmptyString
  else
    let normalized := py_lower (py_strip name) in
    let normalized := re_sub_ws normalized in
    let normalized :=
      fold_left (λ acc suffix_pattern, re_sub_suffix suffix_pattern acc)
                COMPANY_SUFFIXES normalized in
    py_strip normalized.


(** ** Python values

    The values [json.loads] produces, which is what the fields of a parsed
    item can hold.  A float is kept as the 64 bits of its binary64
    representation. *)

#[warnings="-register-all"]
Inductive PyVal : Type :=
| PyNone
| PyBool (b : bool)
| PyInt (z : Z)
| PyFloat (bits : Z)
| PyStr (s : string)
| PyList (items : list PyVal)
| PyDict (entries : list (string * PyVal)).

(** [bool(v)] *)
Definition py_truthy (v : PyVal) : bool :=
  match v with
  | PyNone => false
  | PyBool b => b
  | PyInt z => negb (z =? 0)
  | PyFloat bits => negb ((bits =? 0) || (bits =? 2 ^ 63))
  | PyStr s => str_truthy s
  | PyList items => match items with [] => false | _ => true end
  | PyDict entries => match entries with [] => false | _ => true end
  end.

(** [type(v).__name__] *)
Definition py_type_name (v : PyVal) : string :=
  match v with
  | PyNone => "NoneType"
  | PyBool _ => "bool"
  | PyInt _ => "int"
  | PyFloat _ => "float"
  | PyStr _ => "str"
  | PyList _ => "list"
  | PyDict _ => "dict"
  end.

(** Lookup in the entries of a dict (keys are unique in a Python dict). *)
Fixpoint assoc_get (k : string) (entries : list (string * PyVal)) : option PyVal :=
  match entries with
  | [] => None
  | (k', v) :: rest => if String.eqb k k' then Some v else assoc_get k rest
  end.

Fixpoint pyval_eqb (a b : PyVal) {struct a} : bool :=
  match a, b with
  | PyNone, PyNone => true
  | PyBool x, PyBool y => Bool.eqb x y
  | PyInt x, PyInt y => (x =? y)
  | PyFloat x, PyFloat y => (x =? y)
  | PyStr x, PyStr y => String.eqb x y
  | PyList xs, PyList ys =>
      (fix go (xs ys : list PyVal) {struct xs} : bool :=
         match xs, ys with
         | [], [] => true
         | x :: xs', y :: ys' => pyval_eqb x y && go xs' ys'
         | _, _ => false
         end) xs ys
  | PyDict xs, PyDict ys =>
      (fix go (xs ys : list (string * PyVal)) {struct xs} : bool :=
         match xs, ys with
         | [], [] => true
         | (k, x) :: xs', (k', y) :: ys' =>
             String.eqb k k' && pyval_eqb x y && go xs' ys'
         | _, _ => false
         end) xs ys
  | _, _ => false
  end.

(** Induction on values that reaches the elements of lists and dicts. *)
Fixpoint PyVal_nested_ind (P : PyVal → Prop)
    (Hnone : P PyNone) (Hbool : ∀ b, P (PyBool b)) (Hint : ∀ z, P (PyInt z))
    (Hfloat : ∀ z, P (PyFloat z)) (Hstr : ∀ s, P (PyStr s))
    (Hlist : ∀ items, Forall P items → P (PyList items))
    (Hdict : ∀ entries, Forall (λ kv, P kv.2) entries → P (PyDict entries))
    (v : PyVal) {struct v} : P v :=
  let rec := PyVal_nested_ind P Hnone Hbool Hint Hfloat Hstr Hlist Hdict in
  match v with
  | PyNone => Hnone
  | PyBool b => Hbool b
  | PyInt z => Hint z
  | PyFloat z => Hfloat z
  | PyStr s => Hstr s
  | PyList items =>
      Hlist items
        ((fix go (l : list PyVal) : Forall P l :=
            match l with
            | [] => @List.Forall_nil _ P
            | x :: l' => @List.Forall_cons _ P x l' (rec x) (go l')
            end) items)
  | PyDict entries =>
      Hdict entries
        ((fix go (l : list (string * PyVal)) : Forall (λ kv, P kv.2) l :=
            match l with
            | [] => @List.Forall_nil _ (λ kv, P kv.2)
            | (k, x) :: l' => @List.Forall_cons _ (λ kv, P kv.2) (k, x) l' (rec x) (go l')
            end) entries)
  end.

Lemma pyval_eqb_eq (a b : PyVal) : pyval_eqb a b = true ↔ a = b.
Proof.
  revert b. induction a as [| | | | |xs IH|xs IH] using PyVal_nested_ind;
    intros [| | | | |ys|ys]; simpl; try (split; [discriminate|discriminate]);
    try (split; congruence).
  - rewrite Bool.eqb_true_iff. split; congruence.
  - rewrite Z.eqb_eq. split; congruence.
  - rewrite Z.eqb_eq. split; congruence.
  - rewrite String.eqb_eq. split; congruence.
  - revert ys. induction IH as [|x xs Hx _ IHxs]; intros [|y ys];
      try (split; [discriminate|congruence]); [split; congruence|].
    rewrite andb_true_iff, Hx. specialize (IHxs ys). split.
    + intros [-> H]. apply IHxs in H. congruence.
    + intros [= -> ->]. split; [done|]. apply IHxs. done.
  - revert ys. induction IH as [|[k x] xs Hx _ IHxs]; intros [|[k' y] ys];
      try (split; [discriminate|congruence]); [split; congruence|].
    simpl in Hx. rewrite !andb_true_iff, Hx, String.eqb_eq.
    specialize (IHxs ys). split.
    + intros [[-> ->] H]. apply IHxs in H. congruence.
    + intros [= -> -> ->]. split; [done|]. apply IHxs. done.
Qed.

#[global] Instance PyVal_eq_dec : EqDecision PyVal.
Proof.
  intros a b. destruct (pyval_eqb a b) eqn:E.
  - left. by apply pyval_eqb_eq.
  - right. intros H. apply pyval_eqb_eq in H. congruence.
Defined.

(** ** Exceptions and outcomes *)

(** The exception classes the handlers tell apart.  [JSONDecodeError] is a
    subclass of [ValueError]; [ValueError] stands for that class and its
    other subclasses, [OtherException] for a class unrelated to those
    named here. *)
Inductive ExnClass :=
| JSONDecodeError | ValueError | AttributeError | TypeError | KeyError
| IndexError | ImportError | ServiceUnavailable | ClientError | OtherException.

#[global] Instance ExnClass_eq_dec : EqDecision ExnClass.
Proof. solve_decision. Defined.

(** An exception object: its class and [str(e)]. *)
Record Exn := mkExn { exn_class : ExnClass; exn_str : string }.

Definition isinstance_JSONDecodeError (e : Exn) : bool :=
  bool_decide (exn_class e = JSONDecodeError).

Definition isinstance_ValueError (e : Exn) : bool :=
  bool_decide (exn_class e = JSONDecodeError) || bool_decide (exn_class e = ValueError).

(** What evaluating an expression gives: a value or a raised exception. *)
Inductive Outcome (A : Type) : Type :=
| Return (a : A)
| Raise (e : Exn).
Arguments Return {A} a.
Arguments Raise {A} e.

#[global] Instance Outcome_ret : MRet Outcome := λ A a, Return a.
#[global] Instance Outcome_bind : MBind Outcome := λ A B f o,
  match o with
  | Return a => f a
  | Raise e => Raise e
  end.

(** [v.attr] on a value without that attribute. *)
Definition no_attribute (v : PyVal) (attr : string) : Exn :=
  mkExn AttributeError
    ("'" +:+ py_type_name v +:+ "' object has no attribute '" +:+ attr +:+ "'").

(** [for x in v] on a value that cannot be iterated. *)
Definition not_iterable (v : PyVal) : Exn :=
  mkExn TypeError ("'" +:+ py_type_name v +:+ "' object is not iterable").

(** The items [for item in v] runs through. *)
Definition py_iter (v : PyVal) : Outcome (list PyVal) :=
  match v with
  | PyList items => Return items
  | PyStr s => Return ((λ c, PyStr (String c EmptyString)) <$> list_ascii_of_string s)
  | PyDict entries => Return ((λ kv, PyStr kv.1) <$> entries)
  | _ => Raise (not_iterable v)
  end.

(** [v.get(key, default)]: only a dict has [get]. *)
Definition py_get (v : PyVal) (key : string) (default : PyVal) : Outcome PyVal :=
  match v with
  | PyDict entries => Return (from_option id default (assoc_get key entries))
  | _ => Raise (no_attribute v "get")
  end.

(** ** The external stores

    The graph store and the vector store are services outside the
    repository.  They are given a reference model: what a Cypher MERGE or a
    path match does to a property graph, and what an id-keyed collection
    does on [add]. *)

Abbreviation Props := (gmap string PyVal).

(** A node of the property graph.  Its identity is its position in
    [g_nodes]. *)
Record Node := mkNode { n_label : string; n_props : Props }.

(** A relationship between the nodes at positions [e_src] and [e_dst]. *)
Record Edge := mkEdge { e_src : nat; e_type : string; e_dst : nat; e_props : Props }.

Record Graph := mkGraph { g_nodes : list Node; g_edges : list Edge }.

#[global] Instance Node_eq_dec : EqDecision Node.
Proof. solve_decision. Defined.
#[global] Instance Edge_eq_dec : EqDecision Edge.
Proof. solve_decision. Defined.

(** A property pattern [{k1: $p1, k2: $p2, ...}] of a query: property key
    and name of the query parameter that holds its value. *)
Abbreviation PropPattern := (list (string * string)).

(** The Cypher statements [graph_db.py] builds.  The text of a statement is
    represented by its syntax: the labels, relationship type and hop bound
    spliced into it, and its property patterns. *)
Inductive Query :=
| CypherMergeNode (label : string) (props on_create on_match : PropPattern)
| CypherMergeRel (from_label : string) (from_props : PropPattern)
    (to_label : string) (to_props : PropPattern)
    (rel_type : string) (set_props : PropPattern)
| CypherNeighbors (label : string) (props : PropPattern) (max_hops : Z)
| CypherPaths (from_label : string) (from_props : PropPattern)
    (to_label : string) (to_props : PropPattern) (max_hops : Z).

(** A record of a query result. *)
Inductive Row :=
| RowNode (n : Node)
| RowRel (e : Edge)
| RowNeighbor (node : Node) (path_length : nat)
| RowPath (nodes : list Node) (relationships : list string) (path_length : nat).

(** A stored document of a vector collection. *)
Record VDoc := mkVDoc { doc_text : string; doc_meta : option Props }.

Abbreviation Collection := (gmap string VDoc).

(** What [collection.query] returns: one inner list per query text. *)
Record QueryResult := mkQueryResult {
  qr_ids : list (list string);
  qr_documents : option (list (list string));
  qr_distances : option (list (list PyVal));
  qr_metadatas : option (list (list Props))
}.

Inductive LogLevel := INFO | WARNING | ERROR.

#[global] Instance LogLevel_eq_dec : EqDecision LogLevel.
Proof. solve_decision. Defined.

(** What the code acts on: the graph held by the graph store, the
    collections held by the vector store, the [_collections] cache of the
    vector manager (a handle is the name of its collection), and the
    records written to the loggers. *)
Record World := mkWorld {
  w_graph : Graph;
  w_vector : gmap string Collection;
  w_collections : gset string;
  w_log : list (LogLevel * string)
}.

(** How the services outside the repository behave during a run.  A fault
    is the exception a request is answered with, [None] when the request is
    served. *)
Record Env := mkEnv {
  (** [OllamaLLM.invoke(prompt)] *)
  llm_invoke : string → Outcome string;
  (** [json.loads(text)] *)
  json_loads : string → Outcome PyVal;
  (** [str(v)], as an f-string formats a value *)
  py_str : PyVal → string;
  (** [GraphDatabaseManager()]: creating the driver *)
  graph_connect_fault : option Exn;
  (** [driver.close()] *)
  graph_close_fault : option Exn;
  (** [session.run(query, params)]: server unreachable, statement refused *)
  graph_fault : Query → Props → option Exn;
  (** [collection.add(documents, ids, metadatas)]: store unreachable,
      arguments refused *)
  vector_add_fault : string → list string → list string → option (list Props) → option Exn;
  (** whether [collection.add] raises on an id that is already stored
      (otherwise it leaves the stored record alone) *)
  vector_add_existing_raises : bool;
  (** [collection.query(query_texts=[text], n_results=n, where=where)] on
      the stored collection *)
  vector_query : Collection → string → Z → option Props → Outcome QueryResult;
  (** [open(path, "r", encoding="utf-8")] followed by [f.readlines()] *)
  read_lines : string → Outcome (list string);
  (** [import ollama] followed by [ollama.Client(host=...)] *)
  ollama_client_fault : option Exn;
  (** [client.embeddings(model=..., prompt=...)] *)
  ollama_embeddings : string → string → Outcome PyVal
}.

(** ** Computations: state and exceptions

    A computation runs from a world and ends with a value or an exception;
    what it did to the world before raising stays done. *)

Definition M (A : Type) : Type := World → Outcome A * World.

#[global] Instance M_ret : MRet M := λ A a w, (Return a, w).
#[global] Instance M_bind : MBind M := λ A B f m w,
  match m w with
  | (Return a, w') => f a w'
  | (Raise e, w') => (Raise e, w')
  end.

Definition raise {A} (e : Exn) : M A := λ w, (Raise e, w).

Definition lift {A} (o : Outcome A) : M A := λ w, (o, w).

(** [try: body / except Exception as e: handler(e)] *)
Definition try_except {A} (body : M A) (handler : Exn → M A) : M A := λ w,
  match body w with
  | (Return a, w') => (Return a, w')
  | (Raise e, w') => handler e w'
  end.

(** [logger.info], [logger.warning], [logger.error] *)
Definition log (level : LogLevel) (msg : string) : M unit := λ w,
  (Return (),
   mkWorld (w_graph w) (w_vector w) (w_collections w) (w_log w ++ [(level, msg)])).

Definition get_graph : M Graph := λ w, (Return (w_graph w), w).
Definition put_graph (g : Graph) : M unit := λ w,
  (Return (), mkWorld g (w_vector w) (w_collections w) (w_log w)).

Definition get_vector : M (gmap string Collection) := λ w, (Return (w_vector w), w).
Definition put_vector (v : gmap string Collection) : M unit := λ w,
  (Return (), mkWorld (w_graph w) v (w_collections w) (w_log w)).

Definition get_collections : M (gset string) := λ w, (Return (w_collections w), w).
Definition put_collections (c : gset string) : M unit := λ w,
  (Return (), mkWorld (w_graph w) (w_vector w) c (w_log w)).

(** [fault] answers a request with an exception, when there is one. *)
Definition check_fault (fault : option Exn) : M unit :=
  match fault with
  | Some e => raise e
  | None => mret ()
  end.

(** ** src/ingestion/extractor.py: triples and response parsing *)

(** The dataclass [Triple].  The fields are annotated [str] (and [Dict] for
    the properties) but hold whatever the parsed item held. *)
Record Triple := mkTriple {
  subject : PyVal;
  subject_type : PyVal;
  predicate : PyVal;
  object : PyVal;
  object_type : PyVal;
  properties : PyVal
}.

Record ExtractionResult := mkExtractionResult {
  triples : list Triple;
  source_text : string;
  error : option string
}.

Definition SCHEMA_DESCRIPTION : string :=
  nl +:+ "## Node Types" +:+ nl +:+
  "- Company: Organizations in the supply chain (name, industry, location)" +:+ nl +:+
  "- Product: Manufactured products or components (name, category)" +:+ nl +:+
  "- Location: Geographical locations (name, type, country)" +:+ nl +:+
  "- LogisticsNode: Ports, warehouses, distribution centers (name, type, capacity)" +:+ nl +:+
  "- RiskEvent: Disruption events (name, type, severity, date)" +:+ nl +:+
  nl +:+ "## Relationship Types" +:+ nl +:+
  "- MANUFACTURES: (Company)-[:MANUFACTURES]->(Product)" +:+ nl +:+
  "- DEPENDS_ON: (Company)-[:DEPENDS_ON]->(Company) - supply chain dependency" +:+ nl +:+
  "- STORED_IN: (Product)-[:STORED_IN]->(Location)" +:+ nl +:+
  "- COMPONENT_OF: (Product)-[:COMPONENT_OF]->(Product)" +:+ nl +:+
  "- AFFECTS: (RiskEvent)-[:AFFECTS]->(Location or Company)" +:+ nl +:+
  "- OPERATES_AT: (Company)-[:OPERATES_AT]->(Location)" +:+ nl +:+
  "- LOCATED_IN: (LogisticsNode)-[:LOCATED_IN]->(Location)" +:+ nl +:+
  "- SHIPS_VIA: (Company)-[:SHIPS_VIA]->(LogisticsNode)" +:+ nl +:+
  "- COMPETES_WITH: (Company)-[:COMPETES_WITH]->(Company)" +:+ nl.

(** [EXTRACTION_PROMPT_TEMPLATE.format(schema=SCHEMA_DESCRIPTION, text=text)] *)
Definition _build_prompt (text : string) : string :=
  "You are a knowledge extraction system for supply chain analysis." +:+ nl +:+
  "Extract entities and relationships from the given text according to the schema below." +:+ nl +:+
  nl +:+ SCHEMA_DESCRIPTION +:+ nl +:+
  nl +:+ "## Instructions" +:+ nl +:+
  "1. Identify all entities mentioned in the text" +:+ nl +:+
  "2. Determine the correct node type for each entity" +:+ nl +:+
  "3. Identify relationships between entities" +:+ nl +:+
  "4. Return ONLY valid JSON in the exact format specified" +:+ nl +:+
  nl +:+ "## Output Format" +:+ nl +:+
  "Return a JSON object with a " +:+ dq +:+ "triples" +:+ dq +:+ " array:" +:+ nl +:+
  "```json" +:+ nl +:+
  "{" +:+ nl +:+
  "    " +:+ dq +:+ "triples" +:+ dq +:+ ": [" +:+ nl +:+
  "        {" +:+ nl +:+
  "            " +:+ dq +:+ "subject" +:+ dq +:+ ": " +:+ dq +:+ "Entity Name" +:+ dq +:+ "," +:+ nl +:+
  "            " +:+ dq +:+ "subject_type" +:+ dq +:+ ": " +:+ dq +:+ "NodeType" +:+ dq +:+ "," +:+ nl +:+
  "            " +:+ dq +:+ "predicate" +:+ dq +:+ ": " +:+ dq +:+ "RELATIONSHIP_TYPE" +:+ dq +:+ "," +:+ nl +:+
  "            " +:+ dq +:+ "object" +:+ dq +:+ ": " +:+ dq +:+ "Another Entity" +:+ dq +:+ "," +:+ nl +:+
  "            " +:+ dq +:+ "object_type" +:+ dq +:+ ": " +:+ dq +:+ "NodeType" +:+ dq +:+ nl +:+
  "        }" +:+ nl +:+
  "    ]" +:+ nl +:+
  "}" +:+ nl +:+
  "```" +:+ nl +:+
  nl +:+ "## Text to Analyze" +:+ nl +:+
  text +:+ nl +:+
  nl +:+ "## Extracted Knowledge (JSON only, no other text):".

(** [re.search(r"\{[\s\S]*\}", response)]: from the first opening brace to
    the last closing brace after it. *)
Fixpoint drop_until (c : ascii) (l : list ascii) : option (list ascii) :=
  match l with
  | [] => None
  | x :: l' => if Ascii.eqb x c then Some l else drop_until c l'
  end.

Definition search_json_object (response : string) : option string :=
  match drop_until "{"%char (list_ascii_of_string response) with
  | Some (_ :: after_open) =>
      match drop_until "}"%char (rev after_open) with
      | Some body_rev => Some (string_of_list_ascii ("{"%char :: rev body_rev))
      | None => None
      end
  | _ => None
  end.

(** [normalize_entity_name(v)] on whatever value the field holds: a falsy
    value gives the empty string, a string is normalised, any other value
    has no [strip]. *)
Definition normalize_entity_value (v : PyVal) : Outcome string :=
  if negb (py_truthy v) then Return EmptyString
  else match v with
       | PyStr s => Return (normalize_entity_name s)
       | _ => Raise (no_attribute v "strip")
       end.

(** [normalize_entity_name(v) or v] *)
Definition normalized_or_raw (v : PyVal) : Outcome PyVal :=
  n ← normalize_entity_value v;
  Return (if str_truthy n then PyStr n else v).

(** [v.upper().replace(" ", "_")] *)
Definition upper_snake (v : PyVal) : Outcome PyVal :=
  match v with
  | PyStr s => Return (PyStr (py_replace_char " " "_" (py_upper s)))
  | _ => Raise (no_attribute v "upper")
  end.

(** The body of the loop of [_parse_response] up to the test: the triple
    built from one item. *)
Definition build_triple (normalize : bool) (item : PyVal) : Outcome Triple :=
  subject ← py_get item "subject" (PyStr EmptyString);
  subject_type ← py_get item "subject_type" (PyStr "Entity");
  predicate ← py_get item "predicate" (PyStr "RELATED_TO");
  object ← py_get item "object" (PyStr EmptyString);
  object_type ← py_get item "object_type" (PyStr "Entity");
  properties ← py_get item "properties" (PyDict []);
  if normalize then
    subject' ← normalized_or_raw subject;
    predicate' ← upper_snake predicate;
    object' ← normalized_or_raw object;
    Return (mkTriple subject' subject_type predicate' object' object_type properties)
  else
    Return (mkTriple subject subject_type predicate object object_type properties).

(** [if triple.subject and triple.object] *)
Definition triple_kept (t : Triple) : bool :=
  py_truthy (subject t) && py_truthy (object t).

(** The loop of [_parse_response]; [triples] is the list built so far. *)
Fixpoint parse_items (normalize : bool) (items : list PyVal) (triples : list Triple)
  : Outcome (list Triple) :=
  match items with
  | [] => Return triples
  | item :: rest =>
      triple ← build_triple normalize item;
      parse_items normalize rest
        (if triple_kept triple then triples ++ [triple] else triples)
  end.

Section Extractor.
Context (env : Env).
(** [self._normalize] *)
Context (normalize : bool).

(** [_parse_response] up to its loop: the items of the [triples] array of
    the JSON object found in the response. *)
Definition response_items (response : string) : Outcome (list PyVal) :=
  match search_json_object response with
  | None =>
      Raise (mkExn ValueError
               ("No JSON object found in response: " +:+ py_take 200 response))
  | Some json_str =>
      data ← json_loads env json_str;
      triples_value ← py_get data "triples" (PyList []);
      py_iter triples_value
  end.

Definition _parse_response (response : string) : Outcome (list Triple) :=
  items ← response_items response;
  parse_items normalize items [].

Definition extract (text : string) : M ExtractionResult :=
  let result := mkExtractionResult [] text None in
  try_except
    (let prompt := _build_prompt text in
     response ← lift (llm_invoke env prompt);
     triples ← lift (_parse_response response);
     _ ← log INFO ("Extracted " +:+ pretty (length triples) +:+ " triples from text");
     mret (mkExtractionResult triples text None))
    (λ e,
       let error_msg :=
         if isinstance_JSONDecodeError e
         then "Failed to parse LLM response as JSON: " +:+ exn_str e
         else if isinstance_ValueError e
         then exn_str e
         else "Extraction failed: " +:+ exn_str e in
       _ ← log ERROR error_msg;
       mret (mkExtractionResult (triples result) text (Some error_msg))).

End Extractor.

(** ** src/llm/chains.py: parsing the structured answer *)

Record ReasoningResponse := mkReasoningResponse {
  answer : string;
  entities : string;
  reasoning : string;
  raw_response : string
}.

Fixpoint str_drop (n : nat) (s : string) : string :=
  match n, s with
  | S n', String _ s' => str_drop n' s'
  | _, _ => s
  end.

(** [s.partition(sep)] when [sep] occurs in [s]: what stands before its
    first occurrence and what stands after it. *)
Fixpoint partition_at (sep s : string) : option (string * string) :=
  if String.prefix sep s then Some (EmptyString, str_drop (String.length sep) s)
  else match s with
       | EmptyString => None
       | String c s' =>
           match partition_at sep s' with
           | Some (before, after) => Some (String c before, after)
           | None => None
           end
       end.

(** [re.search(open + "(.*?)" + close, response, re.DOTALL)]: the group of
    the leftmost match, which runs from the first [open] to the first
    [close] after it. *)
Definition search_section (open close response : string) : option string :=
  match partition_at open response with
  | Some (_, rest) =>
      match partition_at close rest with
      | Some (group, _) => Some group
      | None => None
      end
  | None => None
  end.

(** [re.split(sep, response)[1]] when the list has more than one element. *)
Definition split_second (sep response : string) : option string :=
  match partition_at sep response with
  | Some (_, rest) =>
      match partition_at sep rest with
      | Some (second, _) => Some second
      | None => Some rest
      end
  | None => None
  end.

Definition parse_from_response (response : string) : ReasoningResponse :=
  let entities := EmptyString in
  let reasoning := EmptyString in
  let answer := response in
  let entities :=
    match search_section "<entities>" "</entities>" response with
    | Some group => py_strip group
    | None => entities
    end in
  let reasoning :=
    match search_section "<reasoning>" "</reasoning>" response with
    | Some group => py_strip group
    | None => reasoning
    end in
  let answer :=
    match search_section "<answer>" "</answer>" response with
    | Some group => py_strip group
    | None =>
        match split_second "</reasoning>" response with
        | Some after_reasoning => py_strip after_reasoning
        | None => answer
        end
    end in
  mkReasoningResponse answer entities reasoning response.

(** ** src/database/vector_db.py *)

(** [v[key]] for a string key. *)
Definition py_getitem (v : PyVal) (key : string) : Outcome PyVal :=
  match v with
  | PyDict entries =>
      match assoc_get key entries with
      | Some x => Return x
      | None => Raise (mkExn KeyError ("'" +:+ key +:+ "'"))
      end
  | PyList _ => Raise (mkExn TypeError "list indices must be integers or slices, not str")
  | PyStr _ => Raise (mkExn TypeError "string indices must be integers, not 'str'")
  | _ => Raise (mkExn TypeError ("'" +:+ py_type_name v +:+ "' object is not subscriptable"))
  end.

(** [[0.0] * 768] *)
Definition zero_vector : PyVal := PyList (replicate 768 (PyFloat 0)).

Section VectorDb.
Context (env : Env).

(** The property [OllamaEmbeddings.client]: an [ImportError] is raised
    again with the message of the class, any other exception as it is. *)
Definition client : M unit :=
  match ollama_client_fault env with
  | Some e =>
      if bool_decide (exn_class e = ImportError)
      then raise (mkExn ImportError "ollama package is required for embeddings")
      else raise e
  | None => mret ()
  end.

(** The [try] statement in the loop of [OllamaEmbeddings.__call__]: the
    vector appended for one text. *)
Definition embed_one (model text : string) : M PyVal :=
  try_except
    (_ ← client;
     response ← lift (ollama_embeddings env model text);
     lift (py_getitem response "embedding"))
    (λ e,
       _ ← log ERROR ("Error generating embedding: " +:+ exn_str e);
       mret zero_vector).

(** The loop of [OllamaEmbeddings.__call__]; [embeddings] is the list built
    so far. *)
Fixpoint embed_loop (model : string) (input : list string) (embeddings : list PyVal)
  : M (list PyVal) :=
  match input with
  | [] => mret embeddings
  | text :: rest =>
      embedding ← embed_one model text;
      embed_loop model rest (embeddings ++ [embedding])
  end.

(** [OllamaEmbeddings.__call__] *)
Definition OllamaEmbeddings_call (model : string) (input : list string) : M (list PyVal) :=
  embed_loop model input [].

(** [VectorDatabaseManager.get_collection]: the handle is taken from the
    cache, or got (created when absent) from the store and cached. *)
Definition get_collection (name : string) : M string :=
  cache ← get_collections;
  if bool_decide (name ∈ cache) then mret name
  else
    v ← get_vector;
    _ ← (match v !! name with
         | Some _ => mret ()
         | None => put_vector (<[name := ∅]> v)
         end);
    _ ← put_collections ({[name]} ∪ cache);
    mret name.

(** Storing the records of one [add] that are not stored yet. *)
Fixpoint store_new (ids documents : list string) (metadatas : option (list Props))
    (coll : Collection) : Collection :=
  match ids, documents with
  | id :: ids', doc :: documents' =>
      let meta := match metadatas with Some (m :: _) => Some m | _ => None end in
      let metadatas' := match metadatas with Some (_ :: ms) => Some ms | _ => metadatas end in
      let coll' := match coll !! id with
                   | Some _ => coll
                   | None => <[id := mkVDoc doc meta]> coll
                   end in
      store_new ids' documents' metadatas' coll'
  | _, _ => coll
  end.

(** [collection.add(documents=..., ids=..., metadatas=...)] on the
    collection a handle names. *)
Definition collection_add (handle : string) (documents ids : list string)
    (metadatas : option (list Props)) : M unit :=
  _ ← check_fault (vector_add_fault env handle documents ids metadatas);
  v ← get_vector;
  match v !! handle with
  | None => raise (mkExn OtherException ("Collection " +:+ handle +:+ " does not exist."))
  | Some coll =>
      if negb (Nat.eqb (length ids) (length documents)
               && match metadatas with
                  | Some ms => Nat.eqb (length ms) (length ids)
                  | None => true
                  end)
      then raise (mkExn ValueError "Unequal lengths for fields")
      else if negb (bool_decide (NoDup ids))
      then raise (mkExn OtherException "Expected IDs to be unique")
      else if vector_add_existing_raises env
              && existsb (λ id, bool_decide (is_Some (coll !! id))) ids
      then raise (mkExn OtherException "ID already exists")
      else put_vector (<[handle := store_new ids documents metadatas coll]> v)
  end.

Definition add_documents (collection_name : string) (documents ids : list string)
    (metadatas : option (list Props)) : M unit :=
  collection ← get_collection collection_name;
  collection_add collection documents ids metadatas.

(** [collection.count()] *)
Definition collection_count (handle : string) : M nat :=
  v ← get_vector;
  match v !! handle with
  | None => raise (mkExn OtherException ("Collection " +:+ handle +:+ " does not exist."))
  | Some coll => mret (size coll)
  end.

Definition get_document_count (collection_name : string) : M nat :=
  collection ← get_collection collection_name;
  collection_count collection.

(** A record of the list [query_similar] returns. *)
Record SimilarDoc := mkSimilarDoc {
  sd_id : string;
  sd_document : option string;
  sd_distance : option PyVal;
  sd_metadata : option Props
}.

(** [xs[0][i] if xs else None] *)
Definition first_at {A} (xs : option (list (list A))) (i : nat) : Outcome (option A) :=
  match xs with
  | None | Some [] => Return None
  | Some (inner :: _) =>
      match inner !! i with
      | Some x => Return (Some x)
      | None => Raise (mkExn IndexError "list index out of range")
      end
  end.

(** The loop of [query_similar] over [enumerate(results["ids"][0])]. *)
Fixpoint similar_docs (results : QueryResult) (i : nat) (ids : list string)
  : Outcome (list SimilarDoc) :=
  match ids with
  | [] => Return []
  | doc_id :: rest =>
      document ← first_at (qr_documents results) i;
      distance ← first_at (qr_distances results) i;
      metadata ← first_at (qr_metadatas results) i;
      docs ← similar_docs results (S i) rest;
      Return (mkSimilarDoc doc_id document distance metadata :: docs)
  end.

Definition query_similar (collection_name query_text : string) (n_results : Z)
    (where_ : option Props) : M (list SimilarDoc) :=
  collection ← get_collection collection_name;
  v ← get_vector;
  match v !! collection with
  | None => raise (mkExn OtherException ("Collection " +:+ collection +:+ " does not exist."))
  | Some coll =>
      results ← lift (vector_query env coll query_text n_results where_);
      match qr_ids results with
      | first_ids :: _ => lift (similar_docs results 0 first_ids)
      | [] => mret []
      end
  end.

End VectorDb.

(** ** The graph store: what a statement does to the graph *)

(** The property map a pattern stands for under the query parameters;
    [None] when a parameter is missing. *)
Fixpoint resolve (pattern : PropPattern) (params : Props) : option Props :=
  match pattern with
  | [] => Some ∅
  | (k, p) :: rest =>
      match resolve rest params, params !! p with
      | Some m, Some v => Some (<[k := v]> m)
      | _, _ => None
      end
  end.

(** [(n:label {props})] matches a node that carries the label and every
    property of the pattern. *)
Definition node_matches (label : string) (props : Props) (n : Node) : bool :=
  bool_decide (n_label n = label)
  && bool_decide (map_Forall (λ k v, n_props n !! k = Some v) props).

(** Positions, counted from [i], of the nodes of [l] the pattern matches. *)
Fixpoint matching_from (label : string) (props : Props) (i : nat) (l : list Node)
  : list nat :=
  match l with
  | [] => []
  | n :: l' =>
      if node_matches label props n
      then i :: matching_from label props (S i) l'
      else matching_from label props (S i) l'
  end.

Definition matching (label : string) (props : Props) (g : Graph) : list nat :=
  matching_from label props 0 (g_nodes g).

(** [SET n.k = v, ...] *)
Definition set_node_props (set : Props) (n : Node) : Node :=
  mkNode (n_label n) (set ∪ n_props n).

(** [MERGE (n:label {props}) ON CREATE SET ... ON MATCH SET ...]: the nodes
    the pattern matches, each updated by the ON MATCH part; when there is
    none, one new node made from the pattern and the ON CREATE part.  The
    result carries the positions bound to [n]. *)
Definition merge_node_sem (label : string) (props on_create on_match : Props)
    (g : Graph) : Graph * list nat :=
  match matching label props g with
  | [] =>
      (mkGraph (g_nodes g ++ [mkNode label (on_create ∪ props)]) (g_edges g),
       [length (g_nodes g)])
  | ids =>
      (mkGraph
         (imap (λ i n, if bool_decide (i ∈ ids) then set_node_props on_match n else n)
               (g_nodes g))
         (g_edges g),
       ids)
  end.

Definition edge_between (a : nat) (t : string) (b : nat) (e : Edge) : bool :=
  bool_decide (e_src e = a) && bool_decide (e_type e = t) && bool_decide (e_dst e = b).

Definition set_edge_props (set : Props) (e : Edge) : Edge :=
  mkEdge (e_src e) (e_type e) (e_dst e) (set ∪ e_props e).

(** [MERGE (a)-[r:t]->(b) SET r.k = v, ...] for one binding of [a] and [b]:
    a relationship of that type between the two nodes is created when
    there is none; the SET part applies to each one there is. *)
Definition merge_edge (t : string) (set : Props) (g : Graph) (ab : nat * nat) : Graph :=
  let edges :=
    if existsb (edge_between ab.1 t ab.2) (g_edges g) then g_edges g
    else g_edges g ++ [mkEdge ab.1 t ab.2 ∅] in
  mkGraph (g_nodes g)
    ((λ e, if edge_between ab.1 t ab.2 e then set_edge_props set e else e) <$> edges).

(** [MERGE (a:..) MERGE (b:..) MERGE (a)-[r:t]->(b) SET ...]: the clauses
    run in this order; the last one runs for every binding of [a] and [b]. *)
Definition merge_rel_sem (from_label : string) (from_props : Props)
    (to_label : string) (to_props : Props) (t : string) (set : Props)
    (g : Graph) : Graph * list (nat * nat) :=
  let '(g1, as_) := merge_node_sem from_label from_props ∅ ∅ g in
  let '(g2, bs) := merge_node_sem to_label to_props ∅ ∅ g1 in
  let pairs := list_prod as_ bs in
  (foldl (merge_edge t set) g2 pairs, pairs).

(** The relationships at node [cur] that a path has not used yet, each with
    the node at its other end: a variable-length pattern [-[*..]-] follows
    a relationship in either direction and uses it once. *)
Fixpoint incident_from (used : list nat) (cur : nat) (i : nat) (edges : list Edge)
  : list (nat * nat) :=
  match edges with
  | [] => []
  | e :: rest =>
      let others := incident_from used cur (S i) rest in
      if bool_decide (i ∈ used) then others
      else if bool_decide (e_src e = cur) then (i, e_dst e) :: others
      else if bool_decide (e_dst e = cur) then (i, e_src e) :: others
      else others
  end.

(** The paths of 1 to [k] relationships that leave [cur]: lists of
    (relationship, node reached). *)
Fixpoint walks (g : Graph) (k : nat) (used : list nat) (cur : nat)
  : list (list (nat * nat)) :=
  match k with
  | O => []
  | S k' =>
      flat_map
        (λ step, [step] :: (cons step <$> walks g k' (step.1 :: used) step.2))
        (incident_from used cur 0 (g_edges g))
  end.

(** The node a path from [start] ends at. *)
Definition path_end (start : nat) (p : list (nat * nat)) : nat :=
  from_option snd start (last p).

Definition path_row (g : Graph) (start : nat) (p : list (nat * nat)) : Row :=
  RowPath (omap (λ i, g_nodes g !! i) (start :: p.*2))
          (omap (λ i, e_type <$> g_edges g !! i) p.*1)
          (length p).

Definition row_length (r : Row) : nat :=
  match r with
  | RowNeighbor _ n | RowPath _ _ n => n
  | _ => 0%nat
  end.

(** [ORDER BY path_length] *)
Fixpoint insert_by_length (r : Row) (sorted : list Row) : list Row :=
  match sorted with
  | [] => [r]
  | x :: rest =>
      if (row_length r <? row_length x)%nat then r :: sorted
      else x :: insert_by_length r rest
  end.

Definition order_by_length (rows : list Row) : list Row :=
  foldr insert_by_length [] rows.

(** [MATCH path = (a:..)-[*1..k]-(b:..) RETURN ...] before ordering. *)
Definition match_paths (from_label : string) (from_props : Props)
    (to_label : string) (to_props : Props) (k : nat) (g : Graph) : list Row :=
  flat_map
    (λ a,
       path_row g a <$>
         filter (λ p, bool_decide (path_end a p ∈ matching to_label to_props g))
                (walks g k [] a))
    (matching from_label from_props g).

(** [MATCH (start:..) MATCH path = (start)-[*1..k]-(neighbor)
    WHERE neighbor <> start RETURN DISTINCT neighbor, length(path)]
    before ordering. *)
Definition match_neighbors (label : string) (props : Props) (k : nat) (g : Graph)
  : list Row :=
  let found :=
    flat_map
      (λ a,
         (λ p, (path_end a p, length p)) <$>
           filter (λ p, bool_decide (path_end a p ≠ a)) (walks g k [] a))
      (matching label props g) in
  omap (λ nl, (λ n, RowNeighbor n nl.2) <$> g_nodes g !! nl.1) (remove_dups found).

(** What the server does with a statement it accepts: the graph after it
    and the records it returns; [None] when the statement cannot run (a
    parameter it names is missing, a hop bound is negative). *)
Definition exec_query (q : Query) (params : Props) (g : Graph)
  : option (Graph * list Row) :=
  match q with
  | CypherMergeNode label props on_create on_match =>
      props' ← resolve props params;
      on_create' ← resolve on_create params;
      on_match' ← resolve on_match params;
      let '(g', ids) := merge_node_sem label props' on_create' on_match' g in
      Some (g', omap (λ i, RowNode <$> g_nodes g' !! i) ids)
  | CypherMergeRel from_label from_props to_label to_props rel_type set_props =>
      from_props' ← resolve from_props params;
      to_props' ← resolve to_props params;
      set' ← resolve set_props params;
      let '(g', pairs) :=
        merge_rel_sem from_label from_props' to_label to_props' rel_type set' g in
      Some (g', RowRel <$> filter (λ e, bool_decide ((e_src e, e_dst e) ∈ pairs)
                                          && bool_decide (e_type e = rel_type))
                                  (g_edges g'))
  | CypherNeighbors label props max_hops =>
      props' ← resolve props params;
      if max_hops <? 0 then None
      else Some (g, order_by_length (match_neighbors label props' (Z.to_nat max_hops) g))
  | CypherPaths from_label from_props to_label to_props max_hops =>
      from_props' ← resolve from_props params;
      to_props' ← resolve to_props params;
      if max_hops <? 0 then None
      else Some (g, take 10 (order_by_length
                               (match_paths from_label from_props' to_label to_props'
                                            (Z.to_nat max_hops) g)))
  end.

(** ** src/database/graph_db.py *)

(** [d.keys()] *)
Definition keys (d : Props) : list string := (map_to_list d).*1.

(** [{f"{prefix}{k}": v for k, v in d.items()}] *)
Definition prefixed (prefix : string) (d : Props) : Props :=
  kmap (String.append prefix) d.

(** [", ".join(f"{k}: ${prefix}{k}" for k in d.keys())] *)
Definition prop_pattern (prefix : string) (d : Props) : PropPattern :=
  (λ k, (k, prefix +:+ k)) <$> keys d.

(** Truth value of an optional dict. *)
Definition dict_truthy (d : option Props) : bool :=
  match d with
  | Some m => negb (bool_decide (m = ∅))
  | None => false
  end.

Section GraphDb.
Context (env : Env).

(** [with self._driver.session(...) as session: session.run(query, params)] *)
Definition session_run (query : Query) (params : Props) : M (list Row) :=
  _ ← check_fault (graph_fault env query params);
  g ← get_graph;
  match exec_query query params g with
  | None => raise (mkExn ClientError "the statement cannot be run")
  | Some (g', rows) =>
      _ ← put_graph g';
      mret rows
  end.

(** [merge_node]; the result is [result.single()]. *)
Definition merge_node (label : string) (properties : Props)
    (on_create on_match : option Props) : M (option Row) :=
  let prop_string := prop_pattern EmptyString properties in
  let params := properties in
  let '(create_string, params) :=
    if dict_truthy on_create
    then (prop_pattern "create_" (default ∅ on_create),
          prefixed "create_" (default ∅ on_create) ∪ params)
    else ([], params) in
  let '(match_string, params) :=
    if dict_truthy on_match
    then (prop_pattern "match_" (default ∅ on_match),
          prefixed "match_" (default ∅ on_match) ∪ params)
    else ([], params) in
  rows ← session_run (CypherMergeNode label prop_string create_string match_string) params;
  mret (head rows).

Definition merge_relationship (from_label : string) (from_props : Props)
    (to_label : string) (to_props : Props) (rel_type : string)
    (rel_props : option Props) : M unit :=
  let from_prop_string := prop_pattern "from_" from_props in
  let to_prop_string := prop_pattern "to_" to_props in
  let params : Props := ∅ in
  let params := prefixed "from_" from_props ∪ params in
  let params := prefixed "to_" to_props ∪ params in
  let '(set_string, params) :=
    if dict_truthy rel_props
    then (prop_pattern "rel_" (default ∅ rel_props),
          prefixed "rel_" (default ∅ rel_props) ∪ params)
    else ([], params) in
  _ ← session_run
        (CypherMergeRel from_label from_prop_string to_label to_prop_string
                        rel_type set_string)
        params;
  mret ().

Definition find_neighbors (label : string) (properties : Props) (max_hops : Z)
  : M (list Row) :=
  let prop_string := prop_pattern EmptyString properties in
  session_run (CypherNeighbors label prop_string max_hops) properties.

Definition get_paths_between (from_label : string) (from_props : Props)
    (to_label : string) (to_props : Props) (max_hops : Z) : M (list Row) :=
  let from_prop_string := prop_pattern "from_" from_props in
  let to_prop_string := prop_pattern "to_" to_props in
  let params : Props := ∅ in
  let params := prefixed "from_" from_props ∪ params in
  let params := prefixed "to_" to_props ∪ params in
  session_run
    (CypherPaths from_label from_prop_string to_label to_prop_string max_hops)
    params.

End GraphDb.

(** ** hashlib.md5

    The MD5 digest of RFC 1321 on 32-bit words held as [Z]: additions wrap
    around (modulo 2^32), rotations are to the left. *)

Module MD5.

Definition mask32 (x : Z) : Z := Z.land x 0xffffffff.
Definition add32 (x y : Z) : Z := mask32 (x + y).
Definition not32 (x : Z) : Z := Z.lxor x 0xffffffff.
Definition rotl32 (x n : Z) : Z :=
  mask32 (Z.lor (Z.shiftl x n) (Z.shiftr x (32 - n))).

(** Per-round shift amounts. *)
Definition SHIFTS : list Z :=
  [7; 12; 17; 22; 7; 12; 17; 22; 7; 12; 17; 22; 7; 12; 17; 22;
   5; 9; 14; 20; 5; 9; 14; 20; 5; 9; 14; 20; 5; 9; 14; 20;
   4; 11; 16; 23; 4; 11; 16; 23; 4; 11; 16; 23; 4; 11; 16; 23;
   6; 10; 15; 21; 6; 10; 15; 21; 6; 10; 15; 21; 6; 10; 15; 21].

(** [floor(2^32 * abs(sin(i + 1)))] for [i] from 0 to 63. *)
Definition SINES : list Z :=
  [0xd76aa478; 0xe8c7b756; 0x242070db; 0xc1bdceee; 0xf57c0faf; 0x4787c62a;
   0xa8304613; 0xfd469501; 0x698098d8; 0x8b44f7af; 0xffff5bb1; 0x895cd7be;
   0x6b901122; 0xfd987193; 0xa679438e; 0x49b40821; 0xf61e2562; 0xc040b340;
   0x265e5a51; 0xe9b6c7aa; 0xd62f105d; 0x02441453; 0xd8a1e681; 0xe7d3fbc8;
   0x21e1cde6; 0xc33707d6; 0xf4d50d87; 0x455a14ed; 0xa9e3e905; 0xfcefa3f8;
   0x676f02d9; 0x8d2a4c8a; 0xfffa3942; 0x8771f681; 0x6d9d6122; 0xfde5380c;
   0xa4beea44; 0x4bdecfa9; 0xf6bb4b60; 0xbebfbc70; 0x289b7ec6; 0xeaa127fa;
   0xd4ef3085; 0x04881d05; 0xd9d4d039; 0xe6db99e5; 0x1fa27cf8; 0xc4ac5665;
   0xf4292244; 0x432aff97; 0xab9423a7; 0xfc93a039; 0x655b59c3; 0x8f0ccc92;
   0xffeff47d; 0x85845dd1; 0x6fa87e4f; 0xfe2ce6e0; 0xa3014314; 0x4e0811a1;
   0xf7537e82; 0xbd3af235; 0x2ad7d2bb; 0xeb86d391].

(** The four words of the digest state. *)
Record State := mkState { st_a : Z; st_b : Z; st_c : Z; st_d : Z }.

Definition INIT : State := mkState 0x67452301 0xefcdab89 0x98badcfe 0x10325476.

(** Operation [i] of a block whose sixteen words are [block]. *)
Definition step (block : list Z) (st : State) (i : nat) : State :=
  let '(mkState a b c d) := st in
  let '(f, g) :=
    if (i <? 16)%nat then (Z.lor (Z.land b c) (Z.land (not32 b) d), i)
    else if (i <? 32)%nat
    then (Z.lor (Z.land d b) (Z.land (not32 d) c), ((5 * i + 1) mod 16)%nat)
    else if (i <? 48)%nat
    then (Z.lxor b (Z.lxor c d), ((3 * i + 5) mod 16)%nat)
    else (Z.lxor c (Z.lor b (not32 d)), ((7 * i) mod 16)%nat) in
  let f := add32 (add32 (add32 f a) (nth i SINES 0)) (nth g block 0) in
  mkState d (add32 b (rotl32 f (nth i SHIFTS 0))) b c.

Definition process_block (st : State) (block : list Z) : State :=
  let r := foldl (step block) st (seq 0 64) in
  mkState (add32 (st_a st) (st_a r)) (add32 (st_b st) (st_b r))
          (add32 (st_c st) (st_c r)) (add32 (st_d st) (st_d r)).

(** Little-endian bytes of a word, and back. *)
Definition word_bytes (n : nat) (x : Z) : list Z :=
  (λ i, Z.land (Z.shiftr x (8 * Z.of_nat i)) 0xff) <$> seq 0 n.

Fixpoint words (bytes : list Z) : list Z :=
  match bytes with
  | b0 :: b1 :: b2 :: b3 :: rest =>
      (b0 + 256 * b1 + 65536 * b2 + 16777216 * b3) :: words rest
  | _ => []
  end.

(** The message followed by the bit 1, zeros up to 56 modulo 64 bytes, and
    its length in bits on 64 bits. *)
Definition pad (bytes : list Z) : list Z :=
  let n := Z.of_nat (length bytes) in
  bytes ++ [0x80] ++ replicate (Z.to_nat ((55 - n) mod 64)) 0 ++ word_bytes 8 (8 * n).

(** Blocks of sixteen words; [fuel] bounds their number. *)
Fixpoint blocks (fuel : nat) (ws : list Z) : list (list Z) :=
  match fuel, ws with
  | S fuel', _ :: _ => take 16 ws :: blocks fuel' (drop 16 ws)
  | _, _ => []
  end.

Definition hex_digit (x : Z) : ascii :=
  if x <? 10 then ascii_of_N (Z.to_N (48 + x)) else ascii_of_N (Z.to_N (87 + x)).

Definition hex_byte (x : Z) : string :=
  String (hex_digit (x / 16)) (String (hex_digit (x mod 16)) EmptyString).

Definition digest (bytes : list Z) : State :=
  let ws := words (pad bytes) in
  foldl process_block INIT (blocks (length ws) ws).

(** [hashlib.md5(data).hexdigest()] *)
Definition hexdigest (data : list ascii) : string :=
  let st := digest ((λ c, Z.of_N (N_of_ascii c)) <$> data) in
  String.concat EmptyString
    (hex_byte <$> flat_map (word_bytes 4) [st_a st; st_b st; st_c st; st_d st]).

End MD5.

(** ** src/ingestion/pipeline.py *)

Record IngestionResult := mkIngestionResult {
  success : bool;
  nodes_created : nat;
  relationships_created : nat;
  documents_added : nat;
  errors : list string
}.

(** [text.encode()]: UTF-8, for code points below 256. *)
Definition utf8_encode (text : string) : list ascii :=
  flat_map
    (λ c, let n := N_of_ascii c in
          if (n <? 128)%N then [c]
          else [ascii_of_N (192 + n / 64); ascii_of_N (128 + n mod 64)])
    (list_ascii_of_string text).

(** The value of [rel_props=triple.properties or None] as
    [merge_relationship] uses it: a falsy value is [None], a dict its
    entries; any other value has no [keys]. *)
Definition rel_props_of (v : PyVal) : Outcome (option Props) :=
  if negb (py_truthy v) then Return None
  else match v with
       | PyDict entries => Return (Some (list_to_map entries))
       | _ => Raise (no_attribute v "keys")
       end.

(** Truth value of an optional string. *)
Definition opt_str_truthy (s : option string) : bool :=
  match s with
  | Some x => str_truthy x
  | None => false
  end.

Section Pipeline.
Context (env : Env).
(** [self._extractor._normalize] *)
Context (normalize : bool).
(** whether a graph manager was given to the pipeline ([self._graph_manager]
    is not [None]) *)
Context (injected : bool).
(** [self._collection_name] *)
Context (collection_name : string).

Definition _generate_doc_id (text : string) : string :=
  let text_hash := py_take 12 (MD5.hexdigest (utf8_encode text)) in
  "doc_" +:+ text_hash.

Definition _create_node (label name : PyVal) : M bool :=
  try_except
    (_ ← merge_node env (py_str env label) {[ "name" := name ]} None None;
     mret true)
    (λ e,
       _ ← log ERROR ("Failed to create node " +:+ py_str env label +:+ ":"
                      +:+ py_str env name +:+ ": " +:+ exn_str e);
       mret false).

Definition _create_relationship (triple : Triple) : M bool :=
  try_except
    (rel_props ← lift (rel_props_of (properties triple));
     _ ← merge_relationship env
           (py_str env (subject_type triple)) {[ "name" := subject triple ]}
           (py_str env (object_type triple)) {[ "name" := object triple ]}
           (py_str env (predicate triple))
           rel_props;
     mret true)
    (λ e,
       _ ← log ERROR ("Failed to create relationship "
                      +:+ py_str env (predicate triple) +:+ ": " +:+ exn_str e);
       mret false).

Definition count_if (b : bool) (n : nat) : nat := if b then S n else n.

(** The loop [for triple in extraction.triples] of [ingest_text]. *)
Fixpoint merge_triples (triples : list Triple) (result : IngestionResult)
  : M IngestionResult :=
  match triples with
  | [] => mret result
  | triple :: rest =>
      ok_subject ← _create_node (subject_type triple) (subject triple);
      ok_object ← _create_node (object_type triple) (object triple);
      ok_rel ← _create_relationship triple;
      merge_triples rest
        (mkIngestionResult (success result)
           (count_if ok_object (count_if ok_subject (nodes_created result)))
           (count_if ok_rel (relationships_created result))
           (documents_added result) (errors result))
  end.

(** Step 1 of [ingest_text], after the extraction: its error goes to the
    errors of the result. *)
Definition report_extraction_error (extraction : ExtractionResult)
    (result : IngestionResult) : M IngestionResult :=
  if opt_str_truthy (error extraction)
  then
    _ ← log WARNING ("Extraction error: " +:+ default EmptyString (error extraction));
    mret (mkIngestionResult (success result) (nodes_created result)
            (relationships_created result) (documents_added result)
            (errors result ++ [default EmptyString (error extraction)]))
  else mret result.

(** Step 2 of [ingest_text]: add to the graph database.  The statements
    inside the [with] block catch their own exceptions, so the block raises
    only when it is left (the driver of a manager made here is closed); the
    counters then hold what the loop counted. *)
Definition add_to_graph (extraction : ExtractionResult) (result : IngestionResult)
  : M IngestionResult :=
  match triples extraction with
  | [] => mret result
  | _ =>
      _ ← (if injected then mret () else check_fault (graph_connect_fault env));
      result ← merge_triples (triples extraction) result;
      try_except
        (_ ← (if injected then mret () else check_fault (graph_close_fault env));
         mret result)
        (λ e,
           _ ← log ERROR ("Graph database error: " +:+ exn_str e);
           mret (mkIngestionResult false (nodes_created result)
                   (relationships_created result) (documents_added result)
                   (errors result ++ ["Graph database error: " +:+ exn_str e])))
  end.

(** Step 3 of [ingest_text]: add to the vector database. *)
Definition add_to_vector (text : string) (metadata : Props) (result : IngestionResult)
  : M IngestionResult :=
  try_except
    (let doc_id := _generate_doc_id text in
     _ ← add_documents env collection_name [text] [doc_id]
           (Some [ <["source" := PyStr "ingestion"]> metadata ]);
     mret (mkIngestionResult (success result) (nodes_created result)
             (relationships_created result) 1 (errors result)))
    (λ e,
       _ ← log ERROR ("Vector database error: " +:+ exn_str e);
       mret (mkIngestionResult (success result) (nodes_created result)
               (relationships_created result) (documents_added result)
               (errors result ++ ["Vector database error: " +:+ exn_str e]))).

Definition ingest_text (text : string) (metadata : option Props) : M IngestionResult :=
  let result := mkIngestionResult true 0 0 0 [] in
  let metadata : Props := default ∅ metadata in
  extraction ← extract env normalize text;
  result ← report_extraction_error extraction result;
  result ← add_to_graph extraction result;
  add_to_vector text metadata result.

(** [asyncio.gather] with [return_exceptions=True]: the tasks of a batch
    have no suspension point and run one after the other; an exception a
    task raises is its result. *)
Fixpoint gather {A} (tasks : list (M A)) : M (list (A + Exn)) :=
  match tasks with
  | [] => mret []
  | task :: rest =>
      r ← (λ w, match task w with
                | (Return a, w') => (Return (inl a), w')
                | (Raise e, w') => (Return (inr e), w')
                end);
      rs ← gather rest;
      mret (r :: rs)
  end.

(** The loop [for batch_result in batch_results] of [ingest_file]. *)
Definition aggregate (result : IngestionResult) (batch_result : IngestionResult + Exn)
  : IngestionResult :=
  match batch_result with
  | inr e =>
      mkIngestionResult (success result) (nodes_created result)
        (relationships_created result) (documents_added result)
        (errors result ++ [exn_str e])
  | inl r =>
      mkIngestionResult (success result)
        (nodes_created result + nodes_created r)
        (relationships_created result + relationships_created r)
        (documents_added result + documents_added r)
        (errors result ++ errors r)
  end.

(** The loop [for i in range(0, len(lines), batch_size)] of [ingest_file],
    from offset [i]; [fuel] bounds the number of batches. *)
Fixpoint ingest_batches (fuel : nat) (file_path : string) (batch_size : nat) (i : nat)
    (lines : list string) (result : IngestionResult) : M IngestionResult :=
  match fuel, lines with
  | S fuel', _ :: _ =>
      let batch := take batch_size lines in
      let tasks :=
        imap (λ j line,
                ingest_text line
                  (Some {[ "file" := PyStr file_path;
                           "line_number" := PyInt (Z.of_nat (i + j + 1)) ]}))
             batch in
      batch_results ← gather tasks;
      ingest_batches fuel' file_path batch_size (i + batch_size)
        (drop batch_size lines) (foldl aggregate result batch_results)
  | _, _ => mret result
  end.

Definition ingest_file (file_path : string) (batch_size : Z) : M IngestionResult :=
  let result := mkIngestionResult true 0 0 0 [] in
  match read_lines env file_path with
  | Raise e =>
      mret (mkIngestionResult false 0 0 0 ["Failed to read file: " +:+ exn_str e])
  | Return lines =>
      let lines := py_strip <$> filter (λ line, str_truthy (py_strip line)) lines in
      _ ← log INFO ("Ingesting " +:+ pretty (length lines) +:+ " documents from " +:+ file_path);
      result ←
        (if batch_size =? 0
         then raise (mkExn ValueError "range() arg 3 must not be zero")
         else if batch_size <? 0 then mret result
         else ingest_batches (length lines) file_path (Z.to_nat batch_size) 0 lines result);
      _ ← log INFO ("Ingestion complete: " +:+ pretty (nodes_created result) +:+ " nodes, "
                    +:+ pretty (relationships_created result) +:+ " relationships, "
                    +:+ pretty (documents_added result) +:+ " documents");
      mret result
  end.

End Pipeline.

(** ** The hybrid retriever and the retrieval step of src/app/main.py *)

(** A path of the graph as the retriever hands it on: node names and the
    relationship labels between them. *)
Record GraphPath := mkGraphPath {
  gp_nodes : list string;
  gp_relationships : list string
}.

(** Hop count of a path. *)
Definition gp_length (p : GraphPath) : nat := length (gp_relationships p).

(** The canonical rendering [A -[REL]-> B -[REL2]-> C]. *)
Fixpoint render_steps (rels nodes : list string) : string :=
  match rels, nodes with
  | r :: rels', n :: nodes' => " -[" +:+ r +:+ "]-> " +:+ n +:+ render_steps rels' nodes'
  | _, _ => EmptyString
  end.

Definition gp_to_string (p : GraphPath) : string :=
  match gp_nodes p with
  | [] => EmptyString
  | n :: rest => n +:+ render_steps (gp_relationships p) rest
  end.

Record RetrievalResult := mkRetrievalResult {
  rr_query : string;
  rr_entities : list string;
  vector_chunks : list string;
  graph_paths : list GraphPath;
  graph_context : string
}.

(** [ordered by ascending path length] *)
Fixpoint insert_path (p : GraphPath) (sorted : list GraphPath) : list GraphPath :=
  match sorted with
  | [] => [p]
  | x :: rest =>
      if (gp_length p <? gp_length x)%nat then p :: sorted
      else x :: insert_path p rest
  end.

(** The pairs of distinct entities of a list, in order. *)
Fixpoint entity_pairs (entities : list string) : list (string * string) :=
  match entities with
  | [] => []
  | e :: rest => ((λ e', (e, e')) <$> rest) ++ entity_pairs rest
  end.

(** Running the computations of a list in order and collecting what they
    return. *)
Fixpoint sequence {A} (ms : list (M A)) : M (list A) :=
  match ms with
  | [] => mret []
  | m :: rest =>
      a ← m;
      others ← sequence rest;
      mret (a :: others)
  end.

Section Retriever.
Context (env : Env).
Context (collection_name : string).
(** The mention detector of step 1, the graph label an entity is looked up
    under, and the path a store record is turned into: the specification
    leaves the three open. *)
Context (detect_mentions : string → list string).
Context (entity_label : string → string).
Context (path_of_row : Row → GraphPath).

(** Modelled from the spec: step 1 of [HybridRetriever.retrieve]
    (src/retriever/hybrid.py is not among the sources): the candidate
    entities of a query, normalised and without duplicates. *)
Definition query_entities (query : string) : list string :=
  remove_dups (normalize_entity_name <$> detect_mentions query).

(** Modelled from the spec: step 2 of [HybridRetriever.retrieve]
    (src/retriever/hybrid.py is not among the sources): paths of at most 3
    hops between each pair of distinct entities, the neighbours within 2
    hops of a single entity when there is no pair, ordered by ascending
    path length. *)
Definition traverse (entities : list string) : M (list GraphPath) :=
  rows ←
    (match entities with
     | [] => mret []
     | [e] => find_neighbors env (entity_label e) {[ "name" := PyStr e ]} 2
     | _ =>
         found ←
           sequence
             ((λ ab : string * string,
                 get_paths_between env
                   (entity_label ab.1) {[ "name" := PyStr ab.1 ]}
                   (entity_label ab.2) {[ "name" := PyStr ab.2 ]} 3)
              <$> entity_pairs entities);
         mret (concat found)
     end);
  mret (foldr insert_path [] (path_of_row <$> rows)).

(** Modelled from the spec: [HybridRetriever.retrieve]
    (src/retriever/hybrid.py is not among the sources), section 4.5: the
    entities of the query; when the graph is included, the traversal, whose
    failure is reported by a warning and leaves the graph part empty; the 5
    chunks of the vector store nearest to the query; the graph context
    rendered from the paths. *)
Definition retrieve (query : string) (include_graph : bool) : M RetrievalResult :=
  let entities := query_entities query in
  paths ←
    (if include_graph
     then try_except (traverse entities)
            (λ e,
               _ ← log WARNING
                     ("Graph traversal failed, falling back to vector-only results: "
                      +:+ exn_str e);
               mret [])
     else mret []);
  hits ← query_similar env collection_name query 5 None;
  let chunks := (λ hit, default EmptyString (sd_document hit)) <$> hits in
  let context := String.concat nl (gp_to_string <$> paths) in
  mret (mkRetrievalResult query entities chunks paths context).

(** The retrieval step of [main] (src/app/main.py): [st.warning] is
    recorded as a warning event. *)
Definition main_retrieve (prompt : string) (use_graph : bool) : M RetrievalResult :=
  try_except (retrieve prompt use_graph)
    (λ e,
       _ ← log WARNING ("Graph retrieval failed, using vector-only: " +:+ exn_str e);
       retrieve prompt false).

End Retriever.

(** The delimiter tags of the structured answer. *)
Definition DELIMITER_TAGS : list string :=
  [ "<entities>"; "</entities>"; "<reasoning>"; "</reasoning>"; "<answer>"; "</answer>" ].

(** [sub in s] *)
Definition occurs (sub s : string) : Prop :=
  ∃ before after, s = before +:+ sub +:+ after.

(** What the embedding function is to give for one text, in the words of
    the claim about it: the embedding the service returns, and the zero
    vector when getting it fails.  [OllamaEmbeddings_call] is compared with
    it. *)
Definition embedding_or_zero (env : Env) (model text : string) : PyVal :=
  match ollama_client_fault env with
  | Some _ => zero_vector
  | None =>
      match ollama_embeddings env model text with
      | Return response =>
          match py_getitem response "embedding" with
          | Return embedding => embedding
          | Raise _ => zero_vector
          end
      | Raise _ => zero_vector
      end
  end.

(** Whether the loop of [_parse_response] keeps an item, read off the item
    itself: its subject and its object are there and not empty. *)
Definition item_kept (item : PyVal) : bool :=
  match py_get item "subject" (PyStr EmptyString),
        py_get item "object" (PyStr EmptyString) with
  | Return s, Return o => py_truthy s && py_truthy o
  | _, _ => false
  end.

(** ** Services for the examples *)

(** [str(v)] on the values that occur in the examples: strings, [None],
    booleans and integers.  (The text of a float, a list or a dict is not
    needed there; the name of the type stands for it.) *)
Definition str_of_scalar (v : PyVal) : string :=
  match v with
  | PyStr s => s
  | PyNone => "None"
  | PyBool true => "True"
  | PyBool false => "False"
  | PyInt z => pretty z
  | _ => py_type_name v
  end.

(** Services that answer every request: the generation service and the
    JSON decoder are given, the stores have no fault, and there is no file. *)
Definition services (llm : string → Outcome string) (loads : string → Outcome PyVal)
  : Env :=
  {| llm_invoke := llm;
     json_loads := loads;
     py_str := str_of_scalar;
     graph_connect_fault := None;
     graph_close_fault := None;
     graph_fault := λ _ _, None;
     vector_add_fault := λ _ _ _ _, None;
     vector_add_existing_raises := false;
     vector_query := λ _ _ _ _, Return (mkQueryResult [[]] None None None);
     read_lines := λ _, Raise (mkExn OtherException "No such file or directory");
     ollama_client_fault := None;
     ollama_embeddings := λ _ _, Return (PyDict [("embedding", PyList [])]) |}.

(** A JSON decoder that knows one text. *)
Definition loads_only (text : string) (value : PyVal) (s : string) : Outcome PyVal :=
  if String.eqb s text then Return value
  else Raise (mkExn JSONDecodeError "Expecting value: line 1 column 1 (char 0)").

Definition empty_world : World := mkWorld (mkGraph [] []) ∅ ∅ [].

(** A JSON string literal (for text without quotes or escapes). *)
Definition js (s : string) : string := dq +:+ s +:+ dq.

(** An item whose fields are strings where [_parse_response] calls string
    methods: a dict whose subject, predicate and object, when present, are
    strings. *)
Definition str_field (item : PyVal) (key : string) : Prop :=
  match item with
  | PyDict entries =>
      match assoc_get key entries with
      | Some (PyStr _) | None => True
      | _ => False
      end
  | _ => False
  end.

Definition str_item (item : PyVal) : Prop :=
  str_field item "subject" ∧ str_field item "predicate" ∧ str_field item "object".

(** What [extract] is to give when the call of the service or the parsing
    of its answer raised [e]: no triple, and an error text, which is the
    text of the exception itself for a [ValueError] and is not empty
    otherwise. *)
Definition extraction_failed (result : ExtractionResult) (e : Exn) : Prop :=
  triples result = []
  ∧ ∃ msg, error result = Some msg
           ∧ (exn_class e = ValueError → msg = exn_str e)
           ∧ (exn_class e ≠ ValueError ∨ exn_str e ≠ EmptyString → msg ≠ EmptyString).

(** What [extract] is to give for a text: the triples parsed from the
    answer of the service, or the failure. *)
Definition extraction_outcome (env : Env) (normalize : bool) (text : string)
    (result : ExtractionResult) : Prop :=
  source_text result = text
  ∧ match llm_invoke env (_build_prompt text) with
    | Raise e => extraction_failed result e
    | Return response =>
        match _parse_response env normalize response with
        | Return ts => triples result = ts ∧ error result = None
        | Raise e => extraction_failed result e
        end
    end.

(** The answers used in the examples. *)
Definition json_blank_subject : string :=
  "{" +:+ js "triples" +:+ ": [{" +:+ js "subject" +:+ ": " +:+ js " " +:+ ", "
  +:+ js "object" +:+ ": " +:+ js "FlowChips" +:+ "}]}".

Definition data_blank_subject : PyVal :=
  PyDict [("triples",
           PyList [PyDict [("subject", PyStr " "); ("object", PyStr "FlowChips")]])].

Definition json_two_items : string :=
  "{" +:+ js "triples" +:+ ": [{"
  +:+ js "subject" +:+ ": " +:+ js "TechFlow Inc." +:+ ", "
  +:+ js "subject_type" +:+ ": " +:+ js "Company" +:+ ", "
  +:+ js "predicate" +:+ ": " +:+ js "manufactures" +:+ ", "
  +:+ js "object" +:+ ": " +:+ js "FlowChips" +:+ ", "
  +:+ js "object_type" +:+ ": " +:+ js "Product" +:+ "}, {"
  +:+ js "subject" +:+ ": " +:+ js "TechFlow Inc." +:+ ", "
  +:+ js "object" +:+ ": " +:+ js EmptyString +:+ "}]}".

Definition data_two_items : PyVal :=
  PyDict [("triples",
           PyList [PyDict [("subject", PyStr "TechFlow Inc.");
                           ("subject_type", PyStr "Company");
                           ("predicate", PyStr "manufactures");
                           ("object", PyStr "FlowChips");
                           ("object_type", PyStr "Product")];
                   PyDict [("subject", PyStr "TechFlow Inc.");
                           ("object", PyStr EmptyString)]])].

Ltac outcome_simpl :=
  unfold mbind, mret, Outcome_bind, Outcome_ret in *; simpl in *.


(** ** Measures on the stores *)

(** The key of a relationship: source node, type, target node. *)
Definition edge_key (e : Edge) : nat * string * nat := (e_src e, e_type e, e_dst e).

Definition edge_keys (g : Graph) : list (nat * string * nat) := edge_key <$> g_edges g.

Definition node_count (w : World) : nat := length (g_nodes (w_graph w)).
Definition edge_count (w : World) : nat := length (g_edges (w_graph w)).

(** Number of documents of a collection of the vector store. *)
Definition doc_count (collection_name : string) (w : World) : nat :=
  size (default ∅ (w_vector w !! collection_name)).

(** The statement and the parameters [merge_relationship] sends. *)
Definition rel_query (from_label : string) (from_props : Props)
    (to_label : string) (to_props : Props) (rel_type : string)
    (rel_props : option Props) : Query :=
  CypherMergeRel from_label (prop_pattern "from_" from_props)
    to_label (prop_pattern "to_" to_props) rel_type
    (if dict_truthy rel_props then prop_pattern "rel_" (default ∅ rel_props) else []).

Definition rel_params (from_props to_props : Props) (rel_props : option Props) : Props :=
  let params := prefixed "to_" to_props ∪ (prefixed "from_" from_props ∪ ∅) in
  if dict_truthy rel_props then prefixed "rel_" (default ∅ rel_props) ∪ params else params.

(** A relationship pattern is saturated in a graph: both node patterns
    match, and every node the first matches has a relationship of the type
    to every node the second matches. *)
Definition rel_saturated (from_label : string) (from_props : Props)
    (to_label : string) (to_props : Props) (t : string) (g : Graph) : Prop :=
  matching from_label from_props g ≠ []
  ∧ matching to_label to_props g ≠ []
  ∧ ∀ a b, a ∈ matching from_label from_props g → b ∈ matching to_label to_props g →
           (a, t, b) ∈ edge_keys g.

(** The statement and the parameters [merge_node] sends when it is given
    neither [on_create] nor [on_match]. *)
Definition node_query (label : string) (properties : Props) : Query :=
  CypherMergeNode label (prop_pattern EmptyString properties) [] [].

(** Services for the examples on the stores: no generation service is
    called. *)
Definition store_services : Env :=
  services (λ _, Raise (mkExn OtherException "no generation service"))
           (loads_only EmptyString PyNone).

(** [{"name": name}] *)
Definition named (name : string) : Props := {[ "name" := PyStr name ]}.

(** The graph of a world as lists of (label, name) and of keys. *)
Definition graph_summary (w : World) : list (string * option PyVal) * list (nat * string * nat) :=
  ((λ n, (n_label n, n_props n !! "name")) <$> g_nodes (w_graph w), edge_keys (w_graph w)).

(** The statement [get_paths_between] sends; its parameters are those of
    [merge_relationship] without relationship properties. *)
Definition paths_query (from_label : string) (from_props : Props)
    (to_label : string) (to_props : Props) (max_hops : Z) : Query :=
  CypherPaths from_label (prop_pattern "from_" from_props)
    to_label (prop_pattern "to_" to_props) max_hops.

(** Non-decreasing hop count. *)
Definition by_hops (r1 r2 : Row) : Prop := (row_length r1 ≤ row_length r2)%nat.

(** The world after a list of computations, run in order from [w]. *)
Definition run_all {A} (ms : list (M A)) (w : World) : World :=
  foldl (λ w m, (m w).2) w ms.

(** Two companies joined by twelve relationships of different types. *)
Definition twelve_links : World :=
  run_all
    ((λ t, merge_relationship store_services "Company" (named "techflow")
             "Company" (named "globaltech") t None)
     <$> ["R01"; "R02"; "R03"; "R04"; "R05"; "R06"; "R07"; "R08"; "R09"; "R10";
          "R11"; "R12"])
    empty_world.

(** The graph of the ingestion scenario of the specification. *)
Definition techflow_world : World :=
  run_all
    [ merge_relationship store_services "Company" (named "techflow")
        "Product" (named "flowchips") "MANUFACTURES" None;
      merge_relationship store_services "Company" (named "techflow")
        "Location" (named "singapore") "OPERATES_AT" None ]
    empty_world.

(** ** What one ingestion does to the graph *)

(** [{"name": v}] for whatever value the field of a triple holds. *)
Definition name_props (v : PyVal) : Props := {[ "name" := v ]}.

(** The merges of the ingestion loop that the server runs. *)
Inductive GraphOp :=
| OpNode (label : string) (name : PyVal)
| OpRel (from_label : string) (from_name : PyVal) (to_label : string) (to_name : PyVal)
    (rel_type : string) (set : Props).

Definition op_effect (g : Graph) (op : GraphOp) : Graph :=
  match op with
  | OpNode label name => (merge_node_sem label (name_props name) ∅ ∅ g).1
  | OpRel fl fn tl tn t set =>
      (merge_rel_sem fl (name_props fn) tl (name_props tn) t set g).1
  end.

(** Whether the server runs the statement of [_create_node]. *)
Definition node_served (env : Env) (label name : PyVal) : bool :=
  bool_decide (graph_fault env (node_query (py_str env label) (name_props name))
                           (name_props name) = None).

(** Whether [_create_relationship] gets to its statement and the server
    runs it; the relationship properties it sends. *)
Definition rel_served (env : Env) (t : Triple) : option Props :=
  match rel_props_of (properties t) with
  | Return rp =>
      if bool_decide
           (graph_fault env
              (rel_query (py_str env (subject_type t)) (name_props (subject t))
                         (py_str env (object_type t)) (name_props (object t))
                         (py_str env (predicate t)) rp)
              (rel_params (name_props (subject t)) (name_props (object t)) rp) = None)
      then Some (default ∅ rp)
      else None
  | Raise _ => None
  end.

(** The merges one triple leads to, in order. *)
Definition triple_ops (env : Env) (t : Triple) : list GraphOp :=
  (if node_served env (subject_type t) (subject t)
   then [OpNode (py_str env (subject_type t)) (subject t)] else [])
  ++ (if node_served env (object_type t) (object t)
      then [OpNode (py_str env (object_type t)) (object t)] else [])
  ++ (match rel_served env t with
      | Some set =>
          [OpRel (py_str env (subject_type t)) (subject t)
                 (py_str env (object_type t)) (object t)
                 (py_str env (predicate t)) set]
      | None => []
      end).

(** What the pattern of a merge needs to find for the merge to add
    nothing. *)
Definition op_saturated (g : Graph) (op : GraphOp) : Prop :=
  match op with
  | OpNode label name => matching label (name_props name) g ≠ []
  | OpRel fl fn tl tn t _ => rel_saturated fl (name_props fn) tl (name_props tn) t g
  end.

(** The counters of the loop of [ingest_text] after a list of triples. *)
Definition count_nodes (env : Env) (ts : list Triple) : nat :=
  sum_list ((λ t, (if node_served env (subject_type t) (subject t) then 1 else 0)
                  + (if node_served env (object_type t) (object t) then 1 else 0))%nat
            <$> ts).

Definition count_rels (env : Env) (ts : list Triple) : nat :=
  sum_list ((λ t, match rel_served env t with Some _ => 1%nat | None => 0%nat end) <$> ts).

(** The store after [get_or_create_collection]. *)
Definition ensure_collection (name : string) (v : gmap string Collection)
  : gmap string Collection :=
  match v !! name with
  | Some _ => v
  | None => <[name := ∅]> v
  end.

(** The collection after [add] of one record that the store accepts. *)
Definition add_one (id text : string) (meta : Props) (coll : Collection) : Collection :=
  match coll !! id with
  | Some _ => coll
  | None => <[id := mkVDoc text (Some meta)]> coll
  end.

(** ** What [ingest_text] reports *)

(** The exception of [GraphDatabaseManager()] that stops an ingestion: there
    are triples and the pipeline was given no manager. *)
Definition connect_blocked (env : Env) (injected : bool) (ts : list Triple) : option Exn :=
  match ts with
  | [] => None
  | _ => if injected then None else graph_connect_fault env
  end.

(** The exception raised on leaving the [with] block. *)
Definition close_failure (env : Env) (injected : bool) (ts : list Triple) : option Exn :=
  match ts with
  | [] => None
  | _ => if injected then None else graph_close_fault env
  end.

Definition extraction_errors (x : ExtractionResult) : list string :=
  if opt_str_truthy (error x) then [default EmptyString (error x)] else [].

Definition close_errors (f : option Exn) : list string :=
  match f with
  | Some e => ["Graph database error: " +:+ exn_str e]
  | None => []
  end.

Definition vector_errors (o : Outcome ()) : list string :=
  match o with
  | Raise e => ["Vector database error: " +:+ exn_str e]
  | Return _ => []
  end.

(** The metadata stored with a document. *)
Definition stored_metadata (metadata : option Props) : Props :=
  <["source" := PyStr "ingestion"]> (default ∅ metadata).

(** What the vector store answers to the [add_documents] of step 3 of
    [ingest_text] run from [w]: the steps before it leave the vector store
    and the cache of collections as they are in [w]. *)
Definition vector_outcome (env : Env) (cname text : string) (metadata : option Props)
    (w : World) : Outcome () :=
  (add_documents env cname [text] [_generate_doc_id text]
     (Some [stored_metadata metadata]) w).1.

(** The result of [ingest_text] for an extraction, given what the vector
    store answered. *)
Definition ingestion_report (env : Env) (injected : bool) (x : ExtractionResult)
    (o : Outcome ()) : IngestionResult :=
  mkIngestionResult
    (match close_failure env injected (triples x) with Some _ => false | None => true end)
    (count_nodes env (triples x))
    (count_rels env (triples x))
    (match o with Return _ => 1%nat | Raise _ => 0%nat end)
    (extraction_errors x ++ close_errors (close_failure env injected (triples x))
     ++ vector_errors o).

(** ** The graph dependency is unreachable *)

(** Every statement sent to the graph store is answered with a fault. *)
Definition graph_unreachable (env : Env) : Prop :=
  ∀ q params, is_Some (graph_fault env q params).

(** Services whose graph store is down and whose vector store answers
    every query with the given result. *)
Definition graph_down (answer : QueryResult) : Env :=
  {| llm_invoke := λ _, Raise (mkExn OtherException "no generation service");
     json_loads := loads_only EmptyString PyNone;
     py_str := str_of_scalar;
     graph_connect_fault := None;
     graph_close_fault := None;
     graph_fault := λ _ _, Some (mkExn ServiceUnavailable "Unable to retrieve routing information");
     vector_add_fault := λ _ _ _ _, None;
     vector_add_existing_raises := false;
     vector_query := λ _ _ _ _, Return answer;
     read_lines := λ _, Raise (mkExn OtherException "No such file or directory");
     ollama_client_fault := None;
     ollama_embeddings := λ _ _, Return (PyDict [("embedding", PyList [])]) |}.

(** Services whose graph store is down, with the generation service and
    the JSON decoder given. *)
Definition graph_down_services (llm : string → Outcome string)
    (loads : string → Outcome PyVal) : Env :=
  {| llm_invoke := llm;
     json_loads := loads;
     py_str := str_of_scalar;
     graph_connect_fault := None;
     graph_close_fault := None;
     graph_fault := λ _ _, Some (mkExn ServiceUnavailable "Unable to retrieve routing information");
     vector_add_fault := λ _ _ _ _, None;
     vector_add_existing_raises := false;
     vector_query := λ _ _ _ _, Return (mkQueryResult [[]] None None None);
     read_lines := λ _, Raise (mkExn OtherException "No such file or directory");
     ollama_client_fault := None;
     ollama_embeddings := λ _ _, Return (PyDict [("embedding", PyList [])]) |}.

(** A mention detector for the examples: the words of the query that start
    with a capital letter. *)
Definition capitalised (word : string) : bool :=
  match word with
  | String c _ => negb (Ascii.eqb (lower_char c) c)
  | EmptyString => false
  end.

Definition capitalised_words (query : string) : list string :=
  List.filter capitalised (String.words query).

(** The name of a node, as the examples render it. *)
Definition node_name (n : Node) : string :=
  str_of_scalar (default PyNone (n_props n !! "name")).

Definition example_path_of_row (r : Row) : GraphPath :=
  match r with
  | RowPath nodes relationships _ => mkGraphPath (node_name <$> nodes) relationships
  | RowNeighbor n _ => mkGraphPath [node_name n] []
  | _ => mkGraphPath [] []
  end.

Definition one_hit : QueryResult :=
  mkQueryResult [["doc_1"]] (Some [["TechFlow operates in Singapore."]]) None None.

(** ** Further definitions: shapes of texts and values, fixtures *)

(** White space in normal form: every white-space character is a blank and
    no two of them are adjacent; [in_run] tells that the character before
    was white space. *)
Fixpoint single_blanks (in_run : bool) (l : list ascii) : Prop :=
  match l with
  | [] => True
  | c :: l' =>
      if is_space c then in_run = false ∧ c = " "%char ∧ single_blanks true l'
      else single_blanks false l'
  end.

(** A text that does not start with white space. *)
Definition no_lead (l : list ascii) : Prop :=
  match l with
  | c :: _ => is_space c = false
  | [] => True
  end.

(** Lower case, and white space in normal form. *)
Definition lower_single (l : list ascii) : Prop :=
  Forall (λ c, lower_char c = c) l ∧ single_blanks false l.

(** A lower-case hexadecimal digit. *)
Definition hex_char (c : ascii) : bool :=
  existsb (Ascii.eqb c) (list_ascii_of_string "0123456789abcdef").

(** [Triple.to_dict] *)
Definition to_dict (t : Triple) : PyVal :=
  PyDict [ ("subject", subject t);
           ("subject_type", subject_type t);
           ("predicate", predicate t);
           ("object", object t);
           ("object_type", object_type t);
           ("properties", properties t) ].

(** A triple with every field, and the JSON text of a response that holds
    it, for the examples. *)
Definition triple_manufactures : Triple :=
  mkTriple (PyStr "TechFlow") (PyStr "Company") (PyStr "MANUFACTURES")
           (PyStr "FlowChips") (PyStr "Product") (PyDict []).

Definition json_item_manufactures : string :=
  "{" +:+ js "subject" +:+ ": " +:+ js "TechFlow" +:+ ", "
  +:+ js "subject_type" +:+ ": " +:+ js "Company" +:+ ", "
  +:+ js "predicate" +:+ ": " +:+ js "MANUFACTURES" +:+ ", "
  +:+ js "object" +:+ ": " +:+ js "FlowChips" +:+ ", "
  +:+ js "object_type" +:+ ": " +:+ js "Product" +:+ ", "
  +:+ js "properties" +:+ ": {}}".

Definition json_manufactures : string :=
  "{" +:+ js "triples" +:+ ": [" +:+ json_item_manufactures +:+ "]}".

(** A response whose second item is a string. *)
Definition json_bad_item : string :=
  "{" +:+ js "triples" +:+ ": [" +:+ json_item_manufactures +:+ ", "
  +:+ js "TechFlow ships via Singapore" +:+ "]}".

(** A value that is not a dict. *)
Definition not_dict (v : PyVal) : Prop :=
  match v with
  | PyDict _ => False
  | _ => True
  end.

(** Services for the examples on files: every path holds the given lines,
    the generation service answers every text with the two-item response,
    and the stores have no fault. *)
Definition file_services (lines : list string) : Env :=
  {| llm_invoke := λ _, Return json_two_items;
     json_loads := loads_only json_two_items data_two_items;
     py_str := str_of_scalar;
     graph_connect_fault := None;
     graph_close_fault := None;
     graph_fault := λ _ _, None;
     vector_add_fault := λ _ _ _ _, None;
     vector_add_existing_raises := false;
     vector_query := λ _ _ _ _, Return (mkQueryResult [[]] None None None);
     read_lines := λ _, Return lines;
     ollama_client_fault := None;
     ollama_embeddings := λ _ _, Return (PyDict [("embedding", PyList [])]) |}.

(** A text without the character that starts every delimiter tag. *)
Definition no_angle (s : string) : bool :=
  forallb (λ c, negb (Ascii.eqb c "<"%char)) (list_ascii_of_string s).

(** What stands after the first occurrence of [sep], and what stands
    before it. *)
Definition text_after (sep s : string) : option string := snd <$> partition_at sep s.
Definition text_before (sep s : string) : option string := fst <$> partition_at sep s.

(** * Properties *)

(** ** The normaliser *)

Example normalize_apple : normalize_entity_name "Apple Inc." = "apple".
Proof. reflexivity. Qed.

Example normalize_microsoft :
  normalize_entity_name "Microsoft Corporation" = "microsoft".
Proof. reflexivity. Qed.

Example normalize_samsung : normalize_entity_name "Samsung Ltd" = "samsung".
Proof. reflexivity. Qed.

Example normalize_techflow : normalize_entity_name "  TechFlow  " = "techflow".
Proof. reflexivity. Qed.

Example normalize_spaces :
  normalize_entity_name "Tech   Flow   Inc" = "tech flow".
Proof. reflexivity. Qed.

Example normalize_co_ltd : normalize_entity_name "Acme Co. Ltd." = "acme".
Proof. reflexivity. Qed.

Example normalize_blank : normalize_entity_name "   " = EmptyString.
Proof. reflexivity. Qed.

(** C3.  Normalisation is not idempotent: the suffix patterns are applied
    once each, in the order of [COMPANY_SUFFIXES], so a suffix that an
    earlier pattern stands for is left in place when a later pattern
    uncovers it.  For [X Inc Corp] the first pass removes [corp] and keeps
    [inc]; a second pass removes [inc]. *)
Theorem normalize_twice_differs :
  normalize_entity_name "X Inc Corp" = "x inc"
  ∧ normalize_entity_name (normalize_entity_name "X Inc Corp") = "x"
  ∧ normalize_entity_name (normalize_entity_name "X Inc Corp")
    ≠ normalize_entity_name "X Inc Corp".
Proof. repeat split; try reflexivity. vm_compute. discriminate. Qed.

(** ** Parsing the structured answer *)

Lemma app_cons (c : ascii) (s t : string) : String c s +:+ t = String c (s +:+ t).
Proof. reflexivity. Qed.

Lemma app_nil (t : string) : EmptyString +:+ t = t.
Proof. reflexivity. Qed.

Lemma prefix_split (p s : string) :
  String.prefix p s = true → s = p +:+ str_drop (String.length p) s.
Proof.
  revert s. induction p as [|c p IH]; intros [|c' s]; simpl; try done.
  destruct (ascii_dec c c') as [->|]; [|done].
  intros H. rewrite app_cons. f_equal. by apply IH.
Qed.

Lemma prefix_app (p s : string) : String.prefix p (p +:+ s) = true.
Proof.
  induction p as [|c p IH]; [by destruct s|].
  rewrite app_cons. simpl. destruct (ascii_dec c c); done.
Qed.

Lemma partition_at_unfold (sep s : string) :
  partition_at sep s =
  if String.prefix sep s then Some (EmptyString, str_drop (String.length sep) s)
  else match s with
       | EmptyString => None
       | String c s' =>
           match partition_at sep s' with
           | Some (before, after) => Some (String c before, after)
           | None => None
           end
       end.
Proof. by destruct s. Qed.

Lemma partition_at_sound (sep s before after : string) :
  partition_at sep s = Some (before, after) → s = before +:+ sep +:+ after.
Proof.
  revert before. induction s as [|c s IH]; intros before;
    rewrite partition_at_unfold;
    (destruct (String.prefix sep _) eqn:E;
     [intros [= <- <-]; apply prefix_split in E; by rewrite app_nil|]); [done|].
  destruct (partition_at sep s) as [[b a]|] eqn:E'; [|done].
  intros [= <- <-]. rewrite app_cons. f_equal. by apply IH.
Qed.

Lemma partition_at_complete (sep s : string) :
  occurs sep s → is_Some (partition_at sep s).
Proof.
  intros (before & after & ->). induction before as [|c before IH];
    rewrite partition_at_unfold.
  - by rewrite app_nil, prefix_app.
  - rewrite app_cons. destruct (String.prefix sep _); [done|].
    by destruct IH as [[b a] ->].
Qed.

Lemma partition_at_None (sep s : string) :
  partition_at sep s = None ↔ ¬ occurs sep s.
Proof.
  split.
  - intros E Hocc. apply partition_at_complete in Hocc as [? ?]. congruence.
  - intros Hocc. destruct (partition_at sep s) as [[b a]|] eqn:E; [|done].
    destruct Hocc. exists b, a. by apply partition_at_sound.
Qed.

(** C7.  For every response a parsed answer is produced, whose raw response
    is the input; when none of the six delimiter tags occurs in the
    response, the answer is the response itself and the entities and the
    reasoning are empty. *)
Theorem parse_from_response_untagged (response : string) :
  raw_response (parse_from_response response) = response
  ∧ (Forall (λ tag, ¬ occurs tag response) DELIMITER_TAGS →
     parse_from_response response
     = mkReasoningResponse response EmptyString EmptyString response).
Proof.
  split; [done|].
  intros H. repeat (apply Forall_cons in H as [? H]).
  unfold parse_from_response, search_section, split_second.
  repeat match goal with
         | Hn : ¬ occurs ?t response |- _ =>
             apply partition_at_None in Hn; try rewrite Hn; clear Hn
         end.
  done.
Qed.

Lemma parse_from_response_untagged_witness :
  let response := "The strike will impact operations significantly." in
  Forall (λ tag, ¬ occurs tag response) DELIMITER_TAGS
  ∧ parse_from_response response
    = mkReasoningResponse response EmptyString EmptyString response.
Proof.
  intros response.
  assert (Forall (λ tag, ¬ occurs tag response) DELIMITER_TAGS) as H.
  { repeat constructor; apply partition_at_None; reflexivity. }
  split; [exact H|].
  exact (proj2 (parse_from_response_untagged response) H).
Defined.

Example parse_structured :
  let response :=
    "<entities>" +:+ nl +:+ "- Singapore" +:+ nl +:+ "</entities>" +:+ nl
    +:+ "<reasoning>" +:+ nl +:+ "The strike affects shipping." +:+ nl +:+ "</reasoning>" +:+ nl
    +:+ "<answer>" +:+ nl +:+ "GlobalTech will be impacted." +:+ nl +:+ "</answer>" in
  parse_from_response response
  = mkReasoningResponse "GlobalTech will be impacted." "- Singapore"
      "The strike affects shipping." response.
Proof. reflexivity. Qed.

Example parse_answer_after_reasoning :
  let response := "<reasoning>because</reasoning> so it is." in
  answer (parse_from_response response) = "so it is."
  ∧ reasoning (parse_from_response response) = "because".
Proof. split; reflexivity. Qed.

(** ** The embedding function *)

Lemma zero_vector_shape :
  ∃ items, zero_vector = PyList items
           ∧ length items = 768%nat ∧ Forall (λ x, x = PyFloat 0) items.
Proof.
  exists (replicate 768 (PyFloat 0)). split; [done|]. split.
  - apply length_replicate.
  - apply Forall_forall. intros x Hx. by apply elem_of_replicate in Hx as [-> _].
Qed.

Lemma embed_one_spec (env : Env) (model text : string) (w : World) :
  ∃ w', embed_one env model text w = (Return (embedding_or_zero env model text), w')
        ∧ w_graph w' = w_graph w ∧ w_vector w' = w_vector w.
Proof.
  unfold embed_one, embedding_or_zero, try_except, client, mbind, M_bind, lift.
  destruct (ollama_client_fault env) as [e|].
  - destruct (bool_decide (exn_class e = ImportError)); simpl; eauto.
  - simpl. destruct (ollama_embeddings env model text) as [response|e]; simpl; eauto.
    destruct (py_getitem response "embedding") as [v|e]; simpl; eauto.
Qed.

Lemma embed_loop_spec (env : Env) (model : string) (input : list string)
    (embeddings : list PyVal) (w : World) :
  ∃ w', embed_loop env model input embeddings w
        = (Return (embeddings ++ (embedding_or_zero env model <$> input)), w')
        ∧ w_graph w' = w_graph w ∧ w_vector w' = w_vector w.
Proof.
  revert embeddings w. induction input as [|text rest IH]; intros embeddings w.
  - exists w. by rewrite app_nil_r.
  - simpl. unfold mbind at 1, M_bind.
    destruct (embed_one_spec env model text w) as (w1 & -> & Hg & Hv).
    destruct (IH (embeddings ++ [embedding_or_zero env model text]) w1)
      as (w' & -> & Hg' & Hv').
    exists w'. rewrite <- app_assoc. simpl. split; [done|]. split; congruence.
Qed.

(** C10.  For every list of texts the embedding function returns (it does
    not raise) one vector per text, in order: the embedding the service
    gives for the text, and the 768-dimensional zero vector when creating
    the client, calling the service or reading the embedding out of its
    answer fails. *)
Theorem embeddings_total (env : Env) (model : string) (input : list string) (w : World) :
  ∃ embeddings w',
    OllamaEmbeddings_call env model input w = (Return embeddings, w')
    ∧ length embeddings = length input
    ∧ embeddings = embedding_or_zero env model <$> input
    ∧ zero_vector = PyList (replicate 768 (PyFloat 0)).
Proof.
  destruct (embed_loop_spec env model input [] w) as (w' & E & _).
  exists (embedding_or_zero env model <$> input), w'.
  split; [exact E|]. split; [apply length_fmap|]. done.
Qed.

(** ** The extractor: response parsing *)

Lemma normalized_or_raw_truthy (v v' : PyVal) :
  normalized_or_raw v = Return v' → py_truthy v' = py_truthy v.
Proof.
  unfold normalized_or_raw, normalize_entity_value. outcome_simpl.
  destruct (py_truthy v) eqn:Hv; simpl.
  - destruct v; try discriminate. intros [= <-].
    by destruct (str_truthy (normalize_entity_name s)) eqn:E.
  - by intros [= <-].
Qed.

Lemma build_triple_kept (normalize : bool) (item : PyVal) (t : Triple) :
  build_triple normalize item = Return t → triple_kept t = item_kept item.
Proof.
  unfold build_triple, item_kept, triple_kept. outcome_simpl.
  destruct item; try discriminate. simpl.
  destruct normalize.
  - destruct (normalized_or_raw _) as [s'|] eqn:Hs; [|discriminate].
    destruct (upper_snake _) as [p'|]; [|discriminate].
    destruct (normalized_or_raw (from_option id (PyStr EmptyString) (assoc_get "object" _)))
      as [o'|] eqn:Ho; [|discriminate].
    intros [= <-]. simpl.
    by rewrite (normalized_or_raw_truthy _ _ Hs), (normalized_or_raw_truthy _ _ Ho).
  - by intros [= <-].
Qed.

Lemma parse_items_spec (normalize : bool) (items : list PyVal) (acc ts : list Triple) :
  parse_items normalize items acc = Return ts →
  ∃ new, ts = acc ++ new
         ∧ Forall (λ t, triple_kept t = true) new
         ∧ length new = length (filter (λ item, item_kept item = true) items).
Proof.
  revert acc. induction items as [|item rest IH]; intros acc; simpl.
  - intros [= <-]. exists []. by rewrite app_nil_r.
  - outcome_simpl. destruct (build_triple normalize item) as [t|] eqn:Ht; [|discriminate].
    intros H. apply IH in H as (new & -> & Hnew & Hlen).
    rewrite filter_cons. rewrite <- (build_triple_kept _ _ _ Ht).
    destruct (triple_kept t) eqn:Hk.
    + exists (t :: new). rewrite <- app_assoc. split; [done|].
      rewrite decide_True by done. simpl. split; [by constructor|]. by f_equal.
    + exists new. split; [done|]. rewrite decide_False by done. done.
Qed.

Lemma build_triple_returns (normalize : bool) (item : PyVal) :
  str_item item → ∃ t, build_triple normalize item = Return t.
Proof.
  intros (Hs & Hp & Ho). destruct item; try done.
  unfold build_triple, str_field in *. outcome_simpl.
  destruct normalize; [|eauto].
  unfold normalized_or_raw, normalize_entity_value, upper_snake. outcome_simpl.
  destruct (assoc_get "subject" entries) as [[]|]; try done;
    destruct (assoc_get "predicate" entries) as [[]|]; try done;
    destruct (assoc_get "object" entries) as [[]|]; try done; simpl;
    repeat match goal with |- context [negb (str_truthy ?s)] =>
                             destruct (str_truthy s); simpl end; eauto.
Qed.

Lemma parse_items_returns (normalize : bool) (items : list PyVal) (acc : list Triple) :
  Forall str_item items → ∃ ts, parse_items normalize items acc = Return ts.
Proof.
  intros H. revert acc. induction H as [|item rest Hi _ IH]; intros acc; simpl; [eauto|].
  destruct (build_triple_returns normalize item Hi) as [t ->]. outcome_simpl. apply IH.
Qed.

(** C2, as the code has it.  When response parsing returns, the items of
    the response were read, every triple returned has a subject and an
    object that are not empty, and there are as many triples as items whose
    own subject and object are there and not empty: an item is dropped
    exactly when its subject or its object is empty or missing.  (A name
    that normalises to the empty string without being empty is kept as it
    was written, see [blank_subject_kept].)  Parsing does return when the
    items are dicts with string fields. *)
Theorem parse_response_filter (env : Env) (normalize : bool) (response : string) :
  (∀ items, response_items env response = Return items → Forall str_item items →
            ∃ ts, _parse_response env normalize response = Return ts)
  ∧ (∀ ts, _parse_response env normalize response = Return ts →
           ∃ items, response_items env response = Return items
                    ∧ Forall (λ t, py_truthy (subject t) = true
                                   ∧ py_truthy (object t) = true) ts
                    ∧ length ts = length (filter (λ item, item_kept item = true) items)).
Proof.
  unfold _parse_response. split.
  - intros items -> Hitems. outcome_simpl. by apply parse_items_returns.
  - intros ts. outcome_simpl.
    destruct (response_items env response) as [items|]; [|discriminate].
    intros H. apply parse_items_spec in H as (new & -> & Hnew & Hlen).
    exists items. split; [done|]. split; [|done].
    eapply Forall_impl; [exact Hnew|]. intros t Ht.
    by apply andb_true_iff in Ht.
Qed.

Lemma parse_response_filter_witness :
  let env := services (λ _, Return json_two_items)
                      (loads_only json_two_items data_two_items) in
  let t := mkTriple (PyStr "techflow") (PyStr "Company") (PyStr "MANUFACTURES")
                    (PyStr "flowchips") (PyStr "Product") (PyDict []) in
  _parse_response env true ("Here it is: " +:+ json_two_items +:+ " Done.") = Return [t]
  ∧ ∃ items, response_items env ("Here it is: " +:+ json_two_items +:+ " Done.")
             = Return items
             ∧ Forall (λ t, py_truthy (subject t) = true ∧ py_truthy (object t) = true) [t]
             ∧ length [t] = length (filter (λ item, item_kept item = true) items).
Proof.
  intros env t.
  assert (_parse_response env true ("Here it is: " +:+ json_two_items +:+ " Done.")
          = Return [t]) as H by (vm_compute; reflexivity).
  split; [exact H|].
  exact (proj2 (parse_response_filter env true _) [t] H).
Defined.

(** C2, as stated, fails: an item whose subject normalises to the empty
    string is not dropped when the subject itself is not empty.  The
    subject of the item is one blank; [normalize_entity_name] gives the
    empty string for it, [or] falls back to the blank, and the triple is
    returned with the blank as its subject. *)
Lemma blank_subject_kept :
  let env := services (λ _, Return json_blank_subject)
                      (loads_only json_blank_subject data_blank_subject) in
  normalize_entity_name " " = EmptyString
  ∧ _parse_response env true json_blank_subject
    = Return [mkTriple (PyStr " ") (PyStr "Entity") (PyStr "RELATED_TO")
                       (PyStr "flowchips") (PyStr "Entity") (PyDict [])]
  ∧ ¬ (∀ ts t, _parse_response env true json_blank_subject = Return ts → t ∈ ts →
               ∃ s, subject t = PyStr s ∧ normalize_entity_name s ≠ EmptyString).
Proof.
  intros env.
  assert (_parse_response env true json_blank_subject
          = Return [mkTriple (PyStr " ") (PyStr "Entity") (PyStr "RELATED_TO")
                             (PyStr "flowchips") (PyStr "Entity") (PyDict [])]) as H
    by (vm_compute; reflexivity).
  split; [reflexivity|]. split; [exact H|].
  intros Hclaim. destruct (Hclaim _ _ H ltac:(by left)) as (s & [= <-] & Hs).
  by apply Hs.
Qed.

(** ** The extractor: [extract] *)

Lemma str_nonempty_app (c : ascii) (s t : string) : String c s +:+ t ≠ EmptyString.
Proof. rewrite app_cons. discriminate. Qed.

Lemma extract_failure (e : Exn) (text : string) :
  let error_msg :=
    if isinstance_JSONDecodeError e
    then "Failed to parse LLM response as JSON: " +:+ exn_str e
    else if isinstance_ValueError e
    then exn_str e
    else "Extraction failed: " +:+ exn_str e in
  extraction_failed (mkExtractionResult [] text (Some error_msg)) e.
Proof.
  intros error_msg. split; [done|]. exists error_msg. split; [done|].
  unfold error_msg, isinstance_JSONDecodeError, isinstance_ValueError.
  destruct (exn_class e) eqn:Hc; simpl; (split; [done|]);
    try (intros _; apply str_nonempty_app).
  by intros [?|?].
Qed.

(** What [extract] gives.  For every text and whatever the generation
    service and the JSON decoder do, [extract] returns a result (it does
    not raise) and leaves the stores alone.  When the call of the service
    and the parsing succeed, the result holds the parsed triples and no
    error.  When either raises, the result holds no triple and an error
    text: [Failed to parse LLM response as JSON: ...] for a
    [JSONDecodeError], [Extraction failed: ...] for an exception that is
    not a [ValueError], and the text of the exception itself for a
    [ValueError], which is the non-empty [No JSON object found in
    response: ...] when the response holds no JSON object. *)
Lemma extract_total (env : Env) (normalize : bool) (text : string) (w : World) :
  ∃ result w',
    extract env normalize text w = (Return result, w')
    ∧ w_graph w' = w_graph w ∧ w_vector w' = w_vector w
    ∧ w_collections w' = w_collections w
    ∧ extraction_outcome env normalize text result.
Proof.
  unfold extract, extraction_outcome, try_except, mbind, M_bind, lift.
  destruct (llm_invoke env (_build_prompt text)) as [response|e]; simpl.
  - destruct (_parse_response env normalize response) as [ts|e]; simpl.
    + eexists _, _. repeat split; reflexivity.
    + eexists _, _. split; [reflexivity|]. repeat split; try reflexivity.
      all: apply (extract_failure e text).
  - eexists _, _. split; [reflexivity|]. repeat split; try reflexivity.
    all: apply (extract_failure e text).
Qed.

Lemma extract_no_json (env : Env) (normalize : bool) (text response : string) (w : World) :
  llm_invoke env (_build_prompt text) = Return response →
  search_json_object response = None →
  ∃ w', extract env normalize text w
        = (Return (mkExtractionResult [] text
                     (Some ("No JSON object found in response: " +:+ py_take 200 response))),
           w').
Proof.
  intros Hllm Hsearch.
  unfold extract, try_except, mbind, M_bind, lift, _parse_response, response_items.
  rewrite Hllm. simpl. rewrite Hsearch. simpl. eauto.
Qed.

Lemma extract_malformed_json (env : Env) (normalize : bool) (text response json_str : string)
    (e : Exn) (w : World) :
  llm_invoke env (_build_prompt text) = Return response →
  search_json_object response = Some json_str →
  json_loads env json_str = Raise e →
  exn_class e = JSONDecodeError →
  ∃ w', extract env normalize text w
        = (Return (mkExtractionResult [] text
                     (Some ("Failed to parse LLM response as JSON: " +:+ exn_str e))),
           w').
Proof.
  intros Hllm Hsearch Hloads Hclass.
  unfold extract, try_except, mbind, M_bind, lift, _parse_response, response_items.
  rewrite Hllm. simpl. rewrite Hsearch. simpl. rewrite Hloads. simpl.
  unfold isinstance_JSONDecodeError. rewrite Hclass. simpl. eauto.
Qed.

Example extract_not_json :
  let env := services (λ _, Return "This is not valid JSON")
                      (loads_only EmptyString PyNone) in
  (extract env true "Some text" empty_world).1
  = Return (mkExtractionResult [] "Some text"
              (Some "No JSON object found in response: This is not valid JSON")).
Proof. vm_compute. reflexivity. Qed.


(** ** The graph store: patterns and parameters *)

Lemma resolve_list (prefix : string) (l : list (string * PyVal)) (params : Props) :
  (∀ k v, (k, v) ∈ l → params !! (prefix +:+ k) = Some v) →
  resolve ((λ k, (k, prefix +:+ k)) <$> l.*1) params = Some (list_to_map l).
Proof.
  induction l as [|[k v] l IH]; intros H; [done|].
  rewrite !fmap_cons. cbn [resolve fst].
  rewrite IH by (intros; apply H; by right).
  rewrite (H k v) by by left. done.
Qed.

Lemma resolve_prop_pattern (prefix : string) (d params : Props) :
  (∀ k v, d !! k = Some v → params !! (prefix +:+ k) = Some v) →
  resolve (prop_pattern prefix d) params = Some d.
Proof.
  intros H. unfold prop_pattern, keys.
  rewrite (resolve_list prefix (map_to_list d) params).
  - by rewrite list_to_map_to_list.
  - intros k v Hkv. apply H. by apply elem_of_map_to_list.
Qed.

Lemma lookup_prefixed (prefix : string) (d : Props) (k : string) :
  prefixed prefix d !! (prefix +:+ k) = d !! k.
Proof. unfold prefixed. apply (lookup_kmap (String.append prefix)). Qed.

Lemma lookup_prefixed_other (p q : string) (a b : ascii) (p' q' : string) (d : Props)
    (k : string) :
  p = String a p' → q = String b q' → a ≠ b →
  prefixed p d !! (q +:+ k) = None.
Proof.
  intros -> -> Hab. unfold prefixed.
  apply (lookup_kmap_None (String.append (String a p'))).
  intros j Hj. rewrite !app_cons in Hj. congruence.
Qed.

Lemma rel_params_from (from_props to_props : Props) (rel_props : option Props) (k : string) :
  rel_params from_props to_props rel_props !! ("from_" +:+ k) = from_props !! k.
Proof.
  unfold rel_params.
  assert ((prefixed "to_" to_props ∪ (prefixed "from_" from_props ∪ ∅))
            !! ("from_" +:+ k) = from_props !! k) as H.
  { rewrite lookup_union_r by by eapply lookup_prefixed_other.
    rewrite (right_id ∅ (∪)). apply lookup_prefixed. }
  destruct (dict_truthy rel_props); [|done].
  rewrite lookup_union_r by by eapply lookup_prefixed_other. done.
Qed.

Lemma rel_params_to (from_props to_props : Props) (rel_props : option Props) (k : string) :
  rel_params from_props to_props rel_props !! ("to_" +:+ k) = to_props !! k.
Proof.
  unfold rel_params.
  assert ((prefixed "to_" to_props ∪ (prefixed "from_" from_props ∪ ∅))
            !! ("to_" +:+ k) = to_props !! k) as H.
  { destruct (to_props !! k) as [v|] eqn:E.
    - apply lookup_union_Some_l. by rewrite lookup_prefixed.
    - rewrite lookup_union_r by by rewrite lookup_prefixed.
      rewrite (right_id ∅ (∪)). by eapply lookup_prefixed_other. }
  destruct (dict_truthy rel_props); [|done].
  rewrite lookup_union_r by by eapply lookup_prefixed_other. done.
Qed.

Lemma rel_params_rel (from_props to_props rel_props : Props) (k : string) (v : PyVal) :
  rel_props !! k = Some v →
  rel_params from_props to_props (Some rel_props) !! ("rel_" +:+ k) = Some v.
Proof.
  intros H. unfold rel_params, dict_truthy.
  rewrite bool_decide_false by (intros ->; by rewrite lookup_empty in H).
  simpl. apply lookup_union_Some_l. by rewrite lookup_prefixed.
Qed.

(** The property map the SET part of [merge_relationship] stands for. *)
Lemma resolve_rel_set (from_props to_props : Props) (rel_props : option Props) :
  resolve (if dict_truthy rel_props then prop_pattern "rel_" (default ∅ rel_props) else [])
          (rel_params from_props to_props rel_props)
  = Some (default ∅ rel_props).
Proof.
  destruct rel_props as [r|]; simpl; [|done].
  destruct (decide (r = ∅)) as [->|Hr].
  - by rewrite bool_decide_true.
  - rewrite bool_decide_false by done. simpl. apply resolve_prop_pattern.
    intros k v. apply rel_params_rel.
Qed.

(** What the statement of [merge_relationship] does to a graph. *)
Lemma exec_rel_query (from_label : string) (from_props : Props) (to_label : string)
    (to_props : Props) (rel_type : string) (rel_props : option Props) (g : Graph) :
  ∃ rows,
    exec_query (rel_query from_label from_props to_label to_props rel_type rel_props)
               (rel_params from_props to_props rel_props) g
    = Some ((merge_rel_sem from_label from_props to_label to_props rel_type
                           (default ∅ rel_props) g).1, rows).
Proof.
  unfold rel_query, exec_query.
  rewrite (resolve_prop_pattern "from_") by (intros k v <-; apply rel_params_from).
  rewrite (resolve_prop_pattern "to_") by (intros k v <-; apply rel_params_to).
  rewrite resolve_rel_set. simpl.
  destruct (merge_rel_sem _ _ _ _ _ _ g) as [g' pairs]. simpl. eauto.
Qed.

(** ** The graph store: MERGE *)

Lemma set_node_props_empty (n : Node) : set_node_props ∅ n = n.
Proof. destruct n. unfold set_node_props. simpl. by rewrite (left_id ∅ (∪)). Qed.

Lemma imap_set_empty (ids : list nat) (l : list Node) :
  imap (λ i n, if bool_decide (i ∈ ids) then set_node_props ∅ n else n) l = l.
Proof.
  apply list_eq. intros i. rewrite list_lookup_imap.
  destruct (l !! i) as [n|]; simpl; [|done].
  case_bool_decide; by rewrite ?set_node_props_empty.
Qed.

Lemma matching_from_app (label : string) (props : Props) (i : nat) (xs ys : list Node) :
  matching_from label props i (xs ++ ys)
  = matching_from label props i xs ++ matching_from label props (i + length xs) ys.
Proof.
  revert i. induction xs as [|x xs IH]; intros i; simpl.
  - by rewrite Nat.add_0_r.
  - rewrite IH. replace (S i + length xs)%nat with (i + S (length xs))%nat by lia.
    by destruct (node_matches label props x).
Qed.

Lemma node_matches_spec (label : string) (props : Props) (n : Node) :
  node_matches label props n = true
  ↔ n_label n = label ∧ ∀ k v, props !! k = Some v → n_props n !! k = Some v.
Proof.
  unfold node_matches. rewrite andb_true_iff, !bool_decide_eq_true. done.
Qed.

Lemma node_matches_self (label : string) (props : Props) :
  node_matches label props (mkNode label props) = true.
Proof. by apply node_matches_spec. Qed.

Lemma merge_node_sem_match (label : string) (props : Props) (g : Graph) :
  matching label props g ≠ [] →
  merge_node_sem label props ∅ ∅ g = (g, matching label props g).
Proof.
  intros H. unfold merge_node_sem.
  destruct (matching label props g) as [|i ids] eqn:E; [done|].
  rewrite imap_set_empty. by destruct g.
Qed.

Lemma merge_node_sem_create (label : string) (props : Props) (g : Graph) :
  matching label props g = [] →
  merge_node_sem label props ∅ ∅ g
  = (mkGraph (g_nodes g ++ [mkNode label props]) (g_edges g), [length (g_nodes g)]).
Proof.
  intros H. unfold merge_node_sem. rewrite H. by rewrite (left_id ∅ (∪)).
Qed.

Lemma matching_created (label : string) (props : Props) (g : Graph) :
  matching label props g = [] →
  matching label props (mkGraph (g_nodes g ++ [mkNode label props]) (g_edges g))
  = [length (g_nodes g)].
Proof.
  intros H. unfold matching in *. simpl. rewrite matching_from_app, H. simpl.
  by rewrite node_matches_self.
Qed.

(** After the MERGE of a node pattern, the nodes bound are the nodes the
    pattern matches, and there is one at least. *)
Lemma merge_node_sem_bound (label : string) (props : Props) (g : Graph) :
  (merge_node_sem label props ∅ ∅ g).2
  = matching label props (merge_node_sem label props ∅ ∅ g).1
  ∧ (merge_node_sem label props ∅ ∅ g).2 ≠ [].
Proof.
  destruct (decide (matching label props g = [])) as [E|E].
  - rewrite merge_node_sem_create by done. simpl.
    by rewrite matching_created.
  - by rewrite merge_node_sem_match.
Qed.

Lemma edge_between_spec (a : nat) (t : string) (b : nat) (e : Edge) :
  edge_between a t b e = true ↔ edge_key e = (a, t, b).
Proof.
  unfold edge_between, edge_key.
  rewrite !andb_true_iff, !bool_decide_eq_true. split.
  - by intros [[-> ->] ->].
  - by intros [= -> -> ->].
Qed.

Lemma existsb_edge_between (a : nat) (t : string) (b : nat) (es : list Edge) :
  existsb (edge_between a t b) es = true ↔ (a, t, b) ∈ edge_key <$> es.
Proof.
  rewrite existsb_exists, list_elem_of_fmap. split.
  - intros (e & He & Hb). exists e. apply edge_between_spec in Hb.
    split; [done|]. by apply list_elem_of_In.
  - intros (e & He & Hin). exists e. split; [by apply list_elem_of_In|].
    by apply edge_between_spec.
Qed.

Lemma set_edge_props_key (set : Props) (e : Edge) :
  edge_key (set_edge_props set e) = edge_key e.
Proof. done. Qed.

Lemma merge_edge_keys (t : string) (set : Props) (g : Graph) (a b : nat) :
  edge_keys (merge_edge t set g (a, b))
  = if bool_decide ((a, t, b) ∈ edge_keys g) then edge_keys g
    else edge_keys g ++ [(a, t, b)].
Proof.
  unfold merge_edge, edge_keys. simpl.
  rewrite <- list_fmap_compose.
  assert (∀ es : list Edge,
            (edge_key ∘ (λ e, if edge_between a t b e then set_edge_props set e else e))
              <$> es = edge_key <$> es) as Hmap.
  { intros es. apply list_fmap_ext. intros i e _. simpl.
    by destruct (edge_between a t b e). }
  rewrite Hmap.
  destruct (existsb (edge_between a t b) (g_edges g)) eqn:E.
  - apply existsb_edge_between in E. by rewrite bool_decide_true.
  - rewrite bool_decide_false.
    + by rewrite fmap_app.
    + intros H. apply existsb_edge_between in H. congruence.
Qed.

Lemma fold_merge_edge_nodes (t : string) (set : Props) (pairs : list (nat * nat)) (g : Graph) :
  g_nodes (foldl (merge_edge t set) g pairs) = g_nodes g.
Proof.
  revert g. induction pairs as [|ab pairs IH]; intros g; simpl; [done|].
  by rewrite IH.
Qed.

(** Merging the relationships of a list of bindings adds keys after the
    keys there are: each new key is the key of a binding, was not there
    and is added once; afterwards the key of every binding is there. *)
Lemma fold_merge_edge_keys (t : string) (set : Props) (pairs : list (nat * nat)) (g : Graph) :
  ∃ new,
    edge_keys (foldl (merge_edge t set) g pairs) = edge_keys g ++ new
    ∧ NoDup new
    ∧ (∀ k, k ∈ new → (k ∉ edge_keys g) ∧ ∃ a b, (a, b) ∈ pairs ∧ k = (a, t, b))
    ∧ (∀ a b, (a, b) ∈ pairs → (a, t, b) ∈ edge_keys g ++ new).
Proof.
  revert g. induction pairs as [|[a b] pairs IH]; intros g; simpl.
  - exists []. rewrite app_nil_r. split; [done|]. split; [constructor|].
    split; [intros k Hk; by apply elem_of_nil in Hk|].
    intros a b Hab. by apply elem_of_nil in Hab.
  - destruct (IH (merge_edge t set g (a, b))) as (new & Hk & Hnd & Hnew & Hall).
    rewrite merge_edge_keys in Hk, Hnew, Hall.
    case_bool_decide as Hin.
    + exists new. split; [done|]. split; [done|]. split.
      * intros k Hkn. destruct (Hnew k Hkn) as (? & a' & b' & ? & ?).
        split; [done|]. exists a', b'. split; [by right|done].
      * intros a' b' [[= -> ->]|H]%elem_of_cons; [|by apply Hall].
        apply elem_of_app. by left.
    + exists ((a, t, b) :: new). rewrite <- app_assoc in Hk. split; [done|]. split.
      { constructor; [|done]. intros Hn. apply Hnew in Hn as [Hn _].
        apply Hn, elem_of_app. right. by left. }
      split.
      * intros k [->|Hkn]%elem_of_cons.
        { split; [done|]. exists a, b. split; [by left|done]. }
        destruct (Hnew k Hkn) as (Hnot & a' & b' & ? & ?).
        split; [intros ?; apply Hnot, elem_of_app; by left|].
        exists a', b'. split; [by right|done].
      * intros a' b' [[= -> ->]|H]%elem_of_cons.
        { apply elem_of_app. right. by left. }
        specialize (Hall _ _ H). rewrite <- app_assoc in Hall. done.
Qed.

Lemma fold_merge_edge_keys_present (t : string) (set : Props) (pairs : list (nat * nat))
    (g : Graph) :
  (∀ a b, (a, b) ∈ pairs → (a, t, b) ∈ edge_keys g) →
  edge_keys (foldl (merge_edge t set) g pairs) = edge_keys g.
Proof.
  intros H. destruct (fold_merge_edge_keys t set pairs g) as (new & -> & _ & Hnew & _).
  destruct new as [|k new]; [by rewrite app_nil_r|].
  destruct (Hnew k ltac:(by left)) as (Hnot & a & b & Hab & ->).
  destruct Hnot. by apply H.
Qed.

Lemma matching_nodes (label : string) (props : Props) (g g' : Graph) :
  g_nodes g' = g_nodes g → matching label props g' = matching label props g.
Proof. unfold matching. by intros ->. Qed.

Lemma merge_node_sem_edges (label : string) (props : Props) (g : Graph) :
  g_edges (merge_node_sem label props ∅ ∅ g).1 = g_edges g.
Proof.
  destruct (decide (matching label props g = [])) as [E|E].
  - by rewrite merge_node_sem_create.
  - by rewrite merge_node_sem_match.
Qed.

Lemma merge_node_sem_nodes (label : string) (props : Props) (g : Graph) :
  ∃ new, g_nodes (merge_node_sem label props ∅ ∅ g).1 = g_nodes g ++ new
         ∧ (length new ≤ 1)%nat
         ∧ (matching label props g ≠ [] → new = []).
Proof.
  destruct (decide (matching label props g = [])) as [E|E].
  - rewrite merge_node_sem_create by done. exists [mkNode label props]. simpl.
    split; [done|]. split; [lia|]. intros H. by rewrite E in H.
  - rewrite merge_node_sem_match by done. exists []. simpl. rewrite app_nil_r.
    split; [done|]. split; [lia|done].
Qed.

Lemma matching_grow (label : string) (props : Props) (g g' : Graph) (new : list Node) :
  g_nodes g' = g_nodes g ++ new →
  ∃ more, matching label props g' = matching label props g ++ more.
Proof. unfold matching. intros ->. rewrite matching_from_app. eauto. Qed.

(** What [merge_rel_sem] does, read on nodes and keys. *)
Lemma merge_rel_sem_spec (fl : string) (fp : Props) (tl : string) (tp : Props)
    (t : string) (set : Props) (g : Graph) :
  let g' := (merge_rel_sem fl fp tl tp t set g).1 in
  (∃ new_nodes, g_nodes g' = g_nodes g ++ new_nodes ∧ (length new_nodes ≤ 2)%nat)
  ∧ (∃ new_keys, edge_keys g' = edge_keys g ++ new_keys ∧ NoDup new_keys
                 ∧ ∀ k, k ∈ new_keys → k ∉ edge_keys g)
  ∧ (∃ a b, a ∈ matching fl fp g' ∧ b ∈ matching tl tp g' ∧ (a, t, b) ∈ edge_keys g').
Proof.
  unfold merge_rel_sem.
  destruct (merge_node_sem fl fp ∅ ∅ g) as [g1 as_] eqn:E1.
  destruct (merge_node_sem tl tp ∅ ∅ g1) as [g2 bs] eqn:E2. simpl.
  pose proof (merge_node_sem_bound fl fp g) as [Has Has'].
  pose proof (merge_node_sem_bound tl tp g1) as [Hbs Hbs'].
  pose proof (merge_node_sem_nodes fl fp g) as (n1 & Hn1 & Hl1 & _).
  pose proof (merge_node_sem_nodes tl tp g1) as (n2 & Hn2 & Hl2 & _).
  pose proof (merge_node_sem_edges fl fp g) as He1.
  pose proof (merge_node_sem_edges tl tp g1) as He2.
  rewrite E1 in *. rewrite E2 in *. simpl in *.
  destruct (fold_merge_edge_keys t set (list_prod as_ bs) g2)
    as (new & Hk & Hnd & Hnew & Hall).
  assert (edge_keys g2 = edge_keys g) as Hkeys by (unfold edge_keys; congruence).
  rewrite Hkeys in *.
  split; [|split].
  - exists (n1 ++ n2). rewrite fold_merge_edge_nodes, Hn2, Hn1, <- app_assoc.
    split; [done|]. rewrite length_app. lia.
  - exists new. split; [done|]. split; [done|]. intros k Hkn. by apply Hnew.
  - destruct as_ as [|a as_]; [done|]. destruct bs as [|b bs]; [done|].
    exists a, b.
    assert (g_nodes (foldl (merge_edge t set) g2 (list_prod (a :: as_) (b :: bs)))
            = g_nodes g2) as Hnodes by apply fold_merge_edge_nodes.
    rewrite (matching_nodes fl fp _ _ Hnodes), (matching_nodes tl tp _ _ Hnodes).
    split; [|split].
    + destruct (matching_grow fl fp g1 g2 n2 Hn2) as [more ->].
      rewrite <- Has. apply elem_of_app. left. by left.
    + rewrite <- Hbs. by left.
    + rewrite Hk. apply Hall. apply list_elem_of_In, in_prod; by left.
Qed.

(** On a graph in which the pattern is saturated, [merge_rel_sem] adds
    neither a node nor a key. *)
Lemma merge_rel_sem_stable (fl : string) (fp : Props) (tl : string) (tp : Props)
    (t : string) (set : Props) (g : Graph) :
  rel_saturated fl fp tl tp t g →
  g_nodes (merge_rel_sem fl fp tl tp t set g).1 = g_nodes g
  ∧ edge_keys (merge_rel_sem fl fp tl tp t set g).1 = edge_keys g.
Proof.
  intros (Ha & Hb & Hsat). unfold merge_rel_sem.
  rewrite merge_node_sem_match by done. rewrite merge_node_sem_match by done. simpl.
  split; [apply fold_merge_edge_nodes|].
  apply fold_merge_edge_keys_present. intros a b Hab.
  apply list_elem_of_In, in_prod_iff in Hab as [Ha' Hb'].
  apply Hsat; by apply list_elem_of_In.
Qed.

(** After [merge_rel_sem] the pattern is saturated, unless the target
    pattern says strictly more than the source pattern under the same
    label. *)
Lemma merge_rel_sem_saturates (fl : string) (fp : Props) (tl : string) (tp : Props)
    (t : string) (set : Props) (g : Graph) :
  (fl = tl → fp ⊆ tp → tp ⊆ fp) →
  rel_saturated fl fp tl tp t (merge_rel_sem fl fp tl tp t set g).1.
Proof.
  intros Hpat. unfold merge_rel_sem.
  destruct (merge_node_sem fl fp ∅ ∅ g) as [g1 as_] eqn:E1.
  pose proof (merge_node_sem_bound fl fp g) as [Has Has'].
  rewrite E1 in Has, Has'. simpl in Has, Has'.
  assert (∀ g2 bs,
            matching fl fp g2 = as_ → matching tl tp g2 = bs → bs ≠ [] →
            rel_saturated fl fp tl tp t (foldl (merge_edge t set) g2 (list_prod as_ bs)))
    as Hsat.
  { intros g2 bs Ha Hb Hbs.
    assert (g_nodes (foldl (merge_edge t set) g2 (list_prod as_ bs)) = g_nodes g2)
      as Hnodes by apply fold_merge_edge_nodes.
    unfold rel_saturated.
    rewrite (matching_nodes fl fp _ _ Hnodes), (matching_nodes tl tp _ _ Hnodes).
    rewrite Ha, Hb. split; [done|]. split; [done|]. intros a b Hina Hinb.
    destruct (fold_merge_edge_keys t set (list_prod as_ bs) g2)
      as (new & -> & _ & _ & Hall).
    apply Hall, list_elem_of_In, in_prod; by apply list_elem_of_In. }
  destruct (decide (matching tl tp g1 = [])) as [E|E].
  - rewrite merge_node_sem_create by done. simpl.
    apply Hsat; [|by apply matching_created|done].
    unfold matching. simpl. rewrite matching_from_app. fold (matching fl fp g1).
    rewrite <- Has. simpl.
    destruct (node_matches fl fp (mkNode tl tp)) eqn:Hm; [|by rewrite app_nil_r].
    apply node_matches_spec in Hm as [Hl Hp]. simpl in Hl, Hp. subst tl.
    assert (fp ⊆ tp) as Hsub by by apply map_subseteq_spec.
    assert (fp = tp) as -> by (apply (anti_symm (⊆)); auto).
    by rewrite <- Has in E.
  - rewrite merge_node_sem_match by done. simpl. by apply Hsat.
Qed.

(** ** graph_db.py: running the statements *)

Lemma session_run_served (env : Env) (q : Query) (params : Props) (w : World)
    (g' : Graph) (rows : list Row) :
  graph_fault env q params = None →
  exec_query q params (w_graph w) = Some (g', rows) →
  session_run env q params w
  = (Return rows, mkWorld g' (w_vector w) (w_collections w) (w_log w)).
Proof.
  intros Hf He. unfold session_run, mbind, M_bind, check_fault, get_graph.
  rewrite Hf. simpl. rewrite He. done.
Qed.

Lemma session_run_refused (env : Env) (q : Query) (params : Props) (w : World) :
  graph_fault env q params = None →
  exec_query q params (w_graph w) = None →
  session_run env q params w
  = (Raise (mkExn ClientError "the statement cannot be run"), w).
Proof.
  intros Hf He. unfold session_run, mbind, M_bind, check_fault, get_graph.
  rewrite Hf. simpl. rewrite He. done.
Qed.

Lemma session_run_fault (env : Env) (q : Query) (params : Props) (w : World) (e : Exn) :
  graph_fault env q params = Some e →
  session_run env q params w = (Raise e, w).
Proof.
  intros Hf. unfold session_run, mbind, M_bind, check_fault. by rewrite Hf.
Qed.

Lemma merge_relationship_unfold (env : Env) (fl : string) (fp : Props) (tl : string)
    (tp : Props) (t : string) (rp : option Props) :
  merge_relationship env fl fp tl tp t rp
  = (_ ← session_run env (rel_query fl fp tl tp t rp) (rel_params fp tp rp); mret ()).
Proof.
  unfold merge_relationship, rel_query, rel_params. by destruct (dict_truthy rp).
Qed.

Lemma merge_relationship_served (env : Env) (fl : string) (fp : Props) (tl : string)
    (tp : Props) (t : string) (rp : option Props) (w : World) :
  graph_fault env (rel_query fl fp tl tp t rp) (rel_params fp tp rp) = None →
  merge_relationship env fl fp tl tp t rp w
  = (Return (),
     mkWorld (merge_rel_sem fl fp tl tp t (default ∅ rp) (w_graph w)).1
             (w_vector w) (w_collections w) (w_log w)).
Proof.
  intros Hf. rewrite merge_relationship_unfold.
  destruct (exec_rel_query fl fp tl tp t rp (w_graph w)) as [rows He].
  unfold mbind, M_bind. by rewrite (session_run_served _ _ _ _ _ _ Hf He).
Qed.

Lemma merge_relationship_fault (env : Env) (fl : string) (fp : Props) (tl : string)
    (tp : Props) (t : string) (rp : option Props) (w : World) (e : Exn) :
  graph_fault env (rel_query fl fp tl tp t rp) (rel_params fp tp rp) = Some e →
  merge_relationship env fl fp tl tp t rp w = (Raise e, w).
Proof.
  intros Hf. rewrite merge_relationship_unfold.
  unfold mbind, M_bind. by rewrite (session_run_fault _ _ _ _ _ Hf).
Qed.

Lemma NoDup_keys_grow (keys new : list (nat * string * nat)) :
  NoDup keys → NoDup new → (∀ k, k ∈ new → k ∉ keys) → NoDup (keys ++ new).
Proof.
  intros Hk Hn Hdisj. apply NoDup_app. split; [done|]. split; [|done].
  intros k Hin Hin'. by apply (Hdisj k).
Qed.

(** C9.  When the server runs the statement, [merge_relationship] returns
    on any graph, also one that has neither endpoint: the statement merges
    the source node, then the target node, then the relationship
    ([exec_rel_query], [merge_rel_sem]), so afterwards a node matches each
    endpoint pattern and a relationship of the type joins two of them; at
    most two nodes were added.  A repeated call adds no node; no call gives
    a key (source, type, target) a second relationship; and the repeated
    call adds no relationship either, unless the target pattern says
    strictly more than the source pattern under the same label. *)
Theorem merge_relationship_idempotent (env : Env) (fl : string) (fp : Props)
    (tl : string) (tp : Props) (t : string) (rp : option Props) (w : World) :
  graph_fault env (rel_query fl fp tl tp t rp) (rel_params fp tp rp) = None →
  ∃ w1 w2,
    merge_relationship env fl fp tl tp t rp w = (Return (), w1)
    ∧ merge_relationship env fl fp tl tp t rp w1 = (Return (), w2)
    ∧ (∃ a b, a ∈ matching fl fp (w_graph w1) ∧ b ∈ matching tl tp (w_graph w1)
              ∧ (a, t, b) ∈ edge_keys (w_graph w1))
    ∧ (node_count w1 ≤ node_count w + 2)%nat
    ∧ g_nodes (w_graph w2) = g_nodes (w_graph w1)
    ∧ (NoDup (edge_keys (w_graph w)) →
       NoDup (edge_keys (w_graph w1)) ∧ NoDup (edge_keys (w_graph w2)))
    ∧ ((fl = tl → fp ⊆ tp → tp ⊆ fp) →
       edge_keys (w_graph w2) = edge_keys (w_graph w1) ∧ edge_count w2 = edge_count w1).
Proof.
  intros Hf. eexists _, _.
  split; [by apply merge_relationship_served|].
  split; [by apply merge_relationship_served|]. simpl.
  set (g := w_graph w). set (set := default ∅ rp).
  set (g1 := (merge_rel_sem fl fp tl tp t set g).1).
  destruct (merge_rel_sem_spec fl fp tl tp t set g)
    as ((nn & Hnodes & Hlen) & (nk & Hkeys & Hnd & Hfresh) & Hedge).
  destruct (merge_rel_sem_spec fl fp tl tp t set g1)
    as ((nn' & Hnodes' & Hlen') & (nk' & Hkeys' & Hnd' & Hfresh') & (a & b & Ha & Hb & Hab)).
  fold g1 in Hnodes, Hkeys, Hedge, Hnodes', Hkeys', Ha, Hb, Hab.
  split; [exact Hedge|]. split.
  { unfold node_count. simpl. fold g g1. rewrite Hnodes, length_app. lia. }
  split.
  { destruct Hedge as (a1 & b1 & Ha1 & Hb1 & _).
    unfold merge_rel_sem.
    rewrite merge_node_sem_match by (intros E; rewrite E in Ha1; by apply elem_of_nil in Ha1).
    rewrite merge_node_sem_match by (intros E; rewrite E in Hb1; by apply elem_of_nil in Hb1).
    simpl. apply fold_merge_edge_nodes. }
  split.
  { intros Hg. assert (NoDup (edge_keys g1)) as Hg1.
    { rewrite Hkeys. by apply NoDup_keys_grow. }
    split; [done|]. rewrite Hkeys'. by apply NoDup_keys_grow. }
  intros Hpat.
  destruct (merge_rel_sem_stable fl fp tl tp t set g1) as [_ Hstable].
  { by apply merge_rel_sem_saturates. }
  split; [done|]. unfold edge_count. simpl. fold g g1.
  apply (f_equal length) in Hstable. unfold edge_keys in Hstable.
  by rewrite !length_fmap in Hstable.
Qed.

Lemma merge_relationship_idempotent_witness :
  let fp := named "techflow" in
  let tp := named "flowchips" in
  graph_fault store_services
    (rel_query "Company" fp "Product" tp "MANUFACTURES" None) (rel_params fp tp None) = None
  ∧ ∃ w1 w2,
      merge_relationship store_services "Company" fp "Product" tp "MANUFACTURES" None
        empty_world = (Return (), w1)
      ∧ merge_relationship store_services "Company" fp "Product" tp "MANUFACTURES" None
          w1 = (Return (), w2)
      ∧ (∃ a b, a ∈ matching "Company" fp (w_graph w1)
                ∧ b ∈ matching "Product" tp (w_graph w1)
                ∧ (a, "MANUFACTURES", b) ∈ edge_keys (w_graph w1))
      ∧ (node_count w1 ≤ node_count empty_world + 2)%nat
      ∧ g_nodes (w_graph w2) = g_nodes (w_graph w1)
      ∧ (NoDup (edge_keys (w_graph empty_world)) →
         NoDup (edge_keys (w_graph w1)) ∧ NoDup (edge_keys (w_graph w2)))
      ∧ (("Company" = "Product" → fp ⊆ tp → tp ⊆ fp) →
         edge_keys (w_graph w2) = edge_keys (w_graph w1) ∧ edge_count w2 = edge_count w1).
Proof.
  intros fp tp. split; [reflexivity|].
  apply (merge_relationship_idempotent store_services "Company" fp "Product" tp
           "MANUFACTURES" None empty_world).
  reflexivity.
Defined.

Example merge_relationship_twice :
  let call := merge_relationship store_services "Company" (named "techflow")
                "Product" (named "flowchips") "MANUFACTURES" None in
  graph_summary (call empty_world).2
  = ([("Company", Some (PyStr "techflow")); ("Product", Some (PyStr "flowchips"))],
     [(0%nat, "MANUFACTURES", 1%nat)])
  ∧ graph_summary (call (call empty_world).2).2 = graph_summary (call empty_world).2.
Proof. split; vm_compute; reflexivity. Qed.

(** When the target pattern says strictly more than the source pattern
    under the same label, the node made for the target also matches the
    source, and the repeated call joins it to itself. *)
Example merge_relationship_refined_target :
  let call := merge_relationship store_services "Company" ∅
                "Company" (named "techflow") "OWNS" None in
  graph_summary (call empty_world).2
  = ([("Company", None); ("Company", Some (PyStr "techflow"))], [(0%nat, "OWNS", 1%nat)])
  ∧ graph_summary (call (call empty_world).2).2
    = ([("Company", None); ("Company", Some (PyStr "techflow"))],
       [(0%nat, "OWNS", 1%nat); (1%nat, "OWNS", 1%nat)]).
Proof. split; vm_compute; reflexivity. Qed.

(** ** Path queries *)

Lemma insert_by_length_elem (r x : Row) (rows : list Row) :
  x ∈ insert_by_length r rows ↔ x = r ∨ x ∈ rows.
Proof.
  induction rows as [|y rows IH]; simpl.
  - rewrite list_elem_of_singleton. split; [auto|]. intros [?|H]; [done|].
    by apply elem_of_nil in H.
  - destruct (row_length r <? row_length y)%nat.
    + by rewrite elem_of_cons.
    + rewrite !elem_of_cons, IH. tauto.
Qed.

Lemma insert_by_length_sorted (r : Row) (rows : list Row) :
  StronglySorted by_hops rows → StronglySorted by_hops (insert_by_length r rows).
Proof.
  induction 1 as [|y rows Hs IH Hy]; simpl.
  - repeat constructor.
  - destruct (row_length r <? row_length y)%nat eqn:E.
    + apply Nat.ltb_lt in E. constructor; [by constructor|].
      constructor; [unfold by_hops; lia|].
      eapply Forall_impl; [exact Hy|]. unfold by_hops. intros; lia.
    + apply Nat.ltb_ge in E. constructor; [done|].
      apply Forall_forall. intros x [->|Hx]%insert_by_length_elem; [done|].
      by eapply Forall_forall in Hy.
Qed.

Lemma order_by_length_sorted (rows : list Row) :
  StronglySorted by_hops (order_by_length rows).
Proof.
  induction rows as [|r rows IH]; simpl; [constructor|].
  by apply insert_by_length_sorted.
Qed.

Lemma StronglySorted_take_rows (n : nat) (rows : list Row) :
  StronglySorted by_hops rows → StronglySorted by_hops (take n rows).
Proof.
  intros H. revert n. induction H as [|r rows Hs IH Hr]; intros [|n]; simpl;
    try constructor; [apply IH|].
  apply Forall_forall. intros x Hx. eapply Forall_forall in Hr; [done|].
  by eapply subseteq_take.
Qed.

Lemma get_paths_between_unfold (env : Env) (fl : string) (fp : Props) (tl : string)
    (tp : Props) (max_hops : Z) :
  get_paths_between env fl fp tl tp max_hops
  = session_run env (paths_query fl fp tl tp max_hops) (rel_params fp tp None).
Proof. done. Qed.

Lemma exec_paths_query (fl : string) (fp : Props) (tl : string) (tp : Props)
    (max_hops : Z) (g : Graph) :
  exec_query (paths_query fl fp tl tp max_hops) (rel_params fp tp None) g
  = if max_hops <? 0 then None
    else Some (g, take 10 (order_by_length
                             (match_paths fl fp tl tp (Z.to_nat max_hops) g))).
Proof.
  unfold paths_query, exec_query.
  rewrite (resolve_prop_pattern "from_") by (intros k v <-; apply rel_params_from).
  rewrite (resolve_prop_pattern "to_") by (intros k v <-; apply rel_params_to).
  done.
Qed.

Lemma world_eta (w : World) :
  mkWorld (w_graph w) (w_vector w) (w_collections w) (w_log w) = w.
Proof. by destruct w. Qed.

(** C6.  Whatever the endpoints and the hop bound, a path query that
    returns gives at most 10 records, ordered by non-decreasing path
    length, each the record of a path, and leaves the graph as it was; it
    raises only when the server answers with a fault or the hop bound is
    negative, and so returns whenever the server runs the statement for a
    bound that is not negative. *)
Theorem get_paths_between_capped (env : Env) (fl : string) (fp : Props) (tl : string)
    (tp : Props) (max_hops : Z) (w : World) :
  match get_paths_between env fl fp tl tp max_hops w with
  | (Return rows, w') =>
      w' = w
      ∧ (length rows ≤ 10)%nat
      ∧ StronglySorted by_hops rows
      ∧ rows = take 10 (order_by_length
                          (match_paths fl fp tl tp (Z.to_nat max_hops) (w_graph w)))
  | (Raise e, w') =>
      w' = w
      ∧ (graph_fault env (paths_query fl fp tl tp max_hops) (rel_params fp tp None) = Some e
         ∨ max_hops < 0)
  end.
Proof.
  rewrite get_paths_between_unfold.
  destruct (graph_fault env (paths_query fl fp tl tp max_hops) (rel_params fp tp None))
    as [e|] eqn:Hf.
  - rewrite (session_run_fault _ _ _ _ _ Hf). auto.
  - pose proof (exec_paths_query fl fp tl tp max_hops (w_graph w)) as He.
    destruct (max_hops <? 0) eqn:Hh.
    + rewrite (session_run_refused _ _ _ _ Hf He). split; [done|]. right. lia.
    + rewrite (session_run_served _ _ _ _ _ _ Hf He), world_eta.
      split; [done|]. split; [rewrite length_take; lia|]. split; [|done].
      apply StronglySorted_take_rows, order_by_length_sorted.
Qed.

Example paths_techflow_singapore :
  (get_paths_between store_services "Company" (named "techflow")
     "Location" (named "singapore") 3 techflow_world).1
  = Return [RowPath [mkNode "Company" (named "techflow");
                     mkNode "Location" (named "singapore")]
                    ["OPERATES_AT"] 1].
Proof. vm_compute. reflexivity. Qed.

Example paths_capped_at_ten :
  match (get_paths_between store_services "Company" (named "techflow")
           "Company" (named "globaltech") 3 twelve_links).1 with
  | Return rows => length rows = 10%nat ∧ row_length <$> rows = replicate 10 1%nat
  | Raise _ => False
  end
  ∧ length (match_paths "Company" (named "techflow") "Company" (named "globaltech") 3
              (w_graph twelve_links)) = 1332%nat.
Proof. split; vm_compute; done. Qed.

(** ** The merges of an ingestion *)

Lemma name_matches (label label' : string) (name name' : PyVal) :
  node_matches label (name_props name) (mkNode label' (name_props name')) = true
  ↔ label' = label ∧ name' = name.
Proof.
  rewrite node_matches_spec. simpl. unfold name_props. split.
  - intros [-> H]. split; [done|].
    specialize (H "name" name (lookup_singleton_eq _ _)).
    rewrite lookup_singleton_eq in H. congruence.
  - intros [-> ->]. split; [done|]. by intros k v.
Qed.

(** A node made by the merge of a name pattern that matched nothing is
    matched by no name pattern that matched something. *)
Lemma matching_after_create (label label' : string) (name name' : PyVal) (g : Graph) :
  matching label' (name_props name') g = [] →
  matching label (name_props name) g ≠ [] →
  matching label (name_props name)
    (mkGraph (g_nodes g ++ [mkNode label' (name_props name')]) (g_edges g))
  = matching label (name_props name) g.
Proof.
  intros Hnone Hsome. unfold matching in *. simpl. rewrite matching_from_app. simpl.
  destruct (node_matches _ _ _) eqn:E; [|by rewrite app_nil_r].
  apply name_matches in E as [-> ->]. done.
Qed.

Lemma merge_name_keeps_matching (label label' : string) (name name' : PyVal) (g : Graph) :
  matching label (name_props name) g ≠ [] →
  matching label (name_props name) (merge_node_sem label' (name_props name') ∅ ∅ g).1
  = matching label (name_props name) g.
Proof.
  intros Hsome.
  destruct (decide (matching label' (name_props name') g = [])) as [E|E].
  - rewrite merge_node_sem_create by done. by apply matching_after_create.
  - by rewrite merge_node_sem_match.
Qed.

Lemma op_saturated_merge_name (op : GraphOp) (label' : string) (name' : PyVal) (g : Graph) :
  op_saturated g op →
  op_saturated (merge_node_sem label' (name_props name') ∅ ∅ g).1 op.
Proof.
  destruct op as [l n|fl fn tl tn t set]; simpl.
  - intros H. by rewrite merge_name_keeps_matching.
  - intros (Ha & Hb & Hsat). unfold rel_saturated.
    rewrite !merge_name_keeps_matching by done.
    split; [done|]. split; [done|]. intros a b Hia Hib.
    unfold edge_keys. rewrite merge_node_sem_edges. by apply Hsat.
Qed.

Lemma op_saturated_more_keys (op : GraphOp) (g g' : Graph) :
  g_nodes g' = g_nodes g →
  (∀ k, k ∈ edge_keys g → k ∈ edge_keys g') →
  op_saturated g op → op_saturated g' op.
Proof.
  intros Hn Hk. destruct op as [l n|fl fn tl tn t set]; simpl.
  - by rewrite (matching_nodes _ _ _ _ Hn).
  - unfold rel_saturated. rewrite !(matching_nodes _ _ _ _ Hn).
    intros (Ha & Hb & Hsat). split; [done|]. split; [done|]. auto.
Qed.

(** A merge keeps saturated what was saturated. *)
Lemma op_saturated_preserved (op op' : GraphOp) (g : Graph) :
  op_saturated g op → op_saturated (op_effect g op') op.
Proof.
  intros H. destruct op' as [l n|fl fn tl tn t set]; simpl.
  - by apply op_saturated_merge_name.
  - unfold merge_rel_sem.
    destruct (merge_node_sem fl (name_props fn) ∅ ∅ g) as [g1 as_] eqn:E1.
    destruct (merge_node_sem tl (name_props tn) ∅ ∅ g1) as [g2 bs] eqn:E2. simpl.
    assert (op_saturated g2 op) as H2.
    { replace g2 with (merge_node_sem tl (name_props tn) ∅ ∅ g1).1 by by rewrite E2.
      apply op_saturated_merge_name.
      replace g1 with (merge_node_sem fl (name_props fn) ∅ ∅ g).1 by by rewrite E1.
      by apply op_saturated_merge_name. }
    eapply op_saturated_more_keys; [apply fold_merge_edge_nodes| |exact H2].
    intros k Hk.
    destruct (fold_merge_edge_keys t set (list_prod as_ bs) g2) as (new & -> & _).
    apply elem_of_app. by left.
Qed.

(** A merge the server runs leaves its own pattern saturated. *)
Lemma op_effect_saturates (op : GraphOp) (g : Graph) : op_saturated (op_effect g op) op.
Proof.
  destruct op as [l n|fl fn tl tn t set]; simpl.
  - destruct (merge_node_sem_bound l (name_props n) g) as [E Hne]. by rewrite <- E.
  - apply merge_rel_sem_saturates. intros -> Hsub.
    assert (fn = tn) as ->; [|done].
    unfold name_props in Hsub. rewrite map_subseteq_spec in Hsub.
    specialize (Hsub "name" fn (lookup_singleton_eq _ _)).
    rewrite lookup_singleton_eq in Hsub. congruence.
Qed.

(** A merge whose pattern is saturated adds neither a node nor a key. *)
Lemma op_effect_stable (op : GraphOp) (g : Graph) :
  op_saturated g op →
  g_nodes (op_effect g op) = g_nodes g ∧ edge_keys (op_effect g op) = edge_keys g.
Proof.
  destruct op as [l n|fl fn tl tn t set]; simpl.
  - intros H. by rewrite merge_node_sem_match.
  - apply merge_rel_sem_stable.
Qed.

Lemma ops_saturate (ops : list GraphOp) (g : Graph) :
  Forall (op_saturated (foldl op_effect g ops)) ops.
Proof.
  revert g. induction ops as [|op ops IH]; intros g; simpl; [constructor|].
  constructor; [|apply IH].
  generalize (op_effect_saturates op g). generalize (op_effect g op). clear.
  induction ops as [|op' ops IH]; intros g H; simpl; [done|].
  apply IH. by apply op_saturated_preserved.
Qed.

Lemma ops_stable (ops : list GraphOp) (g : Graph) :
  Forall (op_saturated g) ops →
  g_nodes (foldl op_effect g ops) = g_nodes g
  ∧ edge_keys (foldl op_effect g ops) = edge_keys g.
Proof.
  revert g. induction ops as [|op ops IH]; intros g H; simpl; [done|].
  apply Forall_cons in H as [Hop Hops].
  destruct (op_effect_stable op g Hop) as [Hn Hk].
  destruct (IH (op_effect g op)) as [Hn' Hk'].
  - eapply Forall_impl; [exact Hops|]. intros op'. by apply op_saturated_preserved.
  - split; congruence.
Qed.

(** Running the merges of an ingestion a second time adds neither a node
    nor a key. *)
Lemma ops_twice (ops : list GraphOp) (g : Graph) :
  g_nodes (foldl op_effect (foldl op_effect g ops) ops) = g_nodes (foldl op_effect g ops)
  ∧ edge_keys (foldl op_effect (foldl op_effect g ops) ops)
    = edge_keys (foldl op_effect g ops).
Proof. apply ops_stable, ops_saturate. Qed.

(** ** pipeline.py: the merges of [ingest_text] *)

Lemma exec_node_query (label : string) (props : Props) (g : Graph) :
  ∃ rows, exec_query (node_query label props) props g
          = Some ((merge_node_sem label props ∅ ∅ g).1, rows).
Proof.
  unfold node_query, exec_query.
  rewrite (resolve_prop_pattern EmptyString) by (intros k v <-; by rewrite app_nil).
  simpl. destruct (merge_node_sem label props ∅ ∅ g) as [g' ids]. simpl. eauto.
Qed.

Lemma merge_node_unfold (env : Env) (label : string) (props : Props) :
  merge_node env label props None None
  = (rows ← session_run env (node_query label props) props; mret (head rows)).
Proof. done. Qed.

Lemma create_node_run (env : Env) (label name : PyVal) (w : World) :
  ∃ log',
    _create_node env label name w
    = (Return (node_served env label name),
       mkWorld (foldl op_effect (w_graph w)
                  (if node_served env label name
                   then [OpNode (py_str env label) name] else []))
               (w_vector w) (w_collections w) log').
Proof.
  unfold _create_node, try_except, node_served.
  change ({["name" := name]} : Props) with (name_props name).
  rewrite merge_node_unfold. unfold mbind, M_bind.
  destruct (graph_fault env (node_query (py_str env label) (name_props name))
                        (name_props name)) as [e|] eqn:Hf.
  - rewrite (session_run_fault _ _ _ _ _ Hf). simpl. eauto.
  - destruct (exec_node_query (py_str env label) (name_props name) (w_graph w))
      as [rows He].
    rewrite (session_run_served _ _ _ _ _ _ Hf He). simpl. eauto.
Qed.

Lemma create_relationship_run (env : Env) (t : Triple) (w : World) :
  ∃ log',
    _create_relationship env t w
    = (Return (bool_decide (is_Some (rel_served env t))),
       mkWorld (foldl op_effect (w_graph w)
                  (match rel_served env t with
                   | Some set =>
                       [OpRel (py_str env (subject_type t)) (subject t)
                              (py_str env (object_type t)) (object t)
                              (py_str env (predicate t)) set]
                   | None => []
                   end))
               (w_vector w) (w_collections w) log').
Proof.
  unfold _create_relationship, try_except, rel_served.
  unfold mbind at 1, M_bind, lift.
  destruct (rel_props_of (properties t)) as [rp|e]; simpl.
  - change ({["name" := subject t]} : Props) with (name_props (subject t)).
    change ({["name" := object t]} : Props) with (name_props (object t)).
    unfold mbind at 1, M_bind.
    destruct (graph_fault env _ _) as [e|] eqn:Hf.
    + rewrite (merge_relationship_fault _ _ _ _ _ _ _ _ _ Hf). simpl. eauto.
    + rewrite (merge_relationship_served _ _ _ _ _ _ _ _ Hf). simpl. eauto.
  - unfold mbind, M_bind, log. simpl. eauto.
Qed.

Lemma merge_triples_run (env : Env) (ts : list Triple) (r : IngestionResult) (w : World) :
  ∃ log',
    merge_triples env ts r w
    = (Return (mkIngestionResult (success r)
                 (nodes_created r + count_nodes env ts)
                 (relationships_created r + count_rels env ts)
                 (documents_added r) (errors r)),
       mkWorld (foldl op_effect (w_graph w) (concat (triple_ops env <$> ts)))
               (w_vector w) (w_collections w) log').
Proof.
  revert r w. induction ts as [|t ts IH]; intros r w.
  - exists (w_log w). simpl. unfold count_nodes, count_rels. simpl.
    rewrite !Nat.add_0_r. by destruct r, w.
  - simpl. unfold mbind at 1, M_bind.
    destruct (create_node_run env (subject_type t) (subject t) w) as [l1 ->].
    unfold mbind at 1, M_bind.
    match goal with
    | |- context [_create_node env ?a ?b ?w'] =>
        destruct (create_node_run env a b w') as [l2 ->]
    end.
    unfold mbind at 1, M_bind.
    match goal with
    | |- context [_create_relationship env t ?w'] =>
        destruct (create_relationship_run env t w') as [l3 ->]
    end.
    match goal with
    | |- context [merge_triples env ts ?r' ?w'] =>
        destruct (IH r' w') as [l4 ->]
    end.
    exists l4. simpl. f_equal.
    + f_equal. f_equal.
      * unfold count_nodes, count_if. rewrite fmap_cons. simpl.
        destruct (node_served env (subject_type t) (subject t)),
                 (node_served env (object_type t) (object t)); lia.
      * unfold count_rels, count_if. rewrite fmap_cons. simpl.
        destruct (rel_served env t); simpl; lia.
    + f_equal. unfold triple_ops. rewrite !foldl_app. done.
Qed.

(** ** vector_db.py: storing one document *)

Lemma get_collection_run (name : string) (w : World) :
  get_collection name w
  = (Return name,
     if bool_decide (name ∈ w_collections w) then w
     else mkWorld (w_graph w) (ensure_collection name (w_vector w))
                  ({[name]} ∪ w_collections w) (w_log w)).
Proof.
  unfold get_collection, mbind, M_bind, get_collections, get_vector, ensure_collection.
  simpl. case_bool_decide; [done|].
  destruct (w_vector w !! name); simpl; [|done]. by destruct w.
Qed.

Lemma collection_add_single (env : Env) (name text id : string) (meta : Props) (w : World) :
  collection_add env name [text] [id] (Some [meta]) w
  = match vector_add_fault env name [text] [id] (Some [meta]) with
    | Some e => (Raise e, w)
    | None =>
        match w_vector w !! name with
        | None =>
            (Raise (mkExn OtherException ("Collection " +:+ name +:+ " does not exist.")), w)
        | Some coll =>
            if vector_add_existing_raises env && bool_decide (is_Some (coll !! id))
            then (Raise (mkExn OtherException "ID already exists"), w)
            else (Return (),
                  mkWorld (w_graph w) (<[name := add_one id text meta coll]> (w_vector w))
                          (w_collections w) (w_log w))
        end
    end.
Proof.
  unfold collection_add, mbind, M_bind, check_fault, get_vector.
  destruct (vector_add_fault env name [text] [id] (Some [meta])); simpl; [done|].
  destruct (w_vector w !! name) as [coll|]; simpl; [|done].
  rewrite orb_false_r.
  destruct (vector_add_existing_raises env && bool_decide (is_Some (coll !! id))); [done|].
  unfold put_vector, add_one. simpl. by destruct (coll !! id).
Qed.

(** Storing one document: only the vector store and the cache of
    collections change; storing the same document again changes nothing
    more; a document that the store takes is there afterwards, as the only
    one when the collection was empty. *)
Lemma add_documents_single (env : Env) (name text id : string) (meta : Props) (w : World) :
  ∃ o v1 c1,
    add_documents env name [text] [id] (Some [meta]) w
    = (o, mkWorld (w_graph w) v1 c1 (w_log w))
    ∧ (∀ g l, ∃ o', add_documents env name [text] [id] (Some [meta]) (mkWorld g v1 c1 l)
                    = (o', mkWorld g v1 c1 l))
    ∧ (∀ g l, add_documents env name [text] [id] (Some [meta])
                (mkWorld g (w_vector w) (w_collections w) l)
              = (o, mkWorld g v1 c1 l))
    ∧ (o = Return () →
       ∃ coll, v1 !! name = Some coll ∧ is_Some (coll !! id)
               ∧ (default ∅ (w_vector w !! name) = ∅ →
                  coll = {[ id := mkVDoc text (Some meta) ]})).
Proof.
  unfold add_documents, mbind, M_bind.
  assert (∀ g l v c,
            name ∈ c →
            let w' := mkWorld g v c l in
            (∀ coll, v !! name = Some coll →
                     vector_add_fault env name [text] [id] (Some [meta]) = None →
                     vector_add_existing_raises env && bool_decide (is_Some (coll !! id)) = false →
                     is_Some (coll !! id)) →
            ∃ o', match get_collection name w' with
                  | (Return a, w'') => collection_add env a [text] [id] (Some [meta]) w''
                  | (Raise e, w'') => (Raise e, w'')
                  end = (o', w')) as Hagain.
  { intros g l v c Hc w' Hin. rewrite get_collection_run. simpl.
    rewrite bool_decide_true by done. rewrite collection_add_single. simpl.
    destruct (vector_add_fault env name [text] [id] (Some [meta])) eqn:Hf; [eauto|].
    destruct (v !! name) as [coll|] eqn:Hv; [|eauto].
    destruct (vector_add_existing_raises env && bool_decide (is_Some (coll !! id))) eqn:Hp;
      [eauto|].
    destruct (Hin coll eq_refl eq_refl Hp) as [d Hd].
    exists (Return ()). unfold w', add_one. rewrite Hd. by rewrite insert_id. }
  rewrite get_collection_run.
  set (w0 := if bool_decide (name ∈ w_collections w) then w else _).
  assert (name ∈ w_collections w0) as Hc0.
  { unfold w0. case_bool_decide; [done|]. simpl. set_solver. }
  assert (w_graph w0 = w_graph w ∧ w_log w0 = w_log w
          ∧ default ∅ (w_vector w0 !! name) = default ∅ (w_vector w !! name)) as (Hg0 & Hl0 & Hd0).
  { unfold w0. case_bool_decide; [done|]. simpl. unfold ensure_collection.
    destruct (w_vector w !! name) eqn:E; simpl; [by rewrite E|].
    by rewrite lookup_insert_eq. }
  assert (∀ g l, (if bool_decide (name ∈ w_collections w)
                  then mkWorld g (w_vector w) (w_collections w) l
                  else mkWorld g (ensure_collection name (w_vector w))
                               ({[name]} ∪ w_collections w) l)
                 = mkWorld g (w_vector w0) (w_collections w0) l) as Hw0.
  { intros g l. unfold w0. by case_bool_decide. }
  rewrite collection_add_single.
  destruct (vector_add_fault env name [text] [id] (Some [meta])) as [e|] eqn:Hf.
  { exists (Raise e), (w_vector w0), (w_collections w0).
    split; [by rewrite <- Hg0, <- Hl0, world_eta|]. split.
    - intros g l. apply Hagain; [done|]. intros; congruence.
    - split; [|done]. intros g l. rewrite get_collection_run. simpl. rewrite Hw0.
      rewrite collection_add_single. by rewrite Hf. }
  destruct (w_vector w0 !! name) as [coll|] eqn:Hv.
  2:{ eexists _, (w_vector w0), (w_collections w0).
      split; [by rewrite <- Hg0, <- Hl0, world_eta|]. split.
      - intros g l. apply Hagain; [done|]. intros; congruence.
      - split; [|done]. intros g l. rewrite get_collection_run. simpl. rewrite Hw0.
        rewrite collection_add_single. rewrite Hf. simpl. by rewrite Hv. }
  destruct (vector_add_existing_raises env && bool_decide (is_Some (coll !! id))) eqn:Hp.
  { eexists _, (w_vector w0), (w_collections w0).
    split; [by rewrite <- Hg0, <- Hl0, world_eta|]. split.
    - intros g l. apply Hagain; [done|]. intros coll' Hc' _ Hp'.
      rewrite Hv in Hc'. injection Hc' as <-. by rewrite Hp in Hp'.
    - split; [|done]. intros g l. rewrite get_collection_run. simpl. rewrite Hw0.
      rewrite collection_add_single. rewrite Hf. simpl. by rewrite Hv, Hp. }
  eexists (Return ()), (<[name := add_one id text meta coll]> (w_vector w0)), (w_collections w0).
  split; [by rewrite Hg0, Hl0|]. split; [|split].
  - intros g l. apply Hagain; [done|]. intros coll' Hc' _ _.
    rewrite lookup_insert_eq in Hc'. injection Hc' as <-.
    unfold add_one. destruct (coll !! id) eqn:E; [by rewrite E|].
    by rewrite lookup_insert_eq.
  - intros g l. rewrite get_collection_run. simpl. rewrite Hw0.
    rewrite collection_add_single. rewrite Hf. simpl. by rewrite Hv, Hp.
  - intros _. exists (add_one id text meta coll). split; [by rewrite lookup_insert_eq|].
    split.
    + unfold add_one. destruct (coll !! id) eqn:E; [by rewrite E|].
      by rewrite lookup_insert_eq.
    + simpl in Hd0. rewrite <- Hd0. intros ->. unfold add_one.
      rewrite lookup_empty. by rewrite insert_empty.
Qed.

(** ** pipeline.py: [ingest_text] *)

Lemma bind_return {A B} (m : M A) (f : A → M B) (w w' : World) (a : A) :
  m w = (Return a, w') → (m ≫= f) w = f a w'.
Proof. intros H. unfold mbind, M_bind. by rewrite H. Qed.

Lemma bind_raise {A B} (m : M A) (f : A → M B) (w w' : World) (e : Exn) :
  m w = (Raise e, w') → (m ≫= f) w = (Raise e, w').
Proof. intros H. unfold mbind, M_bind. by rewrite H. Qed.

Lemma extract_run (env : Env) (normalize : bool) (text : string) :
  ∃ x, extraction_outcome env normalize text x
       ∧ ∀ w, ∃ l, extract env normalize text w
                   = (Return x, mkWorld (w_graph w) (w_vector w) (w_collections w) l).
Proof.
  unfold extract, extraction_outcome, try_except, mbind, M_bind, lift.
  destruct (llm_invoke env (_build_prompt text)) as [response|e]; simpl.
  - destruct (_parse_response env normalize response) as [ts|e]; simpl.
    + eexists. split; [|intros w; eexists; reflexivity]. done.
    + eexists. split; [|intros w; eexists; reflexivity].
      split; [done|]. apply (extract_failure e text).
  - eexists. split; [|intros w; eexists; reflexivity].
    split; [done|]. apply (extract_failure e text).
Qed.

Lemma report_extraction_error_run (x : ExtractionResult) (r : IngestionResult) (w : World) :
  ∃ l, report_extraction_error x r w
       = (Return (mkIngestionResult (success r) (nodes_created r) (relationships_created r)
                    (documents_added r) (errors r ++ extraction_errors x)),
          mkWorld (w_graph w) (w_vector w) (w_collections w) l).
Proof.
  unfold report_extraction_error, extraction_errors.
  destruct (opt_str_truthy (error x)); simpl.
  - eexists. reflexivity.
  - exists (w_log w). rewrite app_nil_r. by destruct r, w.
Qed.

Lemma add_to_graph_run (env : Env) (injected : bool) (x : ExtractionResult)
    (r : IngestionResult) (w : World) :
  match connect_blocked env injected (triples x) with
  | Some e => add_to_graph env injected x r w = (Raise e, w)
  | None =>
      ∃ l, add_to_graph env injected x r w
           = (Return (mkIngestionResult
                        (match close_failure env injected (triples x) with
                         | Some _ => false
                         | None => success r
                         end)
                        (nodes_created r + count_nodes env (triples x))
                        (relationships_created r + count_rels env (triples x))
                        (documents_added r)
                        (errors r ++ close_errors (close_failure env injected (triples x)))),
              mkWorld (foldl op_effect (w_graph w) (concat (triple_ops env <$> triples x)))
                      (w_vector w) (w_collections w) l)
  end.
Proof.
  unfold add_to_graph, connect_blocked, close_failure.
  destruct (triples x) as [|t ts] eqn:Hts.
  - exists (w_log w). simpl. unfold count_nodes, count_rels. simpl.
    rewrite !Nat.add_0_r, app_nil_r. by destruct r, w.
  - rewrite <- Hts. clear Hts t ts.
    assert (∃ l, (r' ← merge_triples env (triples x) r;
                        try_except
                          (_ ← (if injected then mret ()
                                else check_fault (graph_close_fault env));
                           mret r')
                          (λ e,
                             _ ← log ERROR ("Graph database error: " +:+ exn_str e);
                             mret (mkIngestionResult false (nodes_created r')
                                     (relationships_created r') (documents_added r')
                                     (errors r' ++ ["Graph database error: " +:+ exn_str e]))))
                         w
                       = (Return (mkIngestionResult
                                    (match (if injected then None else graph_close_fault env) with
                                     | Some _ => false
                                     | None => success r
                                     end)
                                    (nodes_created r + count_nodes env (triples x))
                                    (relationships_created r + count_rels env (triples x))
                                    (documents_added r)
                                    (errors r ++ close_errors
                                       (if injected then None else graph_close_fault env))),
                          mkWorld (foldl op_effect (w_graph w)
                                     (concat (triple_ops env <$> triples x)))
                                  (w_vector w) (w_collections w) l)) as Hloop.
    { unfold mbind at 1, M_bind.
      destruct (merge_triples_run env (triples x) r w) as [l2 ->].
      unfold try_except, mbind, M_bind. simpl.
      destruct injected; simpl; [rewrite app_nil_r; eauto|].
      destruct (graph_close_fault env); simpl; [eauto|]. rewrite app_nil_r. eauto. }
    destruct injected; simpl.
    + unfold mbind at 1, M_bind. simpl. apply Hloop.
    + destruct (graph_connect_fault env) as [e|]; [done|].
      unfold mbind at 1, M_bind. simpl. apply Hloop.
Qed.

Lemma add_to_vector_run (env : Env) (cname text : string) (metadata : option Props)
    (r : IngestionResult) (w : World) :
  ∃ o v1 c1 l,
    add_to_vector env cname text (default ∅ metadata) r w
    = (Return (mkIngestionResult (success r) (nodes_created r) (relationships_created r)
                 (match o with Return _ => 1%nat | Raise _ => documents_added r end)
                 (errors r ++ vector_errors o)),
       mkWorld (w_graph w) v1 c1 l)
    ∧ ∀ g l', add_documents env cname [text] [_generate_doc_id text]
                (Some [stored_metadata metadata])
                (mkWorld g (w_vector w) (w_collections w) l')
              = (o, mkWorld g v1 c1 l').
Proof.
  destruct (add_documents_single env cname text (_generate_doc_id text)
              (stored_metadata metadata) w) as (o & v1 & c1 & Hrun & _ & Hadd & _).
  exists o, v1, c1. unfold add_to_vector, try_except, mbind, M_bind.
  fold (stored_metadata metadata). rewrite Hrun.
  destruct o as [[]|e]; simpl; eexists; (split; [|done]); by rewrite ?app_nil_r.
Qed.

(** What [ingest_text] does: it raises only when the graph manager cannot
    be made; otherwise the graph has gone through the merges the server
    ran, the vector store through one [add_documents], and the result is
    the report. *)
Lemma ingest_text_run (env : Env) (normalize injected : bool) (cname text : string)
    (metadata : option Props) :
  ∃ x, extraction_outcome env normalize text x ∧
  ∀ w,
    match connect_blocked env injected (triples x) with
    | Some e =>
        ∃ l, ingest_text env normalize injected cname text metadata w
             = (Raise e, mkWorld (w_graph w) (w_vector w) (w_collections w) l)
    | None =>
        ∃ o v1 c1 l,
          ingest_text env normalize injected cname text metadata w
          = (Return (ingestion_report env injected x o),
             mkWorld (foldl op_effect (w_graph w) (concat (triple_ops env <$> triples x)))
                     v1 c1 l)
          ∧ ∀ g l', add_documents env cname [text] [_generate_doc_id text]
                      (Some [stored_metadata metadata])
                      (mkWorld g (w_vector w) (w_collections w) l')
                    = (o, mkWorld g v1 c1 l')
    end.
Proof.
  destruct (extract_run env normalize text) as (x & Hx & Hrun).
  exists x. split; [done|]. intros w.
  destruct (Hrun w) as [l0 H0].
  destruct (report_extraction_error_run x (mkIngestionResult true 0 0 0 [])
              (mkWorld (w_graph w) (w_vector w) (w_collections w) l0)) as [l1 H1].
  match type of H1 with
  | _ = (Return ?r, ?w') => pose proof (add_to_graph_run env injected x r w') as Hg
  end.
  unfold ingest_text.
  rewrite (bind_return _ _ _ _ _ H0), (bind_return _ _ _ _ _ H1).
  destruct (connect_blocked env injected (triples x)) as [e|].
  - rewrite (bind_raise _ _ _ _ _ Hg). eauto.
  - destruct Hg as [l2 Hg]. rewrite (bind_return _ _ _ _ _ Hg).
    match goal with
    | |- context [add_to_vector env cname text (default ∅ metadata) ?r ?w'] =>
        destruct (add_to_vector_run env cname text metadata r w')
          as (o & v1 & c1 & l3 & -> & Hadd)
    end.
    exists o, v1, c1, l3. split; [|exact Hadd].
    unfold ingestion_report. destruct o; simpl; by rewrite <- ?app_assoc.
Qed.

(** What [ingest_text] reports: it raises only when the graph manager it
    needs cannot be made; [success] is false exactly when leaving the graph
    session raised; the errors are the extraction error, the error of the
    graph session and the error of the vector store; the counters count the
    merges the server ran. *)
Lemma ingest_text_report (env : Env) (normalize injected : bool) (cname text : string)
    (metadata : option Props) (w : World) :
  ∃ x, extraction_outcome env normalize text x ∧
    match ingest_text env normalize injected cname text metadata w with
    | (Raise e, _) => connect_blocked env injected (triples x) = Some e
    | (Return r, _) =>
        connect_blocked env injected (triples x) = None
        ∧ (success r = false ↔ is_Some (close_failure env injected (triples x)))
        ∧ errors r = extraction_errors x
                     ++ close_errors (close_failure env injected (triples x))
                     ++ vector_errors (vector_outcome env cname text metadata w)
        ∧ (∀ msg, error x = Some msg → msg ≠ EmptyString → head (errors r) = Some msg)
        ∧ (∀ e, vector_outcome env cname text metadata w = Raise e →
                last (errors r) = Some ("Vector database error: " +:+ exn_str e))
        ∧ (length (errors r) ≤ 3)%nat
        ∧ nodes_created r = count_nodes env (triples x)
        ∧ relationships_created r = count_rels env (triples x)
        ∧ documents_added r = match vector_outcome env cname text metadata w with
                              | Return _ => 1%nat
                              | Raise _ => 0%nat
                              end
    end.
Proof.
  destruct (ingest_text_run env normalize injected cname text metadata) as (x & Hx & Hrun).
  exists x. split; [done|]. specialize (Hrun w).
  destruct (connect_blocked env injected (triples x)) as [e|].
  - by destruct Hrun as [l ->].
  - destruct Hrun as (o & v1 & c1 & l & -> & Hadd). split; [done|].
    assert (vector_outcome env cname text metadata w = o) as ->.
    { unfold vector_outcome. specialize (Hadd (w_graph w) (w_log w)).
      rewrite world_eta in Hadd. by rewrite Hadd. }
    unfold ingestion_report. simpl. split.
    { destruct (close_failure env injected (triples x)).
      - split; [intros _; eauto|done].
      - split; [done|]. intros [? ?]. done. }
    split; [done|]. split.
    { intros msg Hmsg Hne. unfold extraction_errors. rewrite Hmsg. simpl.
      by destruct msg. }
    split.
    { intros e ->. simpl. by rewrite !app_assoc, last_snoc. }
    split; [|done].
    rewrite !length_app. unfold extraction_errors, close_errors, vector_errors.
    destruct (opt_str_truthy (error x)), (close_failure env injected (triples x)), o;
      simpl; lia.
Qed.

(** A store that answers takes a document whose id it does not hold. *)
Lemma add_documents_fresh (env : Env) (name text id : string) (meta : Props) (w : World) :
  vector_add_fault env name [text] [id] (Some [meta]) = None →
  (name ∈ w_collections w → is_Some (w_vector w !! name)) →
  default ∅ (w_vector w !! name) !! id = None →
  (add_documents env name [text] [id] (Some [meta]) w).1 = Return ().
Proof.
  intros Hf Hcache Hid. unfold add_documents, mbind, M_bind.
  rewrite get_collection_run, collection_add_single, Hf.
  assert (∀ coll : Collection, coll !! id = None →
            vector_add_existing_raises env && bool_decide (is_Some (coll !! id)) = false)
    as Hnew.
  { intros coll Hc. rewrite Hc, bool_decide_eq_false_2; [apply andb_false_r|].
    by intros [? ?]. }
  case_bool_decide as Hin; simpl.
  - destruct (Hcache Hin) as [coll Hv]. rewrite Hv in *. simpl in Hid.
    by rewrite (Hnew coll Hid).
  - unfold ensure_collection.
    destruct (w_vector w !! name) as [coll|] eqn:Hv; simpl in *.
    + rewrite Hv. by rewrite (Hnew coll Hid).
    + rewrite lookup_insert_eq. by rewrite (Hnew ∅ Hid).
Qed.

Lemma connect_allowed (env : Env) (injected : bool) (ts : list Triple) :
  injected = true ∨ graph_connect_fault env = None →
  connect_blocked env injected ts = None.
Proof. unfold connect_blocked. destruct ts; [done|]. by intros [->| ->]; [|destruct injected]. Qed.

(** C1.  Ingesting a text a second time, with the same services, leaves the
    stores as the first ingestion left them: the nodes of the graph and the
    keys of its relationships are the same, so are their counts, and the
    vector store is the same.  The document is stored under
    [_generate_doc_id text], which depends on the text alone; when the
    first ingestion stored it, it is in the collection afterwards.  When
    the vector store answers the request, the graph manager can be had and
    the collection is empty (or not there yet), the first ingestion returns
    with one document added, the collection then holds that document alone,
    under that id, and the count is one after the first ingestion and after
    the second. *)
Theorem ingest_text_twice (env : Env) (normalize injected : bool) (cname text : string)
    (metadata : option Props) (w : World) :
  let run := ingest_text env normalize injected cname text metadata in
  let w1 := (run w).2 in
  let w2 := (run w1).2 in
  g_nodes (w_graph w2) = g_nodes (w_graph w1)
  ∧ edge_keys (w_graph w2) = edge_keys (w_graph w1)
  ∧ node_count w2 = node_count w1
  ∧ edge_count w2 = edge_count w1
  ∧ w_vector w2 = w_vector w1
  ∧ doc_count cname w2 = doc_count cname w1
  ∧ (∀ r1, (run w).1 = Return r1 → documents_added r1 = 1%nat →
           (∃ coll, w_vector w1 !! cname = Some coll
                    ∧ is_Some (coll !! _generate_doc_id text))
           ∧ (doc_count cname w = 0%nat →
              doc_count cname w1 = 1%nat ∧ doc_count cname w2 = 1%nat))
  ∧ (vector_add_fault env cname [text] [_generate_doc_id text]
       (Some [stored_metadata metadata]) = None →
     (injected = true ∨ graph_connect_fault env = None) →
     (cname ∈ w_collections w → is_Some (w_vector w !! cname)) →
     doc_count cname w = 0%nat →
     (∃ r1, (run w).1 = Return r1 ∧ documents_added r1 = 1%nat)
     ∧ w_vector w1 !! cname
       = Some {[ _generate_doc_id text := mkVDoc text (Some (stored_metadata metadata)) ]}
     ∧ doc_count cname w1 = 1%nat
     ∧ doc_count cname w2 = 1%nat).
Proof.
  intros run w1 w2.
  destruct (ingest_text_run env normalize injected cname text metadata) as (x & Hx & Hrun).
  pose proof (Hrun w) as H1. pose proof (Hrun w1) as H2.
  assert (g_nodes (w_graph w2) = g_nodes (w_graph w1)
          ∧ edge_keys (w_graph w2) = edge_keys (w_graph w1)
          ∧ w_vector w2 = w_vector w1
          ∧ (∀ r1, (run w).1 = Return r1 → documents_added r1 = 1%nat →
                   ∃ coll, w_vector w1 !! cname = Some coll
                           ∧ is_Some (coll !! _generate_doc_id text)
                           ∧ (default ∅ (w_vector w !! cname) = ∅ →
                              coll = {[ _generate_doc_id text
                                        := mkVDoc text (Some (stored_metadata metadata)) ]})))
    as (Hn & Hk & Hv & Hdoc).
  { unfold w2, w1 in *. fold run in H1, H2.
    destruct (connect_blocked env injected (triples x)) as [e|].
    - destruct H1 as [l1 E1]. rewrite E1 in *. simpl in *.
      destruct H2 as [l2 E2]. rewrite E2. simpl. repeat split; try done.
    - destruct H1 as (o1 & v1 & c1 & l1 & E1 & Hadd1). rewrite E1 in *. simpl in *.
      destruct H2 as (o2 & v2 & c2 & l2 & E2 & Hadd2). rewrite E2. simpl.
      destruct (ops_twice (concat (triple_ops env <$> triples x)) (w_graph w)) as [Hn Hk].
      split; [done|]. split; [done|].
      destruct (add_documents_single env cname text (_generate_doc_id text)
                  (stored_metadata metadata) w) as (o & v & c & Hrun1 & Hagain & _ & Hin).
      specialize (Hadd1 (w_graph w) (w_log w)). rewrite world_eta, Hrun1 in Hadd1.
      injection Hadd1 as -> -> ->.
      destruct (Hagain (w_graph w) (w_log w)) as [o' Hagain'].
      rewrite (Hadd2 (w_graph w) (w_log w)) in Hagain'.
      injection Hagain' as _ -> _. split; [done|].
      intros r1 [= <-] Hr1. apply Hin.
      unfold ingestion_report in Hr1. simpl in Hr1. by destruct o1 as [[]|]. }
  split; [done|]. split; [done|].
  split; [unfold node_count; by rewrite Hn|].
  split.
  { unfold edge_count. apply (f_equal length) in Hk. unfold edge_keys in Hk.
    by rewrite !length_fmap in Hk. }
  split; [done|]. split; [unfold doc_count; by rewrite Hv|].
  assert (∀ r1, (run w).1 = Return r1 → documents_added r1 = 1%nat →
                doc_count cname w = 0%nat →
                w_vector w1 !! cname
                = Some {[ _generate_doc_id text
                          := mkVDoc text (Some (stored_metadata metadata)) ]}
                ∧ doc_count cname w1 = 1%nat ∧ doc_count cname w2 = 1%nat) as Hone.
  { intros r1 Hr1 Hadded Hzero.
    destruct (Hdoc r1 Hr1 Hadded) as (coll & Hc & Hid & Hsingle).
    unfold doc_count in *. apply map_size_empty_inv in Hzero.
    rewrite Hv, Hc. simpl. rewrite (Hsingle Hzero).
    split; [done|]. split; apply map_size_singleton. }
  split.
  { intros r1 Hr1 Hadded. destruct (Hdoc r1 Hr1 Hadded) as (coll & Hc & Hid & _).
    split; [eauto|]. intros Hzero. by destruct (Hone r1 Hr1 Hadded Hzero) as (_ & ? & ?). }
  intros Hfault Hconnect Hcache Hzero.
  assert (∃ r1, (run w).1 = Return r1 ∧ documents_added r1 = 1%nat) as (r1 & Hr1 & Hadded).
  { rewrite (connect_allowed env injected (triples x) Hconnect) in H1.
    destruct H1 as (o1 & v1 & c1 & l1 & E1 & Hadd1).
    specialize (Hadd1 (w_graph w) (w_log w)). rewrite world_eta in Hadd1.
    pose proof (add_documents_fresh env cname text (_generate_doc_id text)
                  (stored_metadata metadata) w Hfault Hcache) as Hfresh.
    rewrite Hadd1 in Hfresh. simpl in Hfresh.
    unfold doc_count in Hzero. apply map_size_empty_inv in Hzero.
    rewrite Hzero, lookup_empty in Hfresh. specialize (Hfresh eq_refl). subst o1.
    eexists. fold run in E1. rewrite E1. by split. }
  split; [eauto|]. by apply (Hone r1).
Qed.

Lemma ingest_text_twice_witness :
  let env := services (λ _, Return json_two_items)
                      (loads_only json_two_items data_two_items) in
  let text := "TechFlow Inc. manufactures FlowChips" in
  let run := ingest_text env true true "supply_chain" text None in
  let w1 := (run empty_world).2 in
  let w2 := (run w1).2 in
  (∃ r1, (run empty_world).1 = Return r1 ∧ documents_added r1 = 1%nat)
  ∧ w_vector w1 !! "supply_chain"
    = Some {[ _generate_doc_id text := mkVDoc text (Some (stored_metadata None)) ]}
  ∧ doc_count "supply_chain" w1 = 1%nat
  ∧ doc_count "supply_chain" w2 = 1%nat.
Proof.
  intros env text run w1 w2.
  refine (proj2 (proj2 (proj2 (proj2 (proj2 (proj2 (proj2
            (ingest_text_twice env true true "supply_chain" text None empty_world)))))))
            _ _ _ _).
  - reflexivity.
  - left. reflexivity.
  - intros H. exfalso. revert H. apply not_elem_of_empty.
  - reflexivity.
Defined.


(** ** Retrieval when the graph store is unreachable *)

Lemma query_similar_log (env : Env) (cname query : string) (n : Z) (where_ : option Props)
    (w : World) (l : list (LogLevel * string)) :
  query_similar env cname query n where_
    (mkWorld (w_graph w) (w_vector w) (w_collections w) l)
  = ((query_similar env cname query n where_ w).1,
     mkWorld (w_graph (query_similar env cname query n where_ w).2)
             (w_vector (query_similar env cname query n where_ w).2)
             (w_collections (query_similar env cname query n where_ w).2) l).
Proof.
  unfold query_similar, mbind, M_bind. rewrite !get_collection_run. simpl.
  case_bool_decide; simpl.
  - destruct (w_vector w !! cname) as [coll|]; simpl; [|done].
    unfold lift. destruct (vector_query env coll query n where_) as [results|e]; simpl; [|done].
    destruct (qr_ids results); simpl; [done|].
    by destruct (similar_docs results 0 l0).
  - destruct (ensure_collection cname (w_vector w) !! cname) as [coll|]; simpl; [|done].
    unfold lift. destruct (vector_query env coll query n where_) as [results|e]; simpl; [|done].
    destruct (qr_ids results); simpl; [done|].
    by destruct (similar_docs results 0 l0).
Qed.

Lemma session_run_unreachable (env : Env) (q : Query) (params : Props) (w : World) :
  graph_unreachable env → ∃ e, session_run env q params w = (Raise e, w).
Proof.
  intros H. destruct (H q params) as [e He]. exists e. by apply session_run_fault.
Qed.

(** With the graph store unreachable, a traversal that has an entity to
    look up raises, and leaves the world as it was. *)
Lemma traverse_unreachable (env : Env) (entity_label : string → string)
    (path_of_row : Row → GraphPath) (entities : list string) (w : World) :
  graph_unreachable env → entities ≠ [] →
  ∃ e, traverse env entity_label path_of_row entities w = (Raise e, w).
Proof.
  intros Hdown Hne. unfold traverse.
  destruct entities as [|a [|b rest]]; [done| |].
  - unfold find_neighbors.
    destruct (session_run_unreachable env
                (CypherNeighbors (entity_label a)
                   (prop_pattern EmptyString {[ "name" := PyStr a ]}) 2)
                {[ "name" := PyStr a ]} w Hdown) as [e He].
    exists e. by rewrite (bind_raise _ _ _ _ _ He).
  - simpl entity_pairs. rewrite fmap_cons. simpl sequence.
    rewrite get_paths_between_unfold.
    destruct (session_run_unreachable env
                (paths_query (entity_label a) {[ "name" := PyStr a ]}
                             (entity_label b) {[ "name" := PyStr b ]} 3)
                (rel_params {[ "name" := PyStr a ]} {[ "name" := PyStr b ]} None)
                w Hdown) as [e He].
    exists e. simpl. rewrite (bind_raise _ _ _ _ _ (bind_raise _ _ _ _ _ (bind_raise _ _ _ _ _ He))).
    done.
Qed.

(** C5, on the retriever modelled from the specification.  With the graph
    store unreachable, [retrieve] with the graph included raises no
    exception of the graph store: when the vector store answers the query
    with hits, it returns a result whose graph paths are empty, whose graph
    context is empty and whose vector chunks are the documents of the hits,
    one per hit; when there was an entity to look up, a warning is
    recorded; and the retrieval step of [main] returns the same result
    without its own fallback. *)
Theorem retrieve_degraded (env : Env) (cname : string)
    (detect_mentions : string → list string) (entity_label : string → string)
    (path_of_row : Row → GraphPath) (query : string) (w w1 : World)
    (hits : list SimilarDoc) :
  graph_unreachable env →
  query_similar env cname query 5 None w = (Return hits, w1) →
  hits ≠ [] →
  ∃ r w',
    retrieve env cname detect_mentions entity_label path_of_row query true w
    = (Return r, w')
    ∧ main_retrieve env cname detect_mentions entity_label path_of_row query true w
      = (Return r, w')
    ∧ graph_paths r = []
    ∧ graph_context r = EmptyString
    ∧ vector_chunks r = (λ hit, default EmptyString (sd_document hit)) <$> hits
    ∧ vector_chunks r ≠ []
    ∧ w_graph w' = w_graph w
    ∧ (query_entities detect_mentions query ≠ [] →
       ∃ msg, (WARNING, msg) ∈ w_log w').
Proof.
  intros Hdown Hq Hhits.
  assert (∃ l, (if true
                then try_except (traverse env entity_label path_of_row
                                   (query_entities detect_mentions query))
                       (λ e,
                          _ ← log WARNING
                                ("Graph traversal failed, falling back to vector-only results: "
                                 +:+ exn_str e);
                          mret [])
                else mret []) w
               = (Return ([] : list GraphPath),
                  mkWorld (w_graph w) (w_vector w) (w_collections w) l)
               ∧ (query_entities detect_mentions query ≠ [] → ∃ msg, (WARNING, msg) ∈ l))
    as (l & Hpaths & Hwarn).
  { destruct (decide (query_entities detect_mentions query = [])) as [E|E].
    - exists (w_log w). rewrite E. unfold try_except, traverse. simpl.
      rewrite world_eta. split; [done|]. intros H. by destruct H.
    - destruct (traverse_unreachable env entity_label path_of_row _ w Hdown E) as [e He].
      unfold try_except. rewrite He. unfold mbind, M_bind, log. simpl.
      eexists. split; [done|]. intros _. eexists. apply elem_of_app. right. by left. }
  assert (w_graph w1 = w_graph w) as Hg.
  { assert (w_graph (query_similar env cname query 5 None w).2 = w_graph w) as H.
    { unfold query_similar, mbind, M_bind. rewrite get_collection_run. simpl.
      case_bool_decide; simpl.
      - destruct (w_vector w !! cname) as [coll|]; simpl; [|done].
        unfold lift. destruct (vector_query env coll query 5 None) as [results|e]; simpl; [|done].
        destruct (qr_ids results); simpl; [done|]. by destruct (similar_docs results 0 l0).
      - destruct (ensure_collection cname (w_vector w) !! cname) as [coll|]; simpl; [|done].
        unfold lift. destruct (vector_query env coll query 5 None) as [results|e]; simpl; [|done].
        destruct (qr_ids results); simpl; [done|]. by destruct (similar_docs results 0 l0). }
    by rewrite Hq in H. }
  pose proof (query_similar_log env cname query 5 None w l) as Hq'.
  rewrite Hq in Hq'. simpl in Hq'.
  assert (retrieve env cname detect_mentions entity_label path_of_row query true w
          = (Return (mkRetrievalResult query (query_entities detect_mentions query)
                       ((λ hit, default EmptyString (sd_document hit)) <$> hits) []
                       EmptyString),
             mkWorld (w_graph w1) (w_vector w1) (w_collections w1) l)) as Hr.
  { unfold retrieve. rewrite (bind_return _ _ _ _ _ Hpaths).
    rewrite (bind_return _ _ _ _ _ Hq'). done. }
  eexists _, _. split; [exact Hr|]. split.
  { unfold main_retrieve, try_except. by rewrite Hr. }
  simpl. repeat split; try done.
  destruct hits; [done|]. by rewrite fmap_cons.
Qed.

Lemma retrieve_degraded_witness :
  let env := graph_down one_hit in
  let query := "How is TechFlow connected to Singapore" in
  graph_unreachable env
  ∧ (query_similar env "supply_chain" query 5 None empty_world).1
    = Return [mkSimilarDoc "doc_1" (Some "TechFlow operates in Singapore.") None None]
  ∧ ∃ r w',
      retrieve env "supply_chain" capitalised_words (λ _, "Company") example_path_of_row
        query true empty_world = (Return r, w')
      ∧ main_retrieve env "supply_chain" capitalised_words (λ _, "Company")
          example_path_of_row query true empty_world = (Return r, w')
      ∧ graph_paths r = []
      ∧ graph_context r = EmptyString
      ∧ vector_chunks r
        = (λ hit, default EmptyString (sd_document hit))
            <$> [mkSimilarDoc "doc_1" (Some "TechFlow operates in Singapore.") None None]
      ∧ vector_chunks r ≠ []
      ∧ w_graph w' = w_graph empty_world
      ∧ (query_entities capitalised_words query ≠ [] →
         ∃ msg, (WARNING, msg) ∈ w_log w').
Proof.
  intros env query.
  assert (graph_unreachable env) as Hdown by (intros q params; eexists; reflexivity).
  split; [exact Hdown|]. split; [vm_compute; reflexivity|].
  eapply (retrieve_degraded env "supply_chain" capitalised_words (λ _, "Company")
            example_path_of_row query empty_world
            (query_similar env "supply_chain" query 5 None empty_world).2
            [mkSimilarDoc "doc_1" (Some "TechFlow operates in Singapore.") None None]).
  - exact Hdown.
  - vm_compute. reflexivity.
  - discriminate.
Defined.

Example retrieve_degraded_run :
  let env := graph_down one_hit in
  let out := retrieve env "supply_chain" capitalised_words (λ _, "Company")
               example_path_of_row "How is TechFlow connected to Singapore" true
               empty_world in
  out.1 = Return (mkRetrievalResult "How is TechFlow connected to Singapore"
                    ["how"; "techflow"; "singapore"]
                    ["TechFlow operates in Singapore."] [] EmptyString)
  ∧ w_log out.2
    = [(WARNING,
        "Graph traversal failed, falling back to vector-only results: "
        +:+ "Unable to retrieve routing information")].
Proof. split; vm_compute; reflexivity. Qed.

(** ** Document ids *)

Example md5_empty : MD5.hexdigest [] = "d41d8cd98f00b204e9800998ecf8427e".
Proof. vm_compute. reflexivity. Qed.

Example md5_abc :
  MD5.hexdigest (list_ascii_of_string "abc") = "900150983cd24fb0d6963f7d28e17f72".
Proof. vm_compute. reflexivity. Qed.

Example md5_two_blocks :
  MD5.hexdigest (replicate 64 "a"%char) = "014842d480b571495a4a0363793f7367"
  ∧ MD5.hexdigest (replicate 56 "a"%char) = "3b0c8ac703f828b04c6c197006d17218"
  ∧ MD5.hexdigest (replicate 119 "a"%char) = "8a7bd0732ed6a28ce75f6dabc90e1613".
Proof. repeat split; vm_compute; reflexivity. Qed.

Example doc_id_techflow :
  _generate_doc_id "TechFlow Inc. manufactures FlowChips in Singapore."
  = "doc_6e7ed7f6010d".
Proof. vm_compute. reflexivity. Qed.

(** ** Ingestion: examples *)

Example ingest_twice_run :
  let env := services (λ _, Return json_two_items)
                      (loads_only json_two_items data_two_items) in
  let run := ingest_text env true true "supply_chain"
               "TechFlow Inc. manufactures FlowChips" None in
  let w1 := (run empty_world).2 in
  let w2 := (run w1).2 in
  (run empty_world).1 = Return (mkIngestionResult true 2 1 1 [])
  ∧ (run w1).1 = Return (mkIngestionResult true 2 1 1 [])
  ∧ graph_summary w1
    = ([("Company", Some (PyStr "techflow")); ("Product", Some (PyStr "flowchips"))],
       [(0%nat, "MANUFACTURES", 1%nat)])
  ∧ graph_summary w2 = graph_summary w1
  ∧ doc_count "supply_chain" w1 = 1%nat
  ∧ doc_count "supply_chain" w2 = 1%nat.
Proof. repeat split; vm_compute; reflexivity. Qed.

(** C8, as stated, fails: with the graph store unreachable the three merges
    of the one triple fail, each is logged, and none is put into the errors
    of the result, which stay empty; [success] stays true. *)
Lemma merge_failures_not_reported :
  let env := graph_down_services (λ _, Return json_two_items)
                                 (loads_only json_two_items data_two_items) in
  let out := ingest_text env true true "supply_chain"
               "TechFlow Inc. manufactures FlowChips" None empty_world in
  out.1 = Return (mkIngestionResult true 0 0 1 [])
  ∧ List.filter (λ record, bool_decide (record.1 = ERROR)) (w_log out.2)
    = [(ERROR, "Failed to create node Company:techflow: "
               +:+ "Unable to retrieve routing information");
       (ERROR, "Failed to create node Product:flowchips: "
               +:+ "Unable to retrieve routing information");
       (ERROR, "Failed to create relationship MANUFACTURES: "
               +:+ "Unable to retrieve routing information")]
  ∧ ¬ (∀ r, out.1 = Return r → (nodes_created r < 2)%nat → errors r ≠ []).
Proof.
  intros env out.
  assert (out.1 = Return (mkIngestionResult true 0 0 1 [])) as H
    by (vm_compute; reflexivity).
  split; [exact H|]. split; [vm_compute; reflexivity|].
  intros Hclaim. apply (Hclaim _ H); simpl; [lia|done].
Qed.

Example ingest_no_json :
  let env := services (λ _, Return "This is not valid JSON")
                      (loads_only EmptyString PyNone) in
  (ingest_text env true true "supply_chain" "Some text" None empty_world).1
  = Return (mkIngestionResult true 0 0 1
              ["No JSON object found in response: This is not valid JSON"]).
Proof. vm_compute. reflexivity. Qed.

(** ** pipeline.py: [ingest_file] *)

Lemma gather_returns {A} (tasks : list (M A)) (w : World) :
  ∃ rs w', gather tasks w = (Return rs, w').
Proof.
  revert w. induction tasks as [|task rest IH]; intros w; simpl; [by eexists _, _|].
  unfold mbind at 1, M_bind.
  destruct (task w) as [[a|e] w1]; unfold mbind at 1, M_bind;
    destruct (IH w1) as (rs & w' & ->); simpl; by eexists _, _.
Qed.

Lemma aggregate_success (results : list (IngestionResult + Exn)) (r : IngestionResult) :
  success (foldl aggregate r results) = success r.
Proof.
  revert r. induction results as [|x results IH]; intros r; simpl; [done|].
  rewrite IH. by destruct x.
Qed.

Lemma ingest_batches_success (env : Env) (normalize injected : bool) (cname : string)
    (fuel : nat) (file_path : string) (batch_size i : nat) (lines : list string)
    (r : IngestionResult) (w : World) :
  ∃ r' w', ingest_batches env normalize injected cname fuel file_path batch_size i lines r w
           = (Return r', w')
           ∧ success r' = success r.
Proof.
  revert i lines r w. induction fuel as [|fuel IH]; intros i lines r w; simpl.
  - by eexists _, _.
  - destruct lines as [|line lines]; [by eexists _, _|].
    unfold mbind at 1, M_bind.
    match goal with
    | |- context [gather ?tasks w] => destruct (gather_returns tasks w) as (rs & w1 & ->)
    end.
    match goal with
    | |- context [ingest_batches env normalize injected cname fuel file_path batch_size
                    ?i' ?ls ?r' w1] =>
        destruct (IH i' ls r' w1) as (r2 & w2 & -> & Hs)
    end.
    eexists _, _. split; [done|]. by rewrite Hs, aggregate_success.
Qed.

(** [ingest_file] reports a file that cannot be read by [success] false and
    one error, without processing anything; for a file that is read and a
    positive batch size it returns a result whose [success] is true,
    whatever happened to the lines. *)
Lemma ingest_file_success (env : Env) (normalize injected : bool) (cname file_path : string)
    (batch_size : Z) (w : World) :
  match read_lines env file_path with
  | Raise e =>
      ingest_file env normalize injected cname file_path batch_size w
      = (Return (mkIngestionResult false 0 0 0 ["Failed to read file: " +:+ exn_str e]), w)
  | Return _ =>
      0 < batch_size →
      ∃ r w', ingest_file env normalize injected cname file_path batch_size w
              = (Return r, w')
              ∧ success r = true
  end.
Proof.
  unfold ingest_file. destruct (read_lines env file_path) as [lines|e]; [|done].
  intros Hb. unfold mbind at 1, M_bind, log. simpl.
  destruct (batch_size =? 0) eqn:E0; [lia|].
  destruct (batch_size <? 0) eqn:E1; [lia|].
  unfold mbind at 1, M_bind.
  match goal with
  | |- context [ingest_batches env normalize injected cname ?f file_path ?b ?i ?ls ?r ?w0] =>
      destruct (ingest_batches_success env normalize injected cname f file_path b i ls r w0)
        as (r' & w' & -> & Hs)
  end.
  unfold mbind, M_bind. simpl. eexists _, _. split; [done|]. done.
Qed.

(** C8, as the code has it.  [ingest_text] raises only when the graph
    manager it needs cannot be made.  In the result it returns otherwise,
    [success] is false exactly when leaving the graph session raised (the
    driver of a manager made for the call could not be closed).  The errors
    are, in this order and each present only when it occurred: the error
    text of the extraction when that text is not empty (it is then the
    first error), the error of the graph session, and the error of the
    vector store whenever [add_documents] raised (it is then the last
    error, and no document is counted); none of them sets [success] to
    false but the second.  A node or relationship merge that fails is
    skipped and not propagated; it adds nothing to the errors: it only is
    not counted in [nodes_created] or [relationships_created], which count
    the merges the server ran.  [ingest_file] sets [success] to false when
    the file cannot be read, and returns [success] true for a file it
    read, whatever happened to the lines. *)
Theorem ingestion_success_and_errors (env : Env) (normalize injected : bool)
    (cname text : string) (metadata : option Props) (file_path : string)
    (batch_size : Z) (w : World) :
  (∃ x, extraction_outcome env normalize text x ∧
     match ingest_text env normalize injected cname text metadata w with
     | (Raise e, _) => connect_blocked env injected (triples x) = Some e
     | (Return r, _) =>
         connect_blocked env injected (triples x) = None
         ∧ (success r = false ↔ is_Some (close_failure env injected (triples x)))
         ∧ errors r = extraction_errors x
                      ++ close_errors (close_failure env injected (triples x))
                      ++ vector_errors (vector_outcome env cname text metadata w)
         ∧ (∀ msg, error x = Some msg → msg ≠ EmptyString → head (errors r) = Some msg)
         ∧ (∀ e, vector_outcome env cname text metadata w = Raise e →
                 last (errors r) = Some ("Vector database error: " +:+ exn_str e))
         ∧ (length (errors r) ≤ 3)%nat
         ∧ nodes_created r = count_nodes env (triples x)
         ∧ relationships_created r = count_rels env (triples x)
         ∧ documents_added r = match vector_outcome env cname text metadata w with
                               | Return _ => 1%nat
                               | Raise _ => 0%nat
                               end
     end)
  ∧ match read_lines env file_path with
    | Raise e =>
        ingest_file env normalize injected cname file_path batch_size w
        = (Return (mkIngestionResult false 0 0 0 ["Failed to read file: " +:+ exn_str e]), w)
    | Return _ =>
        0 < batch_size →
        ∃ r w', ingest_file env normalize injected cname file_path batch_size w
                = (Return r, w')
                ∧ success r = true
    end.
Proof.
  split; [apply ingest_text_report|apply ingest_file_success].
Qed.

(** * Further properties of the code *)

(** ** The normaliser: normal forms *)

Lemma collapse_ws_single (b : bool) (l : list ascii) :
  single_blanks b (collapse_ws b l).
Proof.
  revert b. induction l as [|c l IH]; intros b; simpl; [done|].
  destruct (is_space c) eqn:E.
  - destruct b; [apply IH|]. simpl. split; [done|]. split; [done|]. apply IH.
  - simpl. rewrite E. apply IH.
Qed.

Lemma single_blanks_fix (b : bool) (l : list ascii) :
  single_blanks b l → collapse_ws b l = l.
Proof.
  revert b. induction l as [|c l IH]; intros b; simpl; [done|].
  destruct (is_space c) eqn:E.
  - intros (-> & -> & H). f_equal. by apply IH.
  - intros H. f_equal. by apply IH.
Qed.

Lemma single_blanks_weaken (b : bool) (l : list ascii) :
  single_blanks b l → single_blanks false l.
Proof.
  destruct l as [|c l]; simpl; [done|].
  destruct (is_space c); [|done]. by intros (_ & -> & H).
Qed.

Lemma single_blanks_prefix (b : bool) (l1 l2 : list ascii) :
  single_blanks b (l1 ++ l2) → single_blanks b l1.
Proof.
  revert b. induction l1 as [|c l1 IH]; intros b; simpl; [done|].
  destruct (is_space c).
  - intros (? & ? & H). eauto.
  - apply IH.
Qed.

Lemma single_blanks_suffix (b : bool) (l1 l2 : list ascii) :
  single_blanks b (l1 ++ l2) → single_blanks false l2.
Proof.
  revert b. induction l1 as [|c l1 IH]; intros b; simpl.
  - apply single_blanks_weaken.
  - destruct (is_space c).
    + intros (? & ? & H). eauto.
    + apply IH.
Qed.

Lemma lstrip_chars_suffix (l : list ascii) : lstrip_chars l `suffix_of` l.
Proof.
  induction l as [|c l IH]; simpl; [done|].
  destruct (is_space c); [by apply suffix_cons_r|done].
Qed.

Lemma lstrip_chars_no_lead (l : list ascii) : no_lead (lstrip_chars l).
Proof.
  induction l as [|c l IH]; simpl; [done|].
  destruct (is_space c) eqn:E; [done|]. simpl. done.
Qed.

Lemma lstrip_chars_fix (l : list ascii) : no_lead l → lstrip_chars l = l.
Proof. destruct l as [|c l]; simpl; [done|]. by intros ->. Qed.

Lemma lstrip_chars_app (a b : list ascii) (c : ascii) :
  is_space c = false → lstrip_chars (a ++ c :: b) = lstrip_chars a ++ c :: b.
Proof.
  intros Hc. induction a as [|x a IH]; simpl; [by rewrite Hc|].
  destruct (is_space x); done.
Qed.

Lemma strip_chars_infix (l : list ascii) :
  ∃ pre post, l = pre ++ strip_chars l ++ post.
Proof.
  unfold strip_chars.
  destruct (lstrip_chars_suffix l) as [pre Hpre].
  destruct (lstrip_chars_suffix (rev (lstrip_chars l))) as [post Hpost].
  exists pre, (rev post).
  assert (lstrip_chars l = rev (lstrip_chars (rev (lstrip_chars l))) ++ rev post) as E.
  { rewrite <- rev_app_distr, <- Hpost. by rewrite rev_involutive. }
  by rewrite <- E.
Qed.

Lemma strip_chars_fix (l : list ascii) :
  no_lead l → no_lead (rev l) → strip_chars l = l.
Proof.
  intros H1 H2. unfold strip_chars.
  rewrite (lstrip_chars_fix l H1), (lstrip_chars_fix _ H2). apply rev_involutive.
Qed.

Lemma strip_chars_no_lead (l : list ascii) :
  no_lead (strip_chars l) ∧ no_lead (rev (strip_chars l)).
Proof.
  unfold strip_chars. rewrite rev_involutive. split; [|apply lstrip_chars_no_lead].
  pose proof (lstrip_chars_no_lead l) as H.
  destruct (lstrip_chars l) as [|c m]; [done|]. simpl in H.
  simpl. rewrite lstrip_chars_app by done.
  rewrite rev_app_distr. simpl. done.
Qed.

Lemma strip_chars_idemp (l : list ascii) : strip_chars (strip_chars l) = strip_chars l.
Proof. destruct (strip_chars_no_lead l). by apply strip_chars_fix. Qed.

Lemma lower_char_idemp (c : ascii) : lower_char (lower_char c) = lower_char c.
Proof. by destruct c as [[] [] [] [] [] [] [] []]. Qed.

Lemma list_ascii_str_map (f : ascii → ascii) (s : string) :
  list_ascii_of_string (str_map f s) = f <$> list_ascii_of_string s.
Proof. induction s as [|c s IH]; simpl; [done|]. by rewrite IH. Qed.

Lemma str_map_fix (f : ascii → ascii) (s : string) :
  Forall (λ c, f c = c) (list_ascii_of_string s) → str_map f s = s.
Proof.
  induction s as [|c s IH]; simpl; [done|].
  intros H. apply Forall_cons in H as [-> H]. f_equal. by apply IH.
Qed.

Lemma collapse_ws_lower (b : bool) (l : list ascii) :
  Forall (λ c, lower_char c = c) l → Forall (λ c, lower_char c = c) (collapse_ws b l).
Proof.
  revert b. induction l as [|c l IH]; intros b H; simpl; [done|].
  apply Forall_cons in H as [Hc H].
  destruct (is_space c); [destruct b|]; try apply Forall_cons; auto.
Qed.

Lemma lower_single_infix (pre l post : list ascii) :
  lower_single (pre ++ l ++ post) → lower_single l.
Proof.
  intros [Hl Hs]. split.
  - apply Forall_app in Hl as [_ Hl]. by apply Forall_app in Hl as [Hl _].
  - apply single_blanks_suffix in Hs. by apply single_blanks_prefix in Hs.
Qed.

Lemma prefix_ci_suffix (p l rest : list ascii) :
  prefix_ci p l = Some rest → rest `suffix_of` l.
Proof.
  revert l. induction p as [|a p IH]; intros [|c l]; simpl; try done.
  - by intros [= <-].
  - by intros [= <-].
  - destruct (Ascii.eqb _ _); [|done]. intros H. apply suffix_cons_r. by apply IH.
Qed.

Lemma match_lit_back_suffix (lit : string) (r rest : list ascii) :
  match_lit_back lit r = Some rest → rest `suffix_of` r.
Proof.
  unfold match_lit_back.
  destruct (prefix_ci _ r) as [[|c r'']|] eqn:E; try done.
  destruct (is_space c); [|done]. intros [= <-].
  apply prefix_ci_suffix in E. etrans; [|exact E].
  apply suffix_cons_r, lstrip_chars_suffix.
Qed.

Lemma match_suffix_back_suffix (p : SuffixPattern) (r rest : list ascii) :
  match_suffix_back p r = Some rest → rest `suffix_of` r.
Proof.
  assert (match_suffix_back p r = match_lit_back (sp_lit p) r
          ∨ ∃ r', r = "."%char :: r'
                  ∧ match_suffix_back p r = match_lit_back (sp_lit p) r'
                  ∧ is_Some (match_lit_back (sp_lit p) r')) as [->| (r' & -> & -> & _)].
  { unfold match_suffix_back.
    destruct r as [|[[] [] [] [] [] [] [] []] r']; cbv beta iota; auto.
    destruct (sp_dot p); [|auto].
    destruct (match_lit_back (sp_lit p) r') eqn:E; [|auto].
    right. exists r'. eauto. }
  - apply match_lit_back_suffix.
  - intros H. apply suffix_cons_r. by apply match_lit_back_suffix in H.
Qed.

Lemma list_string_list (l : list ascii) :
  list_ascii_of_string (string_of_list_ascii l) = l.
Proof. apply list_ascii_of_string_of_list_ascii. Qed.

Lemma re_sub_suffix_prefix (p : SuffixPattern) (s : string) :
  single_blanks false (list_ascii_of_string s) →
  list_ascii_of_string (re_sub_suffix p s) `prefix_of` list_ascii_of_string s.
Proof.
  intros Hs.
  assert (∀ r rest, rev (list_ascii_of_string s) = r →
                    match_suffix_back p r = Some rest →
                    rev rest `prefix_of` list_ascii_of_string s) as Hcut.
  { intros r rest Hr Hm. apply match_suffix_back_suffix in Hm as [pre ->].
    exists (rev pre). by rewrite <- rev_app_distr, <- Hr, rev_involutive. }
  unfold re_sub_suffix.
  destruct (rev (list_ascii_of_string s)) as [|c r'] eqn:Hr.
  { destruct (match_suffix_back p []) eqn:E; [|done].
    rewrite list_string_list. by apply (Hcut [] _). }
  destruct (decide (c = "010"%char)) as [->|Hc].
  - exfalso. apply (f_equal (@rev _)) in Hr. rewrite rev_involutive in Hr. simpl in Hr.
    rewrite Hr in Hs. apply single_blanks_suffix in Hs. simpl in Hs.
    by destruct Hs as (_ & ? & _).
  - pose proof (Hcut (c :: r')) as Hcut'.
    destruct c as [[] [] [] [] [] [] [] []]; try done;
      (destruct (match_suffix_back p _) eqn:E;
       [rewrite list_string_list; by apply Hcut'|done]).
Qed.

Lemma fold_suffixes_prefix (ps : list SuffixPattern) (s : string) :
  lower_single (list_ascii_of_string s) →
  list_ascii_of_string
    (fold_left (λ acc suffix_pattern, re_sub_suffix suffix_pattern acc) ps s)
  `prefix_of` list_ascii_of_string s.
Proof.
  revert s. induction ps as [|p ps IH]; intros s Hs; simpl; [done|].
  pose proof (re_sub_suffix_prefix p s (proj2 Hs)) as Hp.
  etrans; [apply IH|exact Hp].
  destruct Hp as [post Hp]. rewrite Hp in Hs.
  apply (lower_single_infix [] _ post). exact Hs.
Qed.

Lemma py_strip_chars (s : string) :
  list_ascii_of_string (py_strip s) = strip_chars (list_ascii_of_string s).
Proof. apply list_string_list. Qed.

Lemma string_of_list_inj (s t : string) :
  list_ascii_of_string s = list_ascii_of_string t → s = t.
Proof.
  intros H. rewrite <- (string_of_list_ascii_of_string s), H.
  apply string_of_list_ascii_of_string.
Qed.

Lemma normalize_entity_name_unfold (name : string) :
  normalize_entity_name name
  = if negb (str_truthy name) then EmptyString
    else py_strip
           (fold_left (λ acc suffix_pattern, re_sub_suffix suffix_pattern acc)
                      COMPANY_SUFFIXES (re_sub_ws (py_lower (py_strip name)))).
Proof. reflexivity. Qed.

Lemma normalize_chars (name : string) :
  let l := list_ascii_of_string (normalize_entity_name name) in
  lower_single l ∧ no_lead l ∧ no_lead (rev l).
Proof.
  rewrite normalize_entity_name_unfold.
  destruct (str_truthy name); cbn [negb]; [|by repeat split].
  set (s2 := re_sub_ws (py_lower (py_strip name))).
  assert (lower_single (list_ascii_of_string s2)) as H2.
  { unfold s2, re_sub_ws. rewrite list_string_list. split.
    - apply collapse_ws_lower. unfold py_lower. rewrite list_ascii_str_map.
      apply Forall_fmap, Forall_true. intros c. apply lower_char_idemp.
    - apply collapse_ws_single. }
  pose proof (fold_suffixes_prefix COMPANY_SUFFIXES s2 H2) as [post Hp].
  set (s3 := fold_left _ COMPANY_SUFFIXES s2) in *.
  cbv zeta. rewrite py_strip_chars.
  destruct (strip_chars_infix (list_ascii_of_string s3)) as (a & b & Hab).
  split; [|apply strip_chars_no_lead].
  rewrite Hp, Hab in H2. rewrite <- !app_assoc in H2.
  by apply lower_single_infix in H2.
Qed.

(** The normal form of a name.  Whatever the name, its normalised form is
    in lower case, has no white space at either end, and has no white space
    but single blanks between words: lowering, stripping and collapsing it
    again change nothing. *)
Theorem normalize_entity_name_normal_form (name : string) :
  let normalized := normalize_entity_name name in
  py_lower normalized = normalized
  ∧ py_strip normalized = normalized
  ∧ re_sub_ws normalized = normalized.
Proof.
  intros normalized.
  destruct (normalize_chars name) as ([Hl Hs] & Hn & Hr). fold normalized in Hl, Hs, Hn, Hr.
  split; [by apply str_map_fix|]. split; apply string_of_list_inj.
  - rewrite py_strip_chars. by apply strip_chars_fix.
  - unfold re_sub_ws. rewrite list_string_list. by apply single_blanks_fix.
Qed.

(** Normalising twice.  When none of the suffix patterns matches the
    normalised form of a name (removing each changes nothing), normalising
    that form again gives it back: suffixes left in place are all that
    stands in the way of idempotence. *)
Theorem normalize_entity_name_idempotent_without_suffix (name : string) :
  Forall (λ suffix_pattern,
            re_sub_suffix suffix_pattern (normalize_entity_name name)
            = normalize_entity_name name)
         COMPANY_SUFFIXES →
  normalize_entity_name (normalize_entity_name name) = normalize_entity_name name.
Proof.
  destruct (normalize_chars name) as ([Hlower Hblanks] & Hlead & Htrail).
  assert (py_lower (normalize_entity_name name) = normalize_entity_name name) as Hl
    by (by apply str_map_fix).
  assert (py_strip (normalize_entity_name name) = normalize_entity_name name) as Hs.
  { apply string_of_list_inj. rewrite py_strip_chars. by apply strip_chars_fix. }
  assert (re_sub_ws (normalize_entity_name name) = normalize_entity_name name) as Hw.
  { apply string_of_list_inj. unfold re_sub_ws. rewrite list_string_list.
    by apply single_blanks_fix. }
  clear Hlower Hblanks Hlead Htrail.
  generalize dependent (normalize_entity_name name). intros normalized Hl Hs Hw Hno.
  rewrite normalize_entity_name_unfold.
  destruct (str_truthy normalized) eqn:E; cbn [negb]; [|by destruct normalized].
  rewrite Hs, Hl, Hw.
  assert (∀ ps, Forall (λ p, re_sub_suffix p normalized = normalized) ps →
                fold_left (λ acc p, re_sub_suffix p acc) ps normalized = normalized) as Hfold.
  { induction ps as [|p ps IH]; [done|].
    intros H. apply Forall_cons in H as [Hp H]. cbn [fold_left]. rewrite Hp. by apply IH. }
  by rewrite Hfold.
Qed.

Lemma normalize_entity_name_idempotent_without_suffix_witness :
  Forall (λ suffix_pattern,
            re_sub_suffix suffix_pattern (normalize_entity_name "Apple Inc.")
            = normalize_entity_name "Apple Inc.")
         COMPANY_SUFFIXES
  ∧ normalize_entity_name (normalize_entity_name "Apple Inc.")
    = normalize_entity_name "Apple Inc.".
Proof.
  assert (Forall (λ suffix_pattern,
                    re_sub_suffix suffix_pattern (normalize_entity_name "Apple Inc.")
                    = normalize_entity_name "Apple Inc.")
                 COMPANY_SUFFIXES) as H.
  { unfold COMPANY_SUFFIXES. repeat (apply List.Forall_cons; [vm_compute; reflexivity|]).
    apply List.Forall_nil. }
  split; [exact H|].
  exact (normalize_entity_name_idempotent_without_suffix "Apple Inc." H).
Defined.

(** ** pipeline.py: the document id *)

Lemma string_length_list (s : string) :
  String.length s = length (list_ascii_of_string s).
Proof. induction s as [|c s IH]; simpl; [done|]. by rewrite IH. Qed.

Lemma list_ascii_app (s t : string) :
  list_ascii_of_string (s +:+ t) = list_ascii_of_string s ++ list_ascii_of_string t.
Proof. induction s as [|c s IH]; [done|]. rewrite app_cons. simpl. by rewrite IH. Qed.

Lemma py_take_list (n : nat) (s : string) :
  list_ascii_of_string (py_take n s) = take n (list_ascii_of_string s).
Proof.
  unfold py_take. revert s. induction n as [|n IH]; intros [|c s]; simpl; try done.
  by rewrite IH.
Qed.

Lemma hex_digit_hex (x : Z) : 0 ≤ x < 16 → hex_char (MD5.hex_digit x) = true.
Proof.
  intros H.
  assert (x = 0 ∨ x = 1 ∨ x = 2 ∨ x = 3 ∨ x = 4 ∨ x = 5 ∨ x = 6 ∨ x = 7 ∨ x = 8
          ∨ x = 9 ∨ x = 10 ∨ x = 11 ∨ x = 12 ∨ x = 13 ∨ x = 14 ∨ x = 15) as Hx by lia.
  repeat destruct Hx as [->|Hx]; try subst x; reflexivity.
Qed.

Lemma hex_bytes_list (bs : list Z) :
  list_ascii_of_string (String.concat EmptyString (MD5.hex_byte <$> bs))
  = flat_map (λ b, [MD5.hex_digit (b / 16); MD5.hex_digit (b mod 16)]) bs.
Proof.
  induction bs as [|b bs IH]; [done|].
  destruct bs as [|b' bs]; [done|].
  change (String.concat EmptyString (MD5.hex_byte <$> b :: b' :: bs))
    with (MD5.hex_byte b +:+ EmptyString
          +:+ String.concat EmptyString (MD5.hex_byte <$> b' :: bs)).
  rewrite !list_ascii_app, IH. done.
Qed.

Lemma word_bytes_range (n : nat) (x : Z) :
  Forall (λ b, 0 ≤ b < 256) (MD5.word_bytes n x).
Proof.
  unfold MD5.word_bytes. apply Forall_fmap, Forall_true. intros i. simpl.
  change 255 with (Z.ones 8). rewrite Z.land_ones by lia.
  apply Z.mod_pos_bound. lia.
Qed.

Lemma hexdigest_chars (data : list ascii) :
  length (list_ascii_of_string (MD5.hexdigest data)) = 32%nat
  ∧ forallb hex_char (list_ascii_of_string (MD5.hexdigest data)) = true.
Proof.
  unfold MD5.hexdigest. generalize (MD5.digest ((λ c, Z.of_N (N_of_ascii c)) <$> data)).
  intros st. rewrite hex_bytes_list. split; [done|].
  apply forallb_forall, List.Forall_forall, Forall_flat_map.
  assert (Forall (λ b, 0 ≤ b < 256)
            (flat_map (MD5.word_bytes 4)
               [MD5.st_a st; MD5.st_b st; MD5.st_c st; MD5.st_d st])) as Hr.
  { apply Forall_flat_map, Forall_true. intros x. apply word_bytes_range. }
  eapply Forall_impl; [exact Hr|]. intros b Hb. simpl in *.
  apply List.Forall_cons; [|apply List.Forall_cons; [|apply List.Forall_nil]];
    apply hex_digit_hex; Z.div_mod_to_equations; lia.
Qed.

Lemma forallb_take {A} (f : A → bool) (n : nat) (l : list A) :
  forallb f l = true → forallb f (take n l) = true.
Proof.
  revert n. induction l as [|x l IH]; intros [|n]; simpl; try done.
  intros [-> H]%andb_true_iff. simpl. by apply IH.
Qed.

(** The document id.  Whatever the text, its id is [doc_] followed by
    twelve lower-case hexadecimal digits: sixteen characters. *)
Theorem generate_doc_id_format (text : string) :
  ∃ text_hash,
    _generate_doc_id text = "doc_" +:+ text_hash
    ∧ String.length text_hash = 12%nat
    ∧ forallb hex_char (list_ascii_of_string text_hash) = true
    ∧ String.length (_generate_doc_id text) = 16%nat.
Proof.
  destruct (hexdigest_chars (utf8_encode text)) as [Hlen Hhex].
  exists (py_take 12 (MD5.hexdigest (utf8_encode text))).
  split; [done|].
  assert (String.length (py_take 12 (MD5.hexdigest (utf8_encode text))) = 12%nat) as H12.
  { rewrite string_length_list, py_take_list, length_take. lia. }
  split; [done|]. split.
  - rewrite py_take_list. by apply forallb_take.
  - unfold _generate_doc_id. rewrite string_length_list, list_ascii_app, length_app.
    rewrite <- (string_length_list (py_take _ _)), H12. done.
Qed.

(** ** extractor.py: the JSON object of a response *)

Lemma elem_of_rev (c : ascii) (l : list ascii) : c ∈ rev l ↔ c ∈ l.
Proof. rewrite !list_elem_of_In. symmetry. apply in_rev. Qed.

Lemma drop_until_Some (c : ascii) (l l' : list ascii) :
  drop_until c l = Some l' →
  ∃ pre rest, l = pre ++ c :: rest ∧ l' = c :: rest ∧ c ∉ pre.
Proof.
  induction l as [|x l IH]; simpl; [done|].
  destruct (Ascii.eqb x c) eqn:E.
  - apply Ascii.eqb_eq in E as ->. intros [= <-]. exists [], l.
    split; [done|]. split; [done|]. apply not_elem_of_nil.
  - intros H. destruct (IH H) as (pre & rest & -> & -> & Hpre).
    exists (x :: pre), rest. split; [done|]. split; [done|].
    apply Ascii.eqb_neq in E. apply not_elem_of_cons. split; [congruence|done].
Qed.

Lemma drop_until_None (c : ascii) (l : list ascii) :
  drop_until c l = None → c ∉ l.
Proof.
  induction l as [|x l IH]; simpl; [intros _; apply not_elem_of_nil|].
  destruct (Ascii.eqb x c) eqn:E; [done|].
  apply Ascii.eqb_neq in E. intros H. apply not_elem_of_cons. split; [congruence|auto].
Qed.

(** The JSON object of a response.  [_parse_response] takes the text from
    the first opening brace of the response to its last closing brace:
    nothing before it holds an opening brace, nothing after it a closing
    one.  It finds no object exactly when no closing brace stands after an
    opening brace. *)
Theorem search_json_object_span (response : string) :
  match search_json_object response with
  | Some json_str =>
      ∃ pre body post,
        list_ascii_of_string response = pre ++ "{"%char :: body ++ "}"%char :: post
        ∧ list_ascii_of_string json_str = "{"%char :: body ++ ["}"%char]
        ∧ ("{"%char ∉ pre) ∧ ("}"%char ∉ post)
  | None =>
      ¬ ∃ pre body post,
          list_ascii_of_string response = pre ++ "{"%char :: body ++ "}"%char :: post
  end.
Proof.
  unfold search_json_object.
  destruct (drop_until "{"%char (list_ascii_of_string response)) as [l'|] eqn:Hopen.
  - apply drop_until_Some in Hopen as (pre & after_open & Hr & -> & Hpre).
    destruct (drop_until "}"%char (rev after_open)) as [body_rev|] eqn:Hclose.
    + apply drop_until_Some in Hclose as (post_rev & rest & Hrev & -> & Hpost).
      apply (f_equal (@rev _)) in Hrev. rewrite rev_involutive, rev_app_distr in Hrev.
      simpl in Hrev. rewrite <- app_assoc in Hrev. simpl in Hrev.
      exists pre, (rev rest), (rev post_rev). rewrite list_string_list. simpl.
      split; [by rewrite Hr, Hrev|]. split; [done|]. split; [done|].
      by rewrite elem_of_rev.
    + apply drop_until_None in Hclose. rewrite elem_of_rev in Hclose.
      intros (pre' & body & post & Hr'). rewrite Hr in Hr'.
      apply app_eq_inv in Hr' as [(k & -> & Hk)|(k & -> & Hk)].
      * destruct k as [|x k]; simplify_eq/=.
        -- apply Hclose, elem_of_app. right. by left.
        -- apply Hpre, elem_of_app. right. by left.
      * apply Hclose. destruct k as [|x k]; simplify_eq/=.
        -- apply elem_of_app. right. by left.
        -- apply elem_of_app. right. right. apply elem_of_app. right. by left.
  - apply drop_until_None in Hopen.
    intros (pre & body & post & Hr). rewrite Hr in Hopen.
    apply Hopen, elem_of_app. right. by left.
Qed.

(** ** extractor.py: items and triples *)

Lemma build_triple_to_dict (t : Triple) : build_triple false (to_dict t) = Return t.
Proof. by destruct t. Qed.

Lemma parse_items_to_dict (ts acc : list Triple) :
  parse_items false (to_dict <$> ts) acc = Return (acc ++ List.filter triple_kept ts).
Proof.
  revert acc. induction ts as [|t ts IH]; intros acc; [by rewrite app_nil_r|].
  rewrite fmap_cons. cbn [parse_items]. rewrite build_triple_to_dict.
  unfold mbind, Outcome_bind. rewrite IH. cbn [List.filter].
  destruct (triple_kept t); [by rewrite <- app_assoc|done].
Qed.

(** Triples to dicts and back.  When the JSON object of a response decodes
    to the dicts [to_dict] gives for a list of triples, [_parse_response]
    without normalisation returns those triples, in order, but for the ones
    whose subject or object is empty, which it drops. *)
Theorem to_dict_parsed_back (env : Env) (response json_str : string) (ts : list Triple) :
  search_json_object response = Some json_str →
  json_loads env json_str = Return (PyDict [("triples", PyList (to_dict <$> ts))]) →
  _parse_response env false response = Return (List.filter triple_kept ts).
Proof.
  intros Hsearch Hloads. unfold _parse_response, response_items.
  rewrite Hsearch. unfold mbind, Outcome_bind. rewrite Hloads.
  apply (parse_items_to_dict ts []).
Qed.

Lemma to_dict_parsed_back_witness :
  let data := PyDict [("triples", PyList (to_dict <$> [triple_manufactures]))] in
  let env := services (λ _, Return json_manufactures)
                      (loads_only json_manufactures data) in
  search_json_object json_manufactures = Some json_manufactures
  ∧ json_loads env json_manufactures = Return data
  ∧ _parse_response env false json_manufactures = Return [triple_manufactures].
Proof.
  intros data env.
  assert (search_json_object json_manufactures = Some json_manufactures) as H1
    by (vm_compute; reflexivity).
  assert (json_loads env json_manufactures = Return data) as H2
    by (vm_compute; reflexivity).
  split; [exact H1|]. split; [exact H2|].
  exact (to_dict_parsed_back env json_manufactures json_manufactures
           [triple_manufactures] H1 H2).
Defined.

Lemma str_map_map (f g : ascii → ascii) (s : string) :
  str_map f (str_map g s) = str_map (λ c, f (g c)) s.
Proof. induction s as [|c s IH]; simpl; [done|]. by rewrite IH. Qed.

Lemma str_map_ext (f g : ascii → ascii) (s : string) :
  (∀ c, f c = g c) → str_map f s = str_map g s.
Proof. intros H. induction s as [|c s IH]; simpl; [done|]. by rewrite H, IH. Qed.

Lemma upper_snake_chars (s : string) :
  let p := py_replace_char " " "_" (py_upper s) in
  py_upper p = p ∧ py_replace_char " " "_" p = p.
Proof.
  unfold py_replace_char, py_upper. split.
  - rewrite !str_map_map. apply str_map_ext.
    intros c. by destruct c as [[] [] [] [] [] [] [] []].
  - rewrite !str_map_map. apply str_map_ext.
    intros c. by destruct c as [[] [] [] [] [] [] [] []].
Qed.

Lemma normalized_or_raw_str (v v' : PyVal) :
  normalized_or_raw v = Return v' → py_truthy v' = true →
  ∃ s, v' = PyStr s ∧ s ≠ EmptyString.
Proof.
  unfold normalized_or_raw, normalize_entity_value.
  destruct (py_truthy v) eqn:Hv; simpl.
  - destruct v; try discriminate. simpl.
    destruct (str_truthy (normalize_entity_name s)) eqn:Hn; intros [= <-] Ht.
    + eexists. split; [done|]. intros E. by rewrite E in Hn.
    + eexists. split; [done|]. intros ->. done.
  - intros [= <-] Ht. congruence.
Qed.

Lemma build_triple_strings (item : PyVal) (t : Triple) :
  build_triple true item = Return t → triple_kept t = true →
  ∃ s p o, subject t = PyStr s ∧ s ≠ EmptyString
           ∧ object t = PyStr o ∧ o ≠ EmptyString
           ∧ predicate t = PyStr p
           ∧ py_upper p = p ∧ py_replace_char " " "_" p = p.
Proof.
  unfold build_triple, triple_kept. outcome_simpl.
  destruct item; try discriminate. simpl.
  destruct (normalized_or_raw _) as [s'|] eqn:Hs; [|discriminate].
  destruct (upper_snake _) as [p'|] eqn:Hp; [|discriminate].
  destruct (normalized_or_raw (from_option id (PyStr EmptyString) (assoc_get "object" _)))
    as [o'|] eqn:Ho; [|discriminate].
  intros [= <-]. simpl. intros [Hts Hto]%andb_true_iff.
  destruct (normalized_or_raw_str _ _ Hs Hts) as (s & -> & Hsne).
  destruct (normalized_or_raw_str _ _ Ho Hto) as (o & -> & Hone).
  unfold upper_snake in Hp.
  destruct (from_option id (PyStr "RELATED_TO") _) as [| | | |q| |]; try discriminate.
  injection Hp as <-.
  destruct (upper_snake_chars q) as [Hu Hr].
  exists s, (py_replace_char " " "_" (py_upper q)), o. done.
Qed.

Lemma parse_items_strings (items : list PyVal) (acc ts : list Triple)
    (P : Triple → Prop) :
  (∀ item t, build_triple true item = Return t → triple_kept t = true → P t) →
  Forall P acc → parse_items true items acc = Return ts → Forall P ts.
Proof.
  intros HP. revert acc. induction items as [|item rest IH]; intros acc Hacc; simpl.
  - by intros [= <-].
  - outcome_simpl. destruct (build_triple true item) as [t|] eqn:Ht; [|discriminate].
    apply IH. destruct (triple_kept t) eqn:Hk; [|done].
    apply Forall_app. split; [done|]. apply Forall_singleton. by apply (HP item).
Qed.

(** Triples of a normalising extractor.  Whatever the JSON object holds,
    every triple [_parse_response] returns with normalisation on has a
    string that is not empty as subject and as object, and a string as
    predicate that has no lower-case letter and no blank: upper-casing it
    and replacing blanks again changes nothing. *)
Theorem parse_response_normalized_strings (env : Env) (response : string)
    (ts : list Triple) :
  _parse_response env true response = Return ts →
  Forall (λ t, ∃ s p o, subject t = PyStr s ∧ s ≠ EmptyString
                        ∧ object t = PyStr o ∧ o ≠ EmptyString
                        ∧ predicate t = PyStr p
                        ∧ py_upper p = p ∧ py_replace_char " " "_" p = p) ts.
Proof.
  unfold _parse_response. outcome_simpl.
  destruct (response_items env response) as [items|]; [|discriminate].
  apply parse_items_strings; [|done]. apply build_triple_strings.
Qed.

Lemma parse_response_normalized_strings_witness :
  let env := services (λ _, Return json_two_items)
                      (loads_only json_two_items data_two_items) in
  let t := mkTriple (PyStr "techflow") (PyStr "Company") (PyStr "MANUFACTURES")
                    (PyStr "flowchips") (PyStr "Product") (PyDict []) in
  _parse_response env true json_two_items = Return [t]
  ∧ Forall (λ t, ∃ s p o, subject t = PyStr s ∧ s ≠ EmptyString
                          ∧ object t = PyStr o ∧ o ≠ EmptyString
                          ∧ predicate t = PyStr p
                          ∧ py_upper p = p ∧ py_replace_char " " "_" p = p) [t].
Proof.
  intros env t.
  assert (_parse_response env true json_two_items = Return [t]) as H
    by (vm_compute; reflexivity).
  split; [exact H|].
  exact (parse_response_normalized_strings env json_two_items [t] H).
Defined.

Lemma build_triple_raises (normalize : bool) (item : PyVal) (e : Exn) :
  build_triple normalize item = Raise e → exn_class e = AttributeError.
Proof.
  unfold build_triple. outcome_simpl.
  destruct item; try (by intros [= <-]). simpl.
  destruct normalize; [|discriminate].
  assert (∀ v e', normalized_or_raw v = Raise e' → exn_class e' = AttributeError) as Hn.
  { intros v e'. unfold normalized_or_raw, normalize_entity_value.
    destruct (py_truthy v); simpl; [|discriminate].
    destruct v; simpl; try discriminate; by intros [= <-]. }
  destruct (normalized_or_raw _) as [s'|e1] eqn:Hs; [|intros [= <-]; by eapply Hn].
  destruct (upper_snake _) as [p'|e2] eqn:Hp.
  - destruct (normalized_or_raw (from_option id (PyStr EmptyString) (assoc_get "object" _)))
      as [o'|e3] eqn:Ho; [discriminate|]. intros [= <-]. by eapply Hn.
  - intros [= <-]. unfold upper_snake in Hp.
    destruct (from_option id (PyStr "RELATED_TO") _); try discriminate;
      by injection Hp as <-.
Qed.

Lemma build_triple_not_dict (normalize : bool) (item : PyVal) :
  not_dict item → build_triple normalize item = Raise (no_attribute item "get").
Proof. by destruct item. Qed.

Lemma parse_items_raises (normalize : bool) (items : list PyVal) (acc : list Triple) :
  Exists not_dict items →
  ∃ e, parse_items normalize items acc = Raise e ∧ exn_class e = AttributeError.
Proof.
  revert acc. induction items as [|item rest IH]; intros acc Hex.
  { by apply Exists_nil in Hex. }
  cbn [parse_items]. unfold mbind, Outcome_bind.
  destruct (build_triple normalize item) as [t|e] eqn:Ht.
  - apply IH. apply Exists_cons in Hex as [Hitem|Hrest]; [|done].
    rewrite (build_triple_not_dict _ _ Hitem) in Ht. discriminate.
  - exists e. split; [done|]. by eapply build_triple_raises.
Qed.

(** One bad item spoils the response.  When the [triples] array of the
    decoded object holds an item that is not an object, [extract] returns
    no triple at all, also not those of the well-formed items before it,
    and an error that starts with [Extraction failed: ]. *)
Theorem extract_all_or_nothing (env : Env) (normalize : bool)
    (text response json_str : string) (entries : list (string * PyVal))
    (items : list PyVal) (w : World) :
  llm_invoke env (_build_prompt text) = Return response →
  search_json_object response = Some json_str →
  json_loads env json_str = Return (PyDict entries) →
  assoc_get "triples" entries = Some (PyList items) →
  Exists not_dict items →
  ∃ msg w',
    extract env normalize text w
    = (Return (mkExtractionResult [] text (Some ("Extraction failed: " +:+ msg))), w').
Proof.
  intros Hllm Hsearch Hloads Hget Hex.
  destruct (parse_items_raises normalize items [] Hex) as (e & Hraise & Hclass).
  unfold extract, try_except, mbind, M_bind, lift, _parse_response, response_items.
  rewrite Hllm. simpl. rewrite Hsearch. unfold mbind, Outcome_bind.
  rewrite Hloads. simpl. rewrite Hget. simpl. rewrite Hraise.
  unfold isinstance_JSONDecodeError, isinstance_ValueError. rewrite Hclass. simpl.
  eauto.
Qed.

Lemma extract_all_or_nothing_witness :
  let items := [to_dict triple_manufactures; PyStr "TechFlow ships via Singapore"] in
  let entries := [("triples", PyList items)] in
  let env := services (λ _, Return json_bad_item)
                      (loads_only json_bad_item (PyDict entries)) in
  Exists not_dict items
  ∧ ∃ msg w',
      extract env true "Some text" empty_world
      = (Return (mkExtractionResult [] "Some text" (Some ("Extraction failed: " +:+ msg))),
         w').
Proof.
  intros items entries env.
  assert (Exists not_dict items) as Hex.
  { apply List.Exists_cons_tl, List.Exists_cons_hd. exact I. }
  split; [exact Hex|].
  refine (extract_all_or_nothing env true "Some text" json_bad_item json_bad_item
            entries items empty_world _ _ _ _ Hex).
  - reflexivity.
  - vm_compute; reflexivity.
  - vm_compute; reflexivity.
  - reflexivity.
Defined.

(** ** vector_db.py: the records of a query *)

Lemma similar_docs_shape (results : QueryResult) (i : nat) (ids : list string)
    (hits : list SimilarDoc) :
  similar_docs results i ids = Return hits →
  sd_id <$> hits = ids
  ∧ ∀ j hit, hits !! j = Some hit →
      first_at (qr_documents results) (i + j) = Return (sd_document hit)
      ∧ first_at (qr_distances results) (i + j) = Return (sd_distance hit)
      ∧ first_at (qr_metadatas results) (i + j) = Return (sd_metadata hit).
Proof.
  revert i hits. induction ids as [|doc_id rest IH]; intros i hits; simpl.
  - intros [= <-]. split; [done|]. intros j hit H. done.
  - outcome_simpl.
    destruct (first_at (qr_documents results) i) as [document|] eqn:Hd; [|discriminate].
    destruct (first_at (qr_distances results) i) as [distance|] eqn:Hs; [|discriminate].
    destruct (first_at (qr_metadatas results) i) as [metadata|] eqn:Hm; [|discriminate].
    destruct (similar_docs results (S i) rest) as [docs|] eqn:Hrest; [|discriminate].
    intros [= <-]. destruct (IH _ _ Hrest) as [Hids Hfields].
    split; [rewrite fmap_cons; simpl; by rewrite Hids|].
    intros [|j] hit Hhit; simpl in Hhit.
    + injection Hhit as <-. rewrite Nat.add_0_r. done.
    + replace (i + S j)%nat with (S i + j)%nat by lia. by apply Hfields.
Qed.

(** The records of a query.  When [query_similar] returns, it returns one
    record for each id of the first id list of the answer of the store, in
    that order ([[]] when the answer has no id list), and the document, the
    distance and the metadata of the record at a position are those of the
    first inner lists at that position, or [None] for a list the answer
    leaves out; the graph is not touched. *)
Theorem query_similar_shape (env : Env) (cname query_text : string) (n_results : Z)
    (where_ : option Props) (w w' : World) (hits : list SimilarDoc) :
  query_similar env cname query_text n_results where_ w = (Return hits, w') →
  ∃ coll results,
    w_vector w' !! cname = Some coll
    ∧ vector_query env coll query_text n_results where_ = Return results
    ∧ sd_id <$> hits = default [] (head (qr_ids results))
    ∧ (∀ i hit, hits !! i = Some hit →
         first_at (qr_documents results) i = Return (sd_document hit)
         ∧ first_at (qr_distances results) i = Return (sd_distance hit)
         ∧ first_at (qr_metadatas results) i = Return (sd_metadata hit))
    ∧ w_graph w' = w_graph w.
Proof.
  unfold query_similar, mbind, M_bind. rewrite get_collection_run.
  set (w0 := if bool_decide (cname ∈ w_collections w) then w else _).
  assert (w_graph w0 = w_graph w) as Hg by (unfold w0; by case_bool_decide).
  unfold get_vector. simpl.
  destruct (w_vector w0 !! cname) as [coll|] eqn:Hv; [|discriminate].
  unfold lift.
  destruct (vector_query env coll query_text n_results where_) as [results|] eqn:Hq;
    [|discriminate].
  destruct (qr_ids results) as [|first_ids others] eqn:Hids.
  - intros [= <- <-]. exists coll, results. rewrite Hids. repeat split; try done.
  - destruct (similar_docs results 0 first_ids) as [docs|] eqn:Hdocs; [|discriminate].
    intros [= <- <-]. exists coll, results. rewrite Hids. simpl.
    destruct (similar_docs_shape _ _ _ _ Hdocs) as [Hi Hf].
    repeat split; try done; by apply (Hf i hit).
Qed.

Lemma query_similar_shape_witness :
  let env := graph_down one_hit in
  let hits := [mkSimilarDoc "doc_1" (Some "TechFlow operates in Singapore.") None None] in
  let w' := (query_similar env "supply_chain" "TechFlow" 5 None empty_world).2 in
  query_similar env "supply_chain" "TechFlow" 5 None empty_world = (Return hits, w')
  ∧ ∃ coll results,
      w_vector w' !! "supply_chain" = Some coll
      ∧ vector_query env coll "TechFlow" 5 None = Return results
      ∧ sd_id <$> hits = default [] (head (qr_ids results))
      ∧ (∀ i hit, hits !! i = Some hit →
           first_at (qr_documents results) i = Return (sd_document hit)
           ∧ first_at (qr_distances results) i = Return (sd_distance hit)
           ∧ first_at (qr_metadatas results) i = Return (sd_metadata hit))
      ∧ w_graph w' = w_graph empty_world.
Proof.
  intros env hits w'.
  assert (query_similar env "supply_chain" "TechFlow" 5 None empty_world
          = (Return hits, w')) as H by (vm_compute; reflexivity).
  split; [exact H|].
  exact (query_similar_shape env "supply_chain" "TechFlow" 5 None empty_world w' hits H).
Defined.

(** ** pipeline.py: batch sizes that are not positive *)

(** Batch sizes that are not positive.  For a file that can be read,
    [ingest_file] with batch size 0 raises the [ValueError] of [range] to
    its caller, and with a negative batch size ingests no line at all: it
    returns a successful result with every counter at zero and no error,
    and leaves the stores as they were, whatever the file holds. *)
Theorem ingest_file_batch_size_not_positive (env : Env) (normalize injected : bool)
    (cname file_path : string) (batch_size : Z) (lines : list string) (w : World) :
  read_lines env file_path = Return lines →
  batch_size ≤ 0 →
  ∃ w',
    w_graph w' = w_graph w ∧ w_vector w' = w_vector w
    ∧ ingest_file env normalize injected cname file_path batch_size w
      = (if batch_size =? 0
         then Raise (mkExn ValueError "range() arg 3 must not be zero")
         else Return (mkIngestionResult true 0 0 0 []),
         w').
Proof.
  intros Hread Hsize. unfold ingest_file. rewrite Hread.
  unfold mbind, M_bind, log. cbv beta iota.
  destruct (batch_size =? 0) eqn:Hz.
  - unfold raise. eexists. split; [|split; [|reflexivity]]; done.
  - assert ((batch_size <? 0) = true) as -> by lia.
    unfold mret, M_ret. eexists. split; [|split; [|reflexivity]]; done.
Qed.

Lemma ingest_file_batch_size_not_positive_witness :
  let env := file_services ["TechFlow Inc. manufactures FlowChips"] in
  read_lines env "data/sample_supply_chain.txt"
  = Return ["TechFlow Inc. manufactures FlowChips"]
  ∧ (-1 ≤ 0)
  ∧ ∃ w',
      w_graph w' = w_graph empty_world ∧ w_vector w' = w_vector empty_world
      ∧ ingest_file env true true "supply_chain" "data/sample_supply_chain.txt" (-1)
          empty_world
        = (Return (mkIngestionResult true 0 0 0 []), w').
Proof.
  intros env. split; [reflexivity|]. split; [lia|].
  exact (ingest_file_batch_size_not_positive env true true "supply_chain"
           "data/sample_supply_chain.txt" (-1) ["TechFlow Inc. manufactures FlowChips"]
           empty_world eq_refl ltac:(lia)).
Defined.

(** ** pipeline.py: what [ingest_text] counts *)

Lemma ingest_text_run_extract (env : Env) (normalize injected : bool) (cname text : string)
    (metadata : option Props) :
  ∃ x, (∀ w, (extract env normalize text w).1 = Return x) ∧
  ∀ w,
    match connect_blocked env injected (triples x) with
    | Some e => (ingest_text env normalize injected cname text metadata w).1 = Raise e
    | None =>
        ∃ l,
          ingest_text env normalize injected cname text metadata w
          = (Return (ingestion_report env injected x
                       (vector_outcome env cname text metadata w)),
             mkWorld (foldl op_effect (w_graph w) (concat (triple_ops env <$> triples x)))
                     (w_vector (add_documents env cname [text] [_generate_doc_id text]
                                  (Some [stored_metadata metadata]) w).2)
                     (w_collections (add_documents env cname [text] [_generate_doc_id text]
                                       (Some [stored_metadata metadata]) w).2)
                     l)
    end.
Proof.
  destruct (extract_run env normalize text) as (x & Hx & Hrun).
  exists x. split.
  { intros w. destruct (Hrun w) as [l ->]. done. }
  intros w.
  destruct (Hrun w) as [l0 H0].
  destruct (report_extraction_error_run x (mkIngestionResult true 0 0 0 [])
              (mkWorld (w_graph w) (w_vector w) (w_collections w) l0)) as [l1 H1].
  match type of H1 with
  | _ = (Return ?r, ?w') => pose proof (add_to_graph_run env injected x r w') as Hg
  end.
  unfold ingest_text.
  rewrite (bind_return _ _ _ _ _ H0), (bind_return _ _ _ _ _ H1).
  destruct (connect_blocked env injected (triples x)) as [e|].
  - by rewrite (bind_raise _ _ _ _ _ Hg).
  - destruct Hg as [l2 Hg]. rewrite (bind_return _ _ _ _ _ Hg).
    match goal with
    | |- context [add_to_vector env cname text (default ∅ metadata) ?r ?w'] =>
        destruct (add_to_vector_run env cname text metadata r w')
          as (o & v1 & c1 & l3 & -> & Hadd)
    end.
    simpl in Hadd. specialize (Hadd (w_graph w) (w_log w)). rewrite world_eta in Hadd.
    unfold vector_outcome. rewrite Hadd. simpl. exists l3. f_equal.
    unfold ingestion_report. destruct o; simpl; by rewrite <- ?app_assoc.
Qed.

(** An extraction without triples.  When the extraction of a text gives no
    triple (the service failed, its answer could not be parsed, or it held
    no triple that was kept), [ingest_text] makes no graph manager and
    sends nothing to the graph store: it returns whatever the state of the
    graph store, leaves the graph as it was, reports success with both
    graph counters at zero, and still hands the text to the vector store. *)
Theorem ingest_text_without_triples (env : Env) (normalize injected : bool)
    (cname text : string) (metadata : option Props) (x : ExtractionResult) (w : World) :
  (extract env normalize text w).1 = Return x →
  triples x = [] →
  ∃ r w',
    ingest_text env normalize injected cname text metadata w = (Return r, w')
    ∧ w_graph w' = w_graph w
    ∧ success r = true
    ∧ nodes_created r = 0%nat
    ∧ relationships_created r = 0%nat
    ∧ documents_added r = match vector_outcome env cname text metadata w with
                          | Return _ => 1%nat
                          | Raise _ => 0%nat
                          end
    ∧ w_vector w' = w_vector (add_documents env cname [text] [_generate_doc_id text]
                                (Some [stored_metadata metadata]) w).2.
Proof.
  intros Hx Hts.
  destruct (ingest_text_run_extract env normalize injected cname text metadata)
    as (x' & Hx' & Hrun).
  rewrite Hx' in Hx. injection Hx as ->. specialize (Hrun w).
  rewrite Hts in Hrun. simpl in Hrun. destruct Hrun as [l ->].
  eexists _, _. split; [reflexivity|]. unfold ingestion_report. rewrite Hts. simpl.
  done.
Qed.

Lemma ingest_text_without_triples_witness :
  let env := graph_down_services (λ _, Return "This is not valid JSON")
                                 (loads_only EmptyString PyNone) in
  let x := mkExtractionResult [] "Some text"
             (Some "No JSON object found in response: This is not valid JSON") in
  (extract env true "Some text" empty_world).1 = Return x
  ∧ ∃ r w',
      ingest_text env true false "supply_chain" "Some text" None empty_world = (Return r, w')
      ∧ w_graph w' = w_graph empty_world
      ∧ success r = true
      ∧ nodes_created r = 0%nat
      ∧ relationships_created r = 0%nat
      ∧ documents_added r
        = match vector_outcome env "supply_chain" "Some text" None empty_world with
          | Return _ => 1%nat
          | Raise _ => 0%nat
          end
      ∧ w_vector w'
        = w_vector (add_documents env "supply_chain" ["Some text"]
                      [_generate_doc_id "Some text"]
                      (Some [stored_metadata None]) empty_world).2.
Proof.
  intros env x.
  assert ((extract env true "Some text" empty_world).1 = Return x) as H
    by (vm_compute; reflexivity).
  split; [exact H|].
  exact (ingest_text_without_triples env true false "supply_chain" "Some text" None x
           empty_world H eq_refl).
Defined.

(** Counting merges, not creations.  [nodes_created] and
    [relationships_created] count the MERGE statements the graph store
    ran: ingesting a text a second time reports the same two counters as
    the first time, although the second run adds no node to the graph. *)
Theorem ingest_text_counts_merges (env : Env) (normalize injected : bool)
    (cname text : string) (metadata : option Props) (w : World)
    (r1 r2 : IngestionResult) :
  let run := ingest_text env normalize injected cname text metadata in
  let w1 := (run w).2 in
  let w2 := (run w1).2 in
  (run w).1 = Return r1 →
  (run w1).1 = Return r2 →
  nodes_created r2 = nodes_created r1
  ∧ relationships_created r2 = relationships_created r1
  ∧ success r2 = success r1
  ∧ node_count w2 = node_count w1.
Proof.
  intros run w1 w2 H1 H2.
  destruct (ingest_text_run_extract env normalize injected cname text metadata)
    as (x & _ & Hrun).
  pose proof (Hrun w) as R1. pose proof (Hrun w1) as R2.
  destruct (connect_blocked env injected (triples x)) as [e|].
  { fold run in R1. rewrite R1 in H1. discriminate. }
  destruct R1 as [l1 R1]. destruct R2 as [l2 R2].
  fold run in R1, R2. unfold w2. rewrite R2 in H2 |- *. simpl in H2. injection H2 as <-.
  unfold w1 in *. rewrite R1 in H1 |- *. simpl in H1. injection H1 as <-.
  simpl. repeat split.
  unfold node_count. simpl.
  by destruct (ops_twice (concat (triple_ops env <$> triples x)) (w_graph w)) as [-> _].
Qed.

Lemma ingest_text_counts_merges_witness :
  let env := services (λ _, Return json_two_items)
                      (loads_only json_two_items data_two_items) in
  let run := ingest_text env true true "supply_chain"
               "TechFlow Inc. manufactures FlowChips" None in
  let w1 := (run empty_world).2 in
  let w2 := (run w1).2 in
  let r := mkIngestionResult true 2 1 1 [] in
  (run empty_world).1 = Return r
  ∧ (run w1).1 = Return r
  ∧ nodes_created r = nodes_created r
  ∧ relationships_created r = relationships_created r
  ∧ success r = success r
  ∧ node_count w2 = node_count w1.
Proof.
  intros env run w1 w2 r.
  assert ((run empty_world).1 = Return r) as H1 by (vm_compute; reflexivity).
  assert ((run w1).1 = Return r) as H2 by (vm_compute; reflexivity).
  split; [exact H1|]. split; [exact H2|].
  exact (ingest_text_counts_merges env true true "supply_chain"
           "TechFlow Inc. manufactures FlowChips" None empty_world r r H1 H2).
Defined.

(** ** chains.py: the sections of a structured answer *)

Lemma search_section_parts (open close response : string) :
  search_section open close response
  = text_after open response ≫= text_before close.
Proof.
  unfold search_section, text_after, text_before.
  destruct (partition_at open response) as [[b rest]|]; [|done]. simpl.
  by destruct (partition_at close rest) as [[g r]|].
Qed.

Lemma split_second_parts (sep response : string) :
  split_second sep response
  = rest ← text_after sep response; Some (default rest (text_before sep rest)).
Proof.
  unfold split_second, text_after, text_before.
  destruct (partition_at sep response) as [[b rest]|]; [|done]. simpl.
  by destruct (partition_at sep rest) as [[g r]|].
Qed.

Lemma str_drop_app (p s : string) : str_drop (String.length p) (p +:+ s) = s.
Proof. induction p as [|c p IH]; [done|]. rewrite app_cons. simpl. exact IH. Qed.

Lemma app_empty_r (s : string) : s +:+ EmptyString = s.
Proof. induction s as [|c s IH]; [done|]. by rewrite app_cons, IH. Qed.

Lemma partition_here (sep y : string) :
  partition_at sep (sep +:+ y) = Some (EmptyString, y).
Proof. rewrite partition_at_unfold, prefix_app. by rewrite str_drop_app. Qed.

Lemma partition_skip_char (sep' : string) (c : ascii) (s : string) :
  negb (Ascii.eqb c "<"%char) = true →
  partition_at (String "<" sep') (String c s)
  = match partition_at (String "<" sep') s with
    | Some (before, after) => Some (String c before, after)
    | None => None
    end.
Proof.
  intros Hc. rewrite partition_at_unfold.
  assert (String.prefix (String "<" sep') (String c s) = false) as ->; [|done].
  cbn [String.prefix]. destruct (ascii_dec "<" c) as [<-|]; [|reflexivity].
  rewrite Ascii.eqb_refl in Hc. discriminate.
Qed.

Lemma partition_skip (sep' x y : string) :
  no_angle x = true →
  partition_at (String "<" sep') (x +:+ y)
  = match partition_at (String "<" sep') y with
    | Some (before, after) => Some (x +:+ before, after)
    | None => None
    end.
Proof.
  unfold no_angle. induction x as [|c x IH].
  - intros _. rewrite app_nil. by destruct (partition_at _ y) as [[b a]|].
  - intros H. cbn [list_ascii_of_string forallb] in H.
    apply andb_true_iff in H as [Hc Hx].
    rewrite app_cons, partition_skip_char by done.
    rewrite IH by done. by destruct (partition_at _ y) as [[b a]|].
Qed.

Lemma partition_skip_tag (sep' x y : string) :
  String.prefix (String "<" sep') (String "<" (x +:+ y)) = false →
  no_angle x = true →
  partition_at (String "<" sep') (String "<" x +:+ y)
  = match partition_at (String "<" sep') y with
    | Some (before, after) => Some (String "<" x +:+ before, after)
    | None => None
    end.
Proof.
  intros Hp Hx. rewrite app_cons, partition_at_unfold, Hp.
  rewrite partition_skip by done. by destruct (partition_at _ y) as [[b a]|].
Qed.

Lemma text_after_here (sep y : string) : text_after sep (sep +:+ y) = Some y.
Proof. unfold text_after. by rewrite partition_here. Qed.

Lemma text_after_skip (sep' x y : string) :
  no_angle x = true →
  text_after (String "<" sep') (x +:+ y) = text_after (String "<" sep') y.
Proof.
  intros Hx. unfold text_after. rewrite partition_skip by done.
  by destruct (partition_at _ y) as [[b a]|].
Qed.

Lemma text_after_skip_tag (sep' x y : string) :
  String.prefix (String "<" sep') (String "<" (x +:+ y)) = false →
  no_angle x = true →
  text_after (String "<" sep') (String "<" x +:+ y) = text_after (String "<" sep') y.
Proof.
  intros Hp Hx. unfold text_after. rewrite partition_skip_tag by done.
  by destruct (partition_at _ y) as [[b a]|].
Qed.

Lemma text_before_close (sep' x y : string) :
  no_angle x = true →
  text_before (String "<" sep') (x +:+ String "<" sep' +:+ y) = Some x.
Proof.
  intros Hx. unfold text_before. rewrite partition_skip by done.
  rewrite partition_here. simpl. by rewrite app_empty_r.
Qed.

(** The sections of a structured answer.  For a response in the format the
    prompt asks for (an entities section, a reasoning section and an answer
    section, in this order, with text around them that holds no tag, and
    anything after the answer), the parsed entities, reasoning and answer
    are the stripped bodies of the three sections. *)
Theorem parse_from_response_sections (t0 e t1 r t2 a t3 : string) :
  no_angle t0 = true → no_angle e = true → no_angle t1 = true →
  no_angle r = true → no_angle t2 = true → no_angle a = true →
  let response :=
    t0 +:+ "<entities>" +:+ e +:+ "</entities>" +:+ t1
    +:+ "<reasoning>" +:+ r +:+ "</reasoning>" +:+ t2
    +:+ "<answer>" +:+ a +:+ "</answer>" +:+ t3 in
  parse_from_response response
  = mkReasoningResponse (py_strip a) (py_strip e) (py_strip r) response.
Proof.
  intros H0 He H1 Hr H2 Ha response.
  unfold parse_from_response. rewrite !search_section_parts. unfold response.
  repeat first
    [ rewrite text_after_here
    | rewrite text_after_skip_tag by reflexivity
    | rewrite text_after_skip by assumption ].
  simpl. rewrite !text_before_close by done. done.
Qed.

Lemma parse_from_response_sections_witness :
  let response :=
    "Analysis:" +:+ "<entities>" +:+ " Singapore, TechFlow " +:+ "</entities>" +:+ " "
    +:+ "<reasoning>" +:+ " The strike affects shipping. " +:+ "</reasoning>" +:+ " "
    +:+ "<answer>" +:+ " GlobalTech will be impacted. " +:+ "</answer>" +:+ " Done." in
  parse_from_response response
  = mkReasoningResponse (py_strip " GlobalTech will be impacted. ")
      (py_strip " Singapore, TechFlow ") (py_strip " The strike affects shipping. ")
      response.
Proof.
  exact (parse_from_response_sections "Analysis:" " Singapore, TechFlow " " "
           " The strike affects shipping. " " " " GlobalTech will be impacted. " " Done."
           eq_refl eq_refl eq_refl eq_refl eq_refl eq_refl).
Defined.

Lemma partition_no_angle (sep' y : string) :
  no_angle y = true → partition_at (String "<" sep') y = None.
Proof.
  intros Hy. rewrite <- (app_empty_r y), partition_skip by done.
  by rewrite partition_at_unfold.
Qed.

Lemma text_after_none (sep' y : string) :
  no_angle y = true → text_after (String "<" sep') y = None.
Proof. intros Hy. unfold text_after. by rewrite partition_no_angle. Qed.

Lemma text_before_none (sep' y : string) :
  no_angle y = true → text_before (String "<" sep') y = None.
Proof. intros Hy. unfold text_before. by rewrite partition_no_angle. Qed.

(** An answer without its section.  For a response that has a reasoning
    section and no answer section, the parsed answer is the stripped text
    that follows the closing tag of the reasoning, not the whole response;
    the reasoning is the stripped body of its section and the entities are
    empty. *)
Theorem parse_from_response_after_reasoning (t0 r rest : string) :
  no_angle t0 = true → no_angle r = true → no_angle rest = true →
  let response := t0 +:+ "<reasoning>" +:+ r +:+ "</reasoning>" +:+ rest in
  parse_from_response response
  = mkReasoningResponse (py_strip rest) EmptyString (py_strip r) response.
Proof.
  intros H0 Hr Hrest response.
  unfold parse_from_response.
  rewrite !search_section_parts, split_second_parts. unfold response.
  repeat first
    [ rewrite text_after_here
    | rewrite text_after_skip_tag by reflexivity
    | rewrite text_after_skip by assumption ].
  rewrite !text_after_none by done. simpl.
  rewrite text_before_close by done. by rewrite text_before_none.
Qed.

Lemma parse_from_response_after_reasoning_witness :
  let response := "<reasoning>" +:+ "because" +:+ "</reasoning>" +:+ " so it is." in
  parse_from_response response
  = mkReasoningResponse (py_strip " so it is.") EmptyString (py_strip "because") response.
Proof.
  exact (parse_from_response_after_reasoning EmptyString "because" " so it is."
           eq_refl eq_refl eq_refl).
Defined.
